(** * Intermediate-Compiler: lexer, parser, semantic analyzer and TAC generator

    A shallow embedding of the JavaScript front end found in [main.js]
    (the same classes are split over [lexer.js], [parser.js], [semantic.js]
    and [tac.js]).  JavaScript strings are sequences of UTF-16 code units and
    are modelled as lists of [N]; numbers used as counters and positions are
    modelled in [Z] or [nat]. *)

From Stdlib Require Import String Ascii Bool ZArith NArith Lia List Sorted.
From Stdlib Require Decimal DecimalString DecimalNat DecimalFacts.
Import ListNotations.

Open Scope string_scope.
Open Scope list_scope.

(** ** JavaScript strings *)

Definition jschar := N.
Definition jsstring := list jschar.

(** A string literal of the source, as a list of code units. *)
Definition lit (s : string) : jsstring :=
  map N_of_ascii (list_ascii_of_string s).

Fixpoint str_eqb (a b : jsstring) : bool :=
  match a, b with
  | [], [] => true
  | x :: a', y :: b' => N.eqb x y && str_eqb a' b'
  | _, _ => false
  end.

(** [s.startsWith(p)]: the anchored match of a literal. *)
Fixpoint prefixb (p s : jsstring) : bool :=
  match p, s with
  | [], _ => true
  | x :: p', y :: s' => N.eqb x y && prefixb p' s'
  | _ :: _, [] => false
  end.

Fixpoint takeWhile (p : jschar -> bool) (s : jsstring) : jsstring :=
  match s with
  | [] => []
  | c :: s' => if p c then c :: takeWhile p s' else []
  end.

Fixpoint dropWhile (p : jschar -> bool) (s : jsstring) : jsstring :=
  match s with
  | [] => []
  | c :: s' => if p c then dropWhile p s' else s
  end.

Definition nonempty (s : jsstring) : bool :=
  match s with [] => false | _ :: _ => true end.

Definition between (lo hi c : N) : bool := N.leb lo c && N.leb c hi.

Definition one_of (cs : jsstring) (c : jschar) : bool := existsb (N.eqb c) cs.

(** ** Character classes of the regular expressions *)

(** [\d] *)
Definition isDigit (c : jschar) : bool := between 48 57 c.

(** [\w], that is [[A-Za-z0-9_]]. *)
Definition isWordChar (c : jschar) : bool :=
  between 97 122 c || between 65 90 c || between 48 57 c || N.eqb c 95.

(** [[a-zA-Z_]] *)
Definition isIdentStart (c : jschar) : bool :=
  between 97 122 c || between 65 90 c || N.eqb c 95.

(** [\s]: the white space and line terminator code units of ECMAScript. *)
Definition isWhitespace (c : jschar) : bool :=
  between 9 13 c || N.eqb c 32 || N.eqb c 160 || N.eqb c 5760
  || between 8192 8202 c || N.eqb c 8232 || N.eqb c 8233 || N.eqb c 8239
  || N.eqb c 8287 || N.eqb c 12288 || N.eqb c 65279.

(** The line terminators, which [.] does not match. *)
Definition isLineTerminator (c : jschar) : bool :=
  N.eqb c 10 || N.eqb c 13 || N.eqb c 8232 || N.eqb c 8233.

(** ** Tokens *)

Inductive TokenType :=
| FLOAT_LIT | INT_LIT | STRING_LIT | KEYWORD | IDENTIFIER
| OPERATOR | SEPARATOR | MISMATCH.

Definition TokenType_eqb (a b : TokenType) : bool :=
  match a, b with
  | FLOAT_LIT, FLOAT_LIT | INT_LIT, INT_LIT | STRING_LIT, STRING_LIT
  | KEYWORD, KEYWORD | IDENTIFIER, IDENTIFIER | OPERATOR, OPERATOR
  | SEPARATOR, SEPARATOR | MISMATCH, MISMATCH => true
  | _, _ => false
  end.

Record Token := mkToken {
  type : TokenType;
  value : jsstring;
  line : Z;
  col : Z
}.

(** [t.line], under a name that the records of later modules do not hide. *)
Definition tokenLine (t : Token) : Z := line t.

(** ** Lexer *)

Module Lexer.

(** Each function below is the anchored match of one regular expression of
    [tokenSpecs]: it returns [match[0]] or [None] when the expression does
    not match at the start of the string. *)

(** [/^\d+\.\d+/] *)
Definition matchFloat (s : jsstring) : option jsstring :=
  let ds := takeWhile isDigit s in
  match ds, dropWhile isDigit s with
  | _ :: _, c :: r =>
      if N.eqb c 46 then
        match takeWhile isDigit r with
        | [] => None
        | fs => Some (ds ++ c :: fs)
        end
      else None
  | _, _ => None
  end.

(** [/^\d+/] *)
Definition matchInt (s : jsstring) : option jsstring :=
  match takeWhile isDigit s with
  | [] => None
  | ds => Some ds
  end.

(** The string literal rule: a double quote, any run of code units other
    than the double quote, and a closing double quote. *)
Definition matchString (s : jsstring) : option jsstring :=
  let notQuote := fun c => negb (N.eqb c 34) in
  match s with
  | q :: r =>
      if N.eqb q 34 then
        match dropWhile notQuote r with
        | q' :: _ => Some (q :: takeWhile notQuote r ++ [q'])
        | [] => None
        end
      else None
  | [] => None
  end.

Definition keywords : list jsstring :=
  map lit ["int"; "void"; "if"; "else"; "while"; "for"; "return"; "printf"]%string.

(** [\b] after a matched word: the next code unit, if any, is not a word
    character. *)
Definition boundaryAfter (w s : jsstring) : bool :=
  match skipn (length w) s with
  | [] => true
  | c :: _ => negb (isWordChar c)
  end.

(** The alternatives of a group, tried from left to right; [ok] is the part
    of the expression that follows the group. *)
Fixpoint firstAlternative (alts : list jsstring) (ok : jsstring -> bool)
    (s : jsstring) : option jsstring :=
  match alts with
  | [] => None
  | w :: alts' =>
      if prefixb w s && ok w then Some w else firstAlternative alts' ok s
  end.

(** [/^\b(int|void|if|else|while|for|return|printf)\b/].  The leading [\b]
    holds whenever an alternative matches, since each begins with a letter
    and nothing precedes position 0. *)
Definition matchKeyword (s : jsstring) : option jsstring :=
  firstAlternative keywords (fun w => boundaryAfter w s) s.

(** [/^[a-zA-Z_][a-zA-Z0-9_]*/] *)
Definition matchIdentifier (s : jsstring) : option jsstring :=
  match s with
  | c :: r => if isIdentStart c then Some (c :: takeWhile isWordChar r) else None
  | [] => None
  end.

Definition operators : list jsstring :=
  map lit ["=="; "!="; "<="; ">="; "&&"; "||";
           "+"; "-"; "*"; "/"; "="; "<"; ">"; "!"]%string.

(** [/^(==|!=|<=|>=|&&|\|\||[+\-*/=<>!])/] *)
Definition matchOperator (s : jsstring) : option jsstring :=
  firstAlternative operators (fun _ => true) s.

(** [/^[\(\)\{\};,]/] *)
Definition matchSeparator (s : jsstring) : option jsstring :=
  match s with
  | c :: _ => if one_of (lit "(){};,") c then Some [c] else None
  | [] => None
  end.

(** [/^./]: any single code unit that is not a line terminator. *)
Definition matchAny (s : jsstring) : option jsstring :=
  match s with
  | c :: _ => if isLineTerminator c then None else Some [c]
  | [] => None
  end.

Definition tokenSpecs : list (TokenType * (jsstring -> option jsstring)) :=
  [ (FLOAT_LIT, matchFloat); (INT_LIT, matchInt); (STRING_LIT, matchString);
    (KEYWORD, matchKeyword); (IDENTIFIER, matchIdentifier);
    (OPERATOR, matchOperator); (SEPARATOR, matchSeparator);
    (MISMATCH, matchAny) ].

(** The [for (const spec of tokenSpecs)] loop: the first expression that
    matches decides the token. *)
Fixpoint firstMatch (specs : list (TokenType * (jsstring -> option jsstring)))
    (s : jsstring) : option (TokenType * jsstring) :=
  match specs with
  | [] => None
  | (ty, rx) :: specs' =>
      match rx s with
      | Some v => Some (ty, v)
      | None => firstMatch specs' s
      end
  end.

(** [(ws.match(/\n/g) || []).length] *)
Definition countNewlines (ws : jsstring) : Z :=
  Z.of_nat (length (filter (N.eqb 10) ws)).

(** [ws.lastIndexOf('\n')], [-1] when there is none. *)
Fixpoint lastIndexOf_from (i : Z) (ws : jsstring) (found : Z) : Z :=
  match ws with
  | [] => found
  | c :: ws' => lastIndexOf_from (i + 1) ws' (if N.eqb c 10 then i else found)
  end.

Definition lastIndexOf_nl (ws : jsstring) : Z := lastIndexOf_from 0 ws (-1).

Definition strlen (s : jsstring) : Z := Z.of_nat (length s).

Inductive Outcome :=
| Tokens (ts : list Token)
| LexerError (near : jsstring)
| OutOfFuel.

Definition push (t : Token) (r : Outcome) : Outcome :=
  match r with
  | Tokens ts => Tokens (t :: ts)
  | other => other
  end.

(** The position after the leading white space [ws] of the remaining code. *)
Definition skipWhitespace (ws : jsstring) (line col : Z) : Z * Z :=
  if nonempty ws then
    if (0 <? countNewlines ws)%Z
    then ((line + countNewlines ws)%Z, (strlen ws - lastIndexOf_nl ws)%Z)
    else (line, (col + strlen ws)%Z)
  else (line, col).

(** The [while (remainingCode.length > 0)] loop.  Every iteration that does
    not leave the loop removes at least one code unit, so the number of
    iterations is bounded by the length of the code; [fuel] is that bound.
    The tokens are returned in the order they are pushed. *)
Fixpoint tokenize_loop (fuel : nat) (remainingCode : jsstring) (line col : Z)
    : Outcome :=
  match remainingCode with
  | [] => Tokens []
  | _ :: _ =>
      let ws := takeWhile isWhitespace remainingCode in
      let '(line1, col1) := skipWhitespace ws line col in
      let rem1 := skipn (length ws) remainingCode in
      if nonempty ws && negb (nonempty rem1) then Tokens []
      else
        match firstMatch tokenSpecs rem1 with
        | Some (ty, v) =>
            match fuel with
            | O => OutOfFuel
            | S fuel' =>
                push (mkToken ty v line1 col1)
                     (tokenize_loop fuel' (skipn (length v) rem1)
                                    line1 (col1 + strlen v)%Z)
            end
        | None =>
            if nonempty rem1 then LexerError (firstn 10 rem1)
            else match fuel with
                 | O => OutOfFuel
                 | S fuel' => tokenize_loop fuel' rem1 line1 col1
                 end
        end
  end.

Definition tokenize (code : jsstring) : Outcome :=
  tokenize_loop (length code) code 1 1.

End Lexer.

(** ** Numbers in template strings *)

(** [String(n)] for an integer. *)
Definition showZ (z : Z) : jsstring := lit (DecimalString.NilZero.string_of_int (Z.to_int z)).
Definition showNat (n : nat) : jsstring := lit (DecimalString.NilZero.string_of_uint (Nat.to_uint n)).

Definition typeName (ty : TokenType) : jsstring :=
  match ty with
  | FLOAT_LIT => lit "FLOAT_LIT" | INT_LIT => lit "INT_LIT"
  | STRING_LIT => lit "STRING_LIT" | KEYWORD => lit "KEYWORD"
  | IDENTIFIER => lit "IDENTIFIER" | OPERATOR => lit "OPERATOR"
  | SEPARATOR => lit "SEPARATOR" | MISMATCH => lit "MISMATCH"
  end.

(** ** Methods with state and exceptions *)

(** A method call on an object with state [S] either returns a value and
    the new state, or throws the TypeError of a property read on [null], or
    (in the model only) runs out of fuel. *)
Inductive Res (S A : Type) :=
| Ok (a : A) (st : S)
| TypeError
| OutOfFuel.
Arguments Ok {S A} a st.
Arguments TypeError {S A}.
Arguments OutOfFuel {S A}.

Definition M (S A : Type) := S -> Res S A.

Definition ret {S A} (a : A) : M S A := fun st => Ok a st.

Definition bind {S A B} (m : M S A) (k : A -> M S B) : M S B :=
  fun st =>
    match m st with
    | Ok a st' => k a st'
    | TypeError => TypeError
    | OutOfFuel => OutOfFuel
    end.

Definition throw {S A} : M S A := fun _ => TypeError.
Definition diverge {S A} : M S A := fun _ => OutOfFuel.

Declare Scope method_scope.
Delimit Scope method_scope with method.
Notation "x <- m ;; k" := (bind m (fun x => k))
  (at level 61, m at next level, right associativity) : method_scope.
Notation "m ;; k" := (bind m (fun _ => k))
  (at level 61, right associativity) : method_scope.

(** [xs.forEach(f)] *)
Definition forEach {S A} (f : A -> M S unit) : list A -> M S unit :=
  fix each (xs : list A) : M S unit :=
    match xs with
    | [] => ret tt
    | x :: xs' => bind (f x) (fun _ => each xs')
    end.

(** ** AST nodes *)

(** A [ParamNode]; [paramName] is an [IdentifierNode], kept as the token it
    was built from (its [name] is the token's [value]). *)
Record Param := mkParam { paramType : jsstring; paramName : Token }.

(** The node classes of [astNodes.js], and [Null] for JavaScript's [null].
    Fields that always hold an [IdentifierNode] (the names of functions,
    variables and assignment targets) are given by the token of that node. *)
Inductive node :=
| Null
| ProgramNode (children : list node)
| FunctionDefinitionNode (returnType : jsstring) (name : Token)
    (params : list Param) (body : node)
| BlockNode (statements : list node)
| VariableDeclarationNode (varType : jsstring) (varName : Token) (init : node)
| AssignmentNode (left : Token) (right : node)
| BinaryOpNode (left : node) (op : jsstring) (right : node)
| NumberNode (token : Token)
| IdentifierNode (token : Token)
| StringLiteralNode (token : Token)
| FunctionCallNode (name : Token) (args : list node)
| IfStatementNode (condition ifBody elseBody : node)
| ForLoopNode (init condition increment body : node)
| ReturnStatementNode (result : node)
| UnaryOpNode (op : jsstring) (arg : node).

(** [if (node)]: every object is truthy, [null] is not. *)
Definition truthy (n : node) : bool :=
  match n with Null => false | _ => true end.

(** The induction principle of [node] with the hypotheses for the nodes held
    in lists. *)
Section NodeInduction.

Variable P : node -> Prop.

Hypothesis HNull : P Null.
Hypothesis HProgram : forall cs, Forall P cs -> P (ProgramNode cs).
Hypothesis HFunction : forall rt nm ps body,
  P body -> P (FunctionDefinitionNode rt nm ps body).
Hypothesis HBlock : forall ss, Forall P ss -> P (BlockNode ss).
Hypothesis HDeclaration : forall vt vn v,
  P v -> P (VariableDeclarationNode vt vn v).
Hypothesis HAssignment : forall l r, P r -> P (AssignmentNode l r).
Hypothesis HBinary : forall l o r, P l -> P r -> P (BinaryOpNode l o r).
Hypothesis HNumber : forall t, P (NumberNode t).
Hypothesis HIdentifier : forall t, P (IdentifierNode t).
Hypothesis HString : forall t, P (StringLiteralNode t).
Hypothesis HCall : forall nm args, Forall P args -> P (FunctionCallNode nm args).
Hypothesis HIf : forall c a b, P c -> P a -> P b -> P (IfStatementNode c a b).
Hypothesis HFor : forall i c u b,
  P i -> P c -> P u -> P b -> P (ForLoopNode i c u b).
Hypothesis HReturn : forall v, P v -> P (ReturnStatementNode v).
Hypothesis HUnary : forall o a, P a -> P (UnaryOpNode o a).

Fixpoint node_induction (n : node) : P n :=
  let all := fix all (l : list node) : Forall P l :=
               match l with
               | [] => Forall_nil P
               | x :: l' => Forall_cons x (node_induction x) (all l')
               end in
  match n with
  | Null => HNull
  | ProgramNode cs => HProgram cs (all cs)
  | FunctionDefinitionNode rt nm ps body =>
      HFunction rt nm ps body (node_induction body)
  | BlockNode ss => HBlock ss (all ss)
  | VariableDeclarationNode vt vn v => HDeclaration vt vn v (node_induction v)
  | AssignmentNode l r => HAssignment l r (node_induction r)
  | BinaryOpNode l o r => HBinary l o r (node_induction l) (node_induction r)
  | NumberNode t => HNumber t
  | IdentifierNode t => HIdentifier t
  | StringLiteralNode t => HString t
  | FunctionCallNode nm args => HCall nm args (all args)
  | IfStatementNode c a b =>
      HIf c a b (node_induction c) (node_induction a) (node_induction b)
  | ForLoopNode i c u b =>
      HFor i c u b (node_induction i) (node_induction c) (node_induction u)
        (node_induction b)
  | ReturnStatementNode v => HReturn v (node_induction v)
  | UnaryOpNode o a => HUnary o a (node_induction a)
  end.

End NodeInduction.

(** ** Parser *)

Module Parser.

Record SyntaxError := mkError { message : jsstring }.

Record State := mkState { pos : nat; errors : list SyntaxError }.

Definition P (A : Type) := M State A.

Local Open Scope method_scope.

(** [t?.value === s] *)
Definition valueIs (s : string) (t : option Token) : bool :=
  match t with
  | Some tk => str_eqb (value tk) (lit s)
  | None => false
  end.

Definition typeIs (ty : TokenType) (t : option Token) : bool :=
  match t with
  | Some tk => TokenType_eqb (type tk) ty
  | None => false
  end.

Section Methods.

Variable tokens : list Token.

Definition currentToken : P (option Token) :=
  fun st => Ok (nth_error tokens (pos st)) st.

(** [this.tokens[this.pos + 1]] *)
Definition nextToken : P (option Token) :=
  fun st => Ok (nth_error tokens (pos st + 1)) st.

Definition advance : P unit :=
  fun st => Ok tt (mkState (S (pos st)) (errors st)).

Definition getErrors : P (list SyntaxError) := fun st => Ok (errors st) st.

Definition pushError (m : jsstring) : P unit :=
  fun st => Ok tt (mkState (pos st) (errors st ++ [mkError m])).

Definition error (m : jsstring) (t : option Token) : P unit :=
  cur <- currentToken ;;
  let tok := match t with Some _ => t | None => cur end in
  let i := match tok with
           | Some tk => lit "at line " ++ showZ (line tk)
           | None => lit "at EOF"
           end in
  pushError (lit "Syntax Error: " ++ m ++ lit " " ++ i) ;;
  match tok with Some _ => advance | None => ret tt end.

Definition expect (ty : TokenType) (v : option string) : P (option Token) :=
  t <- currentToken ;;
  if typeIs ty t && match v with None => true | Some s => valueIs s t end
  then advance ;; ret t
  else
    error (lit "Expected " ++
           match v with
           | Some s => if nonempty (lit s) then lit s else typeName ty
           | None => typeName ty
           end) t ;;
    ret None.

(** [new IdentifierNode(t)] reads [t.value]: a TypeError when [t] is null. *)
Definition newIdentifier (t : option Token) : P Token :=
  match t with Some tk => ret tk | None => throw end.

(** The loops [while (cur is one of ops) { advance; r = operand(); n = new
    BinaryOpNode(n, o.value, r) }] of the five binary levels. *)
Fixpoint binaryLoop (isOp : option Token -> bool) (operand : P node)
    (fuel : nat) (n : node) : P node :=
  o <- currentToken ;;
  match o with
  | Some otk =>
      if isOp o then
        match fuel with
        | O => diverge
        | S fuel' =>
            advance ;;
            r <- operand ;;
            binaryLoop isOp operand fuel' (BinaryOpNode n (value otk) r)
        end
      else ret n
  | None => ret n
  end.

Definition operatorIn (ops : list string) (t : option Token) : bool :=
  typeIs OPERATOR t && existsb (fun s => valueIs s t) ops.

(** [while (cur?.value === ',') { advance; args.push(parseExpression()) }] *)
Fixpoint argumentLoop (parseExpression : P node) (fuel : nat)
    (args : list node) : P (list node) :=
  cur <- currentToken ;;
  if valueIs "," cur then
    match fuel with
    | O => diverge
    | S fuel' =>
        advance ;;
        a <- parseExpression ;;
        argumentLoop parseExpression fuel' (args ++ [a])
    end
  else ret args.

Definition parseArguments (parseExpression : P node) (fuel : nat)
    : P (list node) :=
  cur <- currentToken ;;
  if negb (valueIs ")" cur) then
    a <- parseExpression ;;
    argumentLoop parseExpression fuel [a]
  else ret [].

Definition parseFunctionCallExpression (parseExpression : P node)
    (fuel : nat) : P node :=
  nameToken <- expect IDENTIFIER None ;;
  expect SEPARATOR (Some "(") ;;
  args <- parseArguments parseExpression fuel ;;
  expect SEPARATOR (Some ")") ;;
  n <- newIdentifier nameToken ;;
  ret (FunctionCallNode n args).

Definition parsePrimary (parseExpression : P node) (fuel : nat) : P node :=
  t <- currentToken ;;
  match t with
  | None => error (lit "Unexpected EOF") None ;; ret Null
  | Some tk =>
      nxt <- nextToken ;;
      if typeIs IDENTIFIER t && valueIs "(" nxt
      then parseFunctionCallExpression parseExpression fuel
      else if typeIs STRING_LIT t then advance ;; ret (StringLiteralNode tk)
      else if typeIs FLOAT_LIT t || typeIs INT_LIT t || typeIs STRING_LIT t
      then advance ;; ret (NumberNode tk)
      else if typeIs IDENTIFIER t then advance ;; ret (IdentifierNode tk)
      else if valueIs "(" t then
        advance ;;
        n <- parseExpression ;;
        expect SEPARATOR (Some ")") ;;
        ret n
      else error (lit "Invalid primary expression") None ;; ret Null
  end.

Definition parseFactor (parseExpression : P node) (fuel : nat) : P node :=
  n <- parsePrimary parseExpression fuel ;;
  binaryLoop (operatorIn ["*"; "/"]%string)
             (parsePrimary parseExpression fuel) fuel n.

Definition parseTerm (parseExpression : P node) (fuel : nat) : P node :=
  n <- parseFactor parseExpression fuel ;;
  binaryLoop (operatorIn ["+"; "-"]%string)
             (parseFactor parseExpression fuel) fuel n.

Definition parseComparison (parseExpression : P node) (fuel : nat) : P node :=
  n <- parseTerm parseExpression fuel ;;
  binaryLoop (operatorIn ["<"; ">"; "=="; "!="; "<="; ">="]%string)
             (parseTerm parseExpression fuel) fuel n.

Definition parseLogicalAnd (parseExpression : P node) (fuel : nat) : P node :=
  n <- parseComparison parseExpression fuel ;;
  binaryLoop (valueIs "&&") (parseComparison parseExpression fuel) fuel n.

Definition parseLogicalOr (parseExpression : P node) (fuel : nat) : P node :=
  n <- parseLogicalAnd parseExpression fuel ;;
  binaryLoop (valueIs "||") (parseLogicalAnd parseExpression fuel) fuel n.

(** [parseExpression]; [depth] bounds the nesting of parentheses and calls,
    [fuel] the iterations of each loop. *)
Fixpoint parseExpression (fuel depth : nat) : P node :=
  match depth with
  | O => diverge
  | S depth' => parseLogicalOr (parseExpression fuel depth') fuel
  end.

Definition parseVariableDeclaration (fuel : nat) : P node :=
  t <- expect KEYWORD None ;;
  n <- expect IDENTIFIER None ;;
  match t, n with
  | Some ttk, Some ntk =>
      cur <- currentToken ;;
      v <- (if valueIs "=" cur
            then advance ;; parseExpression fuel fuel
            else ret Null) ;;
      expect SEPARATOR (Some ";") ;;
      ret (VariableDeclarationNode (value ttk) ntk v)
  | _, _ => ret Null
  end.

Definition parseAssignment (fuel : nat) (noSemicolon : bool) : P node :=
  t <- expect IDENTIFIER None ;;
  l <- newIdentifier t ;;
  expect OPERATOR (Some "=") ;;
  r <- parseExpression fuel fuel ;;
  (if negb noSemicolon then expect SEPARATOR (Some ";") ;; ret tt else ret tt) ;;
  ret (AssignmentNode l r).

Definition parseFunctionCallStatement (fuel : nat) : P node :=
  n <- currentToken ;;
  match n with
  | None => throw
  | Some ntk =>
      if negb (typeIs IDENTIFIER n) && negb (typeIs KEYWORD n)
      then error (lit "Expected function name") None ;; ret Null
      else
        advance ;;
        expect SEPARATOR (Some "(") ;;
        a <- parseArguments (parseExpression fuel fuel) fuel ;;
        expect SEPARATOR (Some ")") ;;
        expect SEPARATOR (Some ";") ;;
        ret (FunctionCallNode ntk a)
  end.

Definition parseReturnStatement (fuel : nat) : P node :=
  expect KEYWORD (Some "return") ;;
  cur <- currentToken ;;
  v <- (if negb (valueIs ";" cur) then parseExpression fuel fuel else ret Null) ;;
  expect SEPARATOR (Some ";") ;;
  ret (ReturnStatementNode v).

Definition parseIfStatement (fuel : nat) (parseBlock : P node) : P node :=
  expect KEYWORD (Some "if") ;;
  expect SEPARATOR (Some "(") ;;
  c <- parseExpression fuel fuel ;;
  expect SEPARATOR (Some ")") ;;
  ib <- parseBlock ;;
  cur <- currentToken ;;
  eb <- (if valueIs "else" cur then advance ;; parseBlock else ret Null) ;;
  ret (IfStatementNode c ib eb).

Definition parseForLoop (fuel : nat) (parseBlock : P node) : P node :=
  expect KEYWORD (Some "for") ;;
  expect SEPARATOR (Some "(") ;;
  init <- parseVariableDeclaration fuel ;;
  cond <- parseExpression fuel fuel ;;
  expect SEPARATOR (Some ";") ;;
  inc <- parseAssignment fuel true ;;
  expect SEPARATOR (Some ")") ;;
  body <- parseBlock ;;
  ret (ForLoopNode init cond inc body).

Definition parseStatement (fuel : nat) (parseBlock : P node) : P node :=
  t <- currentToken ;;
  match t with
  | None => ret Null
  | Some tk =>
      if typeIs KEYWORD t && valueIs "int" t then parseVariableDeclaration fuel
      else if typeIs KEYWORD t && valueIs "if" t
      then parseIfStatement fuel parseBlock
      else if typeIs KEYWORD t && valueIs "for" t
      then parseForLoop fuel parseBlock
      else if typeIs KEYWORD t && valueIs "return" t
      then parseReturnStatement fuel
      else
        nxt <- nextToken ;;
        if (typeIs IDENTIFIER t || valueIs "printf" t) && valueIs "(" nxt
        then parseFunctionCallStatement fuel
        else if (typeIs IDENTIFIER t || valueIs "printf" t) && valueIs "=" nxt
        then parseAssignment fuel false
        else error (lit "Invalid statement") None ;; ret Null
  end.

(** The position [recover] stops at: the first token from [p] on whose value
    is [;] or [}], or the end of the tokens. *)
Fixpoint skipToTerminator (rest : list Token) (p : nat) : nat :=
  match rest with
  | [] => p
  | tk :: rest' =>
      if str_eqb (value tk) (lit ";") || str_eqb (value tk) (lit "}")
      then p
      else skipToTerminator rest' (S p)
  end.

Definition recover : P unit :=
  fun st =>
    let p := skipToTerminator (skipn (pos st) tokens) (pos st) in
    let st' := mkState p (errors st) in
    if valueIs ";" (nth_error tokens p) then advance st' else Ok tt st'.

(** The statement loop of [parseBlock]. *)
Fixpoint blockLoop (parseStatement : P node) (fuel : nat)
    (stmts : list node) : P (list node) :=
  cur <- currentToken ;;
  match cur with
  | Some _ =>
      if negb (valueIs "}" cur) then
        match fuel with
        | O => diverge
        | S fuel' =>
            s <- parseStatement ;;
            if truthy s then blockLoop parseStatement fuel' (stmts ++ [s])
            else
              errs <- getErrors ;;
              (if (0 <? length errs)%nat then recover else ret tt) ;;
              blockLoop parseStatement fuel' stmts
        end
      else ret stmts
  | None => ret stmts
  end.

(** [parseBlock]; [depth] bounds the nesting of blocks. *)
Fixpoint parseBlock (fuel depth : nat) : P node :=
  match depth with
  | O => diverge
  | S depth' =>
      expect SEPARATOR (Some "{") ;;
      stmts <- blockLoop (parseStatement fuel (parseBlock fuel depth')) fuel [] ;;
      expect SEPARATOR (Some "}") ;;
      ret (BlockNode stmts)
  end.

(** The [do ... while (true)] loop over the parameters. *)
Fixpoint parameterLoop (fuel : nat) (params : list Param) : P (list Param) :=
  paramType <- expect KEYWORD None ;;
  paramName <- expect IDENTIFIER None ;;
  let params' := match paramType, paramName with
                 | Some pt, Some pn => params ++ [mkParam (value pt) pn]
                 | _, _ => params
                 end in
  cur <- currentToken ;;
  if negb (valueIs "," cur) then ret params'
  else match fuel with
       | O => diverge
       | S fuel' => advance ;; parameterLoop fuel' params'
       end.

Definition parseFunctionDefinition (fuel : nat) : P node :=
  ty <- expect KEYWORD None ;;
  name <- expect IDENTIFIER None ;;
  match ty, name with
  | Some tytk, Some ntk =>
      expect SEPARATOR (Some "(") ;;
      cur <- currentToken ;;
      params <- (if negb (valueIs ")" cur) then parameterLoop fuel []
                 else ret []) ;;
      expect SEPARATOR (Some ")") ;;
      body <- parseBlock fuel fuel ;;
      ret (FunctionDefinitionNode (value tytk) ntk params body)
  | _, _ => ret Null
  end.

(** The loop of [parse]; it ends with the list of functions. *)
Fixpoint parseLoop (fuel loops : nat) (functions : list node)
    : P (list node) :=
  cur <- currentToken ;;
  match cur with
  | None => ret functions
  | Some _ =>
      match loops with
      | O => diverge
      | S loops' =>
          func <- parseFunctionDefinition fuel ;;
          if truthy func then parseLoop fuel loops' (functions ++ [func])
          else
            errs <- getErrors ;;
            if (0 <? length errs)%nat then ret functions
            else parseLoop fuel loops' functions
      end
  end.

End Methods.

(** What [parse] returns: [{ ast, errors }], or the exception. *)
Inductive Outcome :=
| Parsed (ast : node) (errs : list SyntaxError)
| Thrown
| Diverged.

(** Every loop iteration and every nested call consumes a token, so the
    number of tokens (plus one) bounds them all. *)
Definition parse (tokens : list Token) : Outcome :=
  let fuel := S (length tokens) in
  match parseLoop tokens fuel fuel [] (mkState 0 []) with
  | Ok functions st => Parsed (ProgramNode functions) (errors st)
  | TypeError => Thrown
  | OutOfFuel => Diverged
  end.

End Parser.

(** ** Semantic analyzer *)

Module Semantic.

Local Open Scope method_scope.

(** The value [{ type, params }] stored for a symbol. *)
Record Symbol := mkSymbol { symType : jsstring; symParams : list Param }.

(** [this.symbols = {}] is an ordinary object: a read [symbols[name]] finds
    the own properties written by [define], and otherwise the members every
    object inherits from [Object.prototype]. *)
Definition objectPrototypeKeys : list jsstring :=
  map lit ["constructor"; "__defineGetter__"; "__defineSetter__";
           "hasOwnProperty"; "__lookupGetter__"; "__lookupSetter__";
           "isPrototypeOf"; "propertyIsEnumerable"; "toString"; "valueOf";
           "__proto__"; "toLocaleString"].

Definition inherited (name : jsstring) : bool :=
  existsb (str_eqb name) objectPrototypeKeys.

(** What a read [symbols[name]] yields when it is truthy: a stored symbol,
    or an inherited member (a function or object without a [type]). *)
Inductive Property :=
| Own (s : Symbol)
| Inherited.

Definition Symbols := list (jsstring * Symbol).

Fixpoint own (symbols : Symbols) (name : jsstring) : option Symbol :=
  match symbols with
  | [] => None
  | (k, s) :: rest => if str_eqb k name then Some s else own rest name
  end.

(** [symbols[name]], [None] standing for [undefined]. *)
Definition get (symbols : Symbols) (name : jsstring) : option Property :=
  match own symbols name with
  | Some s => Some (Own s)
  | None => if inherited name then Some Inherited else None
  end.

(** A [SymbolTable]; [parent] is a reference to another table, given by its
    index in the list [scopes] of the analyzer, which holds every table ever
    created. *)
Record SymbolTable := mkTable {
  name : jsstring;
  parent : option nat;
  symbols : Symbols
}.

(** [define(name, type, params)]: the result and the table afterwards. *)
Definition define (t : SymbolTable) (n : jsstring) (ty : jsstring)
    (ps : list Param) : bool * SymbolTable :=
  match get (symbols t) n with
  | Some _ => (false, t)
  | None => (true, mkTable (name t) (parent t)
                     (symbols t ++ [(n, mkSymbol ty ps)]))
  end.

Record SemanticError := mkError { message : jsstring; line : option Z }.

(** The analyzer: [globalScope] is the table at index 0. *)
Record State := mkState {
  scopes : list SymbolTable;
  currentScope : option nat;
  errors : list SemanticError
}.

Definition globalScope : nat := 0.

Definition A (T : Type) := M State T.

(** The constructor. *)
Definition initial : State :=
  mkState [snd (define (mkTable (lit "global") None []) (lit "printf")
                  (lit "function") [])]
          (Some globalScope) [].

Fixpoint update (i : nat) (t : SymbolTable) (l : list SymbolTable)
    : list SymbolTable :=
  match l, i with
  | [], _ => []
  | _ :: l', O => t :: l'
  | x :: l', S i' => x :: update i' t l'
  end.

(** [scope.define(n, ty, ps)] on the table referenced by [scope]; a null
    reference throws. *)
Definition defineIn (scope : option nat) (n ty : jsstring) (ps : list Param)
    : A bool :=
  fun st =>
    match scope with
    | None => TypeError
    | Some i =>
        match nth_error (scopes st) i with
        | None => TypeError
        | Some t =>
            let '(ok, t') := define t n ty ps in
            Ok ok (mkState (update i t' (scopes st)) (currentScope st)
                           (errors st))
        end
    end.

Definition getCurrentScope : A (option nat) :=
  fun st => Ok (currentScope st) st.

(** The loop of [lookup]: from [scope] upwards through the parents. *)
Fixpoint lookupFrom (fuel : nat) (tables : list SymbolTable)
    (scope : option nat) (n : jsstring) : option (option Property) :=
  match scope with
  | None => Some None
  | Some i =>
      match nth_error tables i with
      | None => Some None
      | Some t =>
          match get (symbols t) n with
          | Some p => Some (Some p)
          | None =>
              match fuel with
              | O => None
              | S fuel' => lookupFrom fuel' tables (parent t) n
              end
          end
      end
  end.

(** [this.currentScope.lookup(n)]. A table is created after its parent, so
    the number of tables bounds the walk. *)
Definition lookup (n : jsstring) : A (option Property) :=
  fun st =>
    match currentScope st with
    | None => TypeError
    | Some i =>
        match lookupFrom (length (scopes st)) (scopes st) (Some i) n with
        | Some r => Ok r st
        | None => OutOfFuel
        end
    end.

(** [error(message, node)], [node] being an [IdentifierNode] with token [t]. *)
Definition error (m : jsstring) (t : Token) : A unit :=
  fun st =>
    Ok tt (mkState (scopes st) (currentScope st)
             (errors st ++ [mkError (lit "Semantic Error: " ++ m)
                                    (Some (tokenLine t))])).

Definition enterScope (n : jsstring) : A unit :=
  fun st =>
    Ok tt (mkState (scopes st ++ [mkTable n (currentScope st) []])
                   (Some (length (scopes st))) (errors st)).

Definition exitScope : A unit :=
  fun st =>
    match currentScope st with
    | None => TypeError
    | Some i =>
        match nth_error (scopes st) i with
        | None => TypeError
        | Some t => Ok tt (mkState (scopes st) (parent t) (errors st))
        end
    end.

Definition quoted (n : jsstring) : jsstring := lit "'" ++ n ++ lit "'".

Definition visitIdentifierNode (t : Token) : A unit :=
  found <- lookup (value t) ;;
  match found with
  | Some _ => ret tt
  | None => error (lit "Undeclared variable " ++ quoted (value t) ++ lit ".") t
  end.

Definition declareParameter (p : Param) : A unit :=
  cur <- getCurrentScope ;;
  defineIn cur (value (paramName p)) (paramType p) [] ;;
  ret tt.

(** [visit(node)]: the dispatch on the class of the node, with the body of
    each visit method; [genericVisit] goes through the fields of a node in
    the order the constructor assigns them. *)
Fixpoint visit (n : node) : A unit :=
  match n with
  | Null => ret tt
  | ProgramNode children => forEach visit children
  | FunctionDefinitionNode _ fname params body =>
      defined <- defineIn (Some globalScope) (value fname) (lit "function")
                          params ;;
      (if defined then ret tt
       else error (lit "Function " ++ quoted (value fname) ++
                   lit " already defined.") fname) ;;
      enterScope (value fname) ;;
      forEach declareParameter params ;;
      visit body ;;
      exitScope
  | BlockNode statements =>
      enterScope (lit "block") ;;
      forEach visit statements ;;
      exitScope
  | VariableDeclarationNode _ varName init =>
      cur <- getCurrentScope ;;
      defined <- defineIn cur (value varName) (lit "variable") [] ;;
      (if defined then ret tt
       else error (lit "Variable " ++ quoted (value varName) ++
                   lit " already declared.") varName) ;;
      visit init
  | AssignmentNode lhs rhs =>
      visitIdentifierNode lhs ;;
      visit rhs
  | BinaryOpNode lhs _ rhs =>
      visit lhs ;;
      visit rhs
  | NumberNode _ => ret tt
  | IdentifierNode t => visitIdentifierNode t
  | StringLiteralNode _ => ret tt
  | FunctionCallNode fname args =>
      f <- lookup (value fname) ;;
      match f with
      | None => error (lit "Function " ++ quoted (value fname) ++
                       lit " not defined.") fname
      | Some (Own s) =>
          if str_eqb (symType s) (lit "function") then ret tt
          else error (quoted (value fname) ++ lit " is not a function.") fname
      | Some Inherited =>
          error (quoted (value fname) ++ lit " is not a function.") fname
      end ;;
      visitIdentifierNode fname ;;
      forEach visit args
  | IfStatementNode condition ifBody elseBody =>
      visit condition ;;
      visit ifBody ;;
      visit elseBody
  | ForLoopNode init condition increment body =>
      enterScope (lit "for-loop") ;;
      visit init ;;
      visit condition ;;
      visit increment ;;
      visit body ;;
      exitScope
  | ReturnStatementNode result => visit result
  | UnaryOpNode _ arg => visit arg
  end.

(** [new SemanticAnalyzer().analyze(ast)]; the state it ends in holds the
    [errors] and [scopes] that are returned. *)
Definition analyze (ast : node) : Res State unit := visit ast initial.

End Semantic.

(** ** TAC generator *)

Module TAC.

(** The values passed between visit methods and to [emit]. *)
Inductive JSVal :=
| VStr (s : jsstring)
| VNull
| VUndefined.

Definition isTruthy (v : JSVal) : bool :=
  match v with VStr s => nonempty s | _ => false end.

(** A value inside a template string. *)
Definition render (v : JSVal) : jsstring :=
  match v with
  | VStr s => s
  | VNull => lit "null"
  | VUndefined => lit "undefined"
  end.

Record State := mkState {
  tempCounter : nat;
  labelCounter : nat;
  code : list jsstring
}.

Definition newTemp (st : State) : jsstring * State :=
  (lit "t" ++ showNat (tempCounter st),
   mkState (S (tempCounter st)) (labelCounter st) (code st)).

Definition newLabel (st : State) : jsstring * State :=
  (lit "L" ++ showNat (labelCounter st),
   mkState (tempCounter st) (S (labelCounter st)) (code st)).

(** The line [emit] builds. *)
Definition instruction (op : jsstring) (arg1 arg2 result : JSVal) : jsstring :=
  if isTruthy result && isTruthy arg2
  then render result ++ lit " = " ++ render arg1 ++ lit " " ++ op ++ lit " " ++
       render arg2
  else if isTruthy result && isTruthy arg1
  then render result ++ lit " = " ++ render arg1
  else if isTruthy arg1 then op ++ lit " " ++ render arg1
  else op ++ lit ":".

(** A parameter with the default value [null] takes it when the argument
    is [undefined]. *)
Definition orNull (v : JSVal) : JSVal :=
  match v with VUndefined => VNull | _ => v end.

Definition emit (op : jsstring) (arg1 arg2 result : JSVal) (st : State)
    : State :=
  mkState (tempCounter st) (labelCounter st)
          (code st ++
           [instruction op (orNull arg1) (orNull arg2) (orNull result)]).

(** [xs.forEach(f)] and [xs.map(f)] for a method [f] of the generator. *)
Definition forEachNode (f : node -> State -> JSVal * State)
    : list node -> State -> State :=
  fix each (xs : list node) (st : State) : State :=
    match xs with
    | [] => st
    | x :: xs' => each xs' (snd (f x st))
    end.

Definition mapNode (f : node -> State -> JSVal * State)
    : list node -> State -> list JSVal * State :=
  fix each (xs : list node) (st : State) : list JSVal * State :=
    match xs with
    | [] => ([], st)
    | x :: xs' =>
        let '(v, st1) := f x st in
        let '(vs, st2) := each xs' st1 in
        (v :: vs, st2)
    end.

Fixpoint emitParams (argTemps : list JSVal) (st : State) : State :=
  match argTemps with
  | [] => st
  | a :: rest => emitParams rest (emit (lit "param") a VNull VNull st)
  end.

(** [visit(node)] with the body of each visit method; a class without a
    visit method ([UnaryOpNode]) yields [null]. *)
Fixpoint visit (n : node) (st : State) : JSVal * State :=
  match n with
  | Null => (VNull, st)
  | ProgramNode children => (VUndefined, forEachNode visit children st)
  | FunctionDefinitionNode _ fname _ body =>
      let st1 := emit (lit "func begin " ++ value fname) VNull VNull VNull st in
      let st2 := snd (visit body st1) in
      (VUndefined,
       emit (lit "func end " ++ value fname) VNull VNull VNull st2)
  | BlockNode statements => (VUndefined, forEachNode visit statements st)
  | VariableDeclarationNode _ varName init =>
      if truthy init then
        let '(valueTemp, st1) := visit init st in
        (VUndefined, emit (lit "=") valueTemp VNull (VStr (value varName)) st1)
      else (VUndefined, st)
  | AssignmentNode lhs rhs =>
      let '(rightTemp, st1) := visit rhs st in
      (VStr (value lhs),
       emit (lit "=") rightTemp VNull (VStr (value lhs)) st1)
  | BinaryOpNode lhs op rhs =>
      let '(leftTemp, st1) := visit lhs st in
      let '(rightTemp, st2) := visit rhs st1 in
      let '(resultTemp, st3) := newTemp st2 in
      (VStr resultTemp, emit op leftTemp rightTemp (VStr resultTemp) st3)
  | NumberNode t => (VStr (value t), st)
  | IdentifierNode t => (VStr (value t), st)
  | StringLiteralNode t => (VStr (value t), st)
  | FunctionCallNode fname args =>
      let '(argTemps, st1) := mapNode visit args st in
      let st2 := emitParams argTemps st1 in
      let '(resultTemp, st3) := newTemp st2 in
      (VStr resultTemp,
       emit (lit "call") (VStr (value fname))
            (VStr (showNat (length argTemps))) (VStr resultTemp) st3)
  | IfStatementNode condition ifBody elseBody =>
      let '(conditionTemp, st1) := visit condition st in
      let '(elseLabel, st2) := newLabel st1 in
      let '(endLabel, st3) := newLabel st2 in
      let st4 := emit (lit "if_false") conditionTemp
                      (VStr (lit "goto " ++ elseLabel)) VNull st3 in
      let st5 := snd (visit ifBody st4) in
      let st6 := emit (lit "goto") (VStr endLabel) VNull VNull st5 in
      let st7 := emit elseLabel VNull VNull VNull st6 in
      let st8 := if truthy elseBody then snd (visit elseBody st7) else st7 in
      (VUndefined, emit endLabel VNull VNull VNull st8)
  | ForLoopNode init condition increment body =>
      let '(startLabel, st1) := newLabel st in
      let '(endLabel, st2) := newLabel st1 in
      let st3 := snd (visit init st2) in
      let st4 := emit startLabel VNull VNull VNull st3 in
      let '(conditionTemp, st5) := visit condition st4 in
      let st6 := emit (lit "if_false") conditionTemp
                      (VStr (lit "goto " ++ endLabel)) VNull st5 in
      let st7 := snd (visit body st6) in
      let st8 := snd (visit increment st7) in
      let st9 := emit (lit "goto") (VStr startLabel) VNull VNull st8 in
      (VUndefined, emit endLabel VNull VNull VNull st9)
  | ReturnStatementNode result =>
      if truthy result then
        let '(valueTemp, st1) := visit result st in
        (VUndefined, emit (lit "return") valueTemp VNull VNull st1)
      else (VUndefined, emit (lit "return") VNull VNull VNull st)
  | UnaryOpNode _ _ => (VNull, st)
  end.

(** [generate(ast)] resets the counters and the code before the visit. *)
Definition generate (ast : node) : list jsstring :=
  code (snd (visit ast (mkState 0 0 []))).

(** The instructions a visit appends. *)
Definition emitted (n : node) (st : State) : list jsstring :=
  skipn (length (code st)) (code (snd (visit n st))).

(** A label declaration is the line [L<number>:]. *)
Definition isLabelDeclaration (s : jsstring) : bool :=
  match s with
  | c :: r =>
      N.eqb c 76 &&
      match rev r with
      | c' :: ds => N.eqb c' 58 && nonempty ds && forallb isDigit ds
      | [] => false
      end
  | [] => false
  end.

(** An unconditional jump is the line [goto L<number>]. *)
Definition isJump (s : jsstring) : bool :=
  prefixb (lit "goto L") s &&
  nonempty (skipn 6 s) && forallb isDigit (skipn 6 s).

Definition count (p : jsstring -> bool) (lines : list jsstring) : nat :=
  length (filter p lines).

End TAC.

(** ** Utility *)

Module Utility.

(** The argument of [escapeHtml]: a string, or a value of another type. *)
Inductive Value :=
| Str (s : jsstring)
| NotString.

(** The object [{ '&': '&amp;', '<': '&lt;', ... }] of the callback; the
    keys are the code units of [&], [<], [>], the double quote and the
    single quote. *)
Definition entities : list (jschar * jsstring) :=
  [ (38%N, lit "&amp;"); (60%N, lit "&lt;"); (62%N, lit "&gt;");
    (34%N, lit "&quot;"); (39%N, lit "&#039;") ].

(** The class of the regular expression: the ampersand, the two angle
    brackets and the two quotes. *)
Definition special (c : jschar) : bool := one_of [38; 60; 62; 34; 39]%N c.

(** [{...}[m]], [None] standing for [undefined]. *)
Fixpoint lookupEntity (table : list (jschar * jsstring)) (m : jschar)
    : option jsstring :=
  match table with
  | [] => None
  | (k, e) :: table' => if N.eqb k m then Some e else lookupEntity table' m
  end.

(** The callback [m => ({...}[m])], with the text that [replace] inserts
    for its result. *)
Definition replacement (m : jschar) : jsstring :=
  match lookupEntity entities m with
  | Some e => e
  | None => lit "undefined"
  end.

(** [str.replace(regex, callback)] with the global flag: every match is one
    code unit of the class. *)
Fixpoint replaceSpecial (s : jsstring) : jsstring :=
  match s with
  | [] => []
  | c :: r => (if special c then replacement c else [c]) ++ replaceSpecial r
  end.

Definition escapeHtml (str : Value) : jsstring :=
  match str with
  | NotString => []
  | Str s => replaceSpecial s
  end.

End Utility.

(** ** The parser of parser.js *)

(** The class [Parser] of [parser.js] is that of [main.js] with one more
    branch in [parseStatement], for the statements [i++;] and [i--;].  The
    methods that do not reach [parseStatement] are shared. *)

Module ParserJs.

Import Parser.

Local Open Scope method_scope.

Section Methods.

Variable tokens : list Token.

(** The branch [if (next?.type === 'OPERATOR' && (next.value === '++' ||
    next.value === '--'))]. *)
Definition parseIncrement : P node :=
  id <- currentToken tokens ;;
  advance ;;
  o <- currentToken tokens ;;
  advance ;;
  expect tokens SEPARATOR (Some ";") ;;
  match o, id with
  | Some otk, Some idtk => ret (UnaryOpNode (value otk) (IdentifierNode idtk))
  | _, _ => throw
  end.

Definition parseStatement (fuel : nat) (parseBlock : P node) : P node :=
  t <- currentToken tokens ;;
  match t with
  | None => ret Null
  | Some tk =>
      if typeIs KEYWORD t && valueIs "int" t
      then parseVariableDeclaration tokens fuel
      else if typeIs KEYWORD t && valueIs "if" t
      then parseIfStatement tokens fuel parseBlock
      else if typeIs KEYWORD t && valueIs "for" t
      then parseForLoop tokens fuel parseBlock
      else if typeIs KEYWORD t && valueIs "return" t
      then parseReturnStatement tokens fuel
      else
        nxt <- nextToken tokens ;;
        if (typeIs IDENTIFIER t || valueIs "printf" t) && valueIs "(" nxt
        then parseFunctionCallStatement tokens fuel
        else if (typeIs IDENTIFIER t || valueIs "printf" t) && valueIs "=" nxt
        then parseAssignment tokens fuel false
        else if (typeIs IDENTIFIER t || valueIs "printf" t) &&
                typeIs OPERATOR nxt && (valueIs "++" nxt || valueIs "--" nxt)
        then parseIncrement
        else error tokens (lit "Invalid statement") None ;; ret Null
  end.

Fixpoint parseBlock (fuel depth : nat) : P node :=
  match depth with
  | O => diverge
  | S depth' =>
      expect tokens SEPARATOR (Some "{") ;;
      stmts <- blockLoop tokens (parseStatement fuel (parseBlock fuel depth'))
                 fuel [] ;;
      expect tokens SEPARATOR (Some "}") ;;
      ret (BlockNode stmts)
  end.

Definition parseFunctionDefinition (fuel : nat) : P node :=
  ty <- expect tokens KEYWORD None ;;
  name <- expect tokens IDENTIFIER None ;;
  match ty, name with
  | Some tytk, Some ntk =>
      expect tokens SEPARATOR (Some "(") ;;
      cur <- currentToken tokens ;;
      params <- (if negb (valueIs ")" cur) then parameterLoop tokens fuel []
                 else ret []) ;;
      expect tokens SEPARATOR (Some ")") ;;
      body <- parseBlock fuel fuel ;;
      ret (FunctionDefinitionNode (value tytk) ntk params body)
  | _, _ => ret Null
  end.

Fixpoint parseLoop (fuel loops : nat) (functions : list node)
    : P (list node) :=
  cur <- currentToken tokens ;;
  match cur with
  | None => ret functions
  | Some _ =>
      match loops with
      | O => diverge
      | S loops' =>
          func <- parseFunctionDefinition fuel ;;
          if truthy func then parseLoop fuel loops' (functions ++ [func])
          else
            errs <- getErrors ;;
            if (0 <? length errs)%nat then ret functions
            else parseLoop fuel loops' functions
      end
  end.

End Methods.

Definition parse (tokens : list Token) : Outcome :=
  let fuel := S (length tokens) in
  match parseLoop tokens fuel fuel [] (mkState 0 []) with
  | Ok functions st => Parsed (ProgramNode functions) (errors st)
  | TypeError => Thrown
  | OutOfFuel => Diverged
  end.

End ParserJs.

(** ** The analysis of a source text *)

(** [runAnalysis] of [main.js], without the page: the text of the input is
    the argument, and what is handed to the page is the result. *)

Module Main.

(** The match of [/\/\*[\s\S]*?\*\//] behind the opening: the number of code
    units up to and including the first [*/]. *)
Fixpoint closeAt (s : jsstring) : option nat :=
  match s with
  | [] => None
  | a :: r =>
      match r with
      | b :: _ =>
          if N.eqb a 42 && N.eqb b 47 then Some 2
          else option_map S (closeAt r)
      | [] => None
      end
  end.

(** The length of the block comment at the start of [s], if there is one. *)
Definition matchBlockComment (s : jsstring) : option nat :=
  if prefixb (lit "/*") s
  then option_map (fun n => 2 + n) (closeAt (skipn 2 s))
  else None.

Definition notLineTerminator (c : jschar) : bool := negb (isLineTerminator c).

(** [/\/\/.*$/m]: the two slashes and the rest of the line. *)
Definition matchLineComment (s : jsstring) : option nat :=
  if prefixb (lit "//") s
  then Some (2 + length (takeWhile notLineTerminator (skipn 2 s)))
  else None.

(** [s.replace(regex, '')] for a regular expression with the flag [g] whose
    matches are never empty: the matches are searched from left to right,
    each search starting behind the match before; [skip] is the number of
    code units of the current match that are still to be left out. *)
Fixpoint removeAll (rx : jsstring -> option nat) (skip : nat) (s : jsstring)
    : jsstring :=
  match s with
  | [] => []
  | c :: r =>
      match skip with
      | S k => removeAll rx k r
      | O =>
          match rx s with
          | Some (S n) => removeAll rx n r
          | _ => c :: removeAll rx 0 r
          end
      end
  end.

Definition stripBlockComments : jsstring -> jsstring :=
  removeAll matchBlockComment 0.

Definition stripLineComments : jsstring -> jsstring :=
  removeAll matchLineComment 0.

(** [preprocessedCode] *)
Definition preprocess (input : jsstring) : jsstring :=
  stripLineComments (stripBlockComments input).

(** The call stack of the engine.  The parser, the analyzer and the
    generator call themselves once for each level of nesting of the program,
    and a call that finds the stack exhausted throws a RangeError.  How deep
    the stack is depends on the engine, so it is a parameter: for the tokens
    given to [parse] and the tree given to [analyze] and to [generate] it
    says whether that call exhausts the stack. *)
Record Engine := mkEngine {
  parseOverflows : list Token -> bool;
  analyzeOverflows : node -> bool;
  generateOverflows : node -> bool
}.

(** What the [catch] clause catches, which is whatever the [try] block
    throws: the error the lexer throws for a character that no rule matches,
    the TypeError of a read of a property of [null], and the RangeError of an
    exhausted call stack. *)
Inductive Exception :=
| LexerException (near : jsstring)
| TypeErrorException
| RangeErrorException.

(** What is shown: the three result panels, the error panel with the
    messages of the errors, or the error panel with the critical error. *)
Inductive Screen :=
| Results (tokens : list Token) (tacLines : list jsstring)
    (scopes : list Semantic.SymbolTable)
| ErrorPanel (messages : list jsstring)
| CriticalError (e : Exception).

Definition displayResults (tokens : list Token) (tacLines : list jsstring)
    (scopes : list Semantic.SymbolTable) (errors : list jsstring) : Screen :=
  if (0 <? length errors)%nat then ErrorPanel errors
  else Results tokens tacLines scopes.

(** The body of the [try] statement with its [catch] clause; [None] stands
    for a model that ran out of fuel. *)
Definition runAnalysis (engine : Engine) (input : jsstring) : option Screen :=
  let preprocessedCode := preprocess input in
  match Lexer.tokenize preprocessedCode with
  | Lexer.LexerError near => Some (CriticalError (LexerException near))
  | Lexer.OutOfFuel => None
  | Lexer.Tokens tokens =>
      if parseOverflows engine tokens
      then Some (CriticalError RangeErrorException)
      else
      match Parser.parse tokens with
      | Parser.Thrown => Some (CriticalError TypeErrorException)
      | Parser.Diverged => None
      | Parser.Parsed ast syntaxErrors =>
          let syntaxMessages := map Parser.message syntaxErrors in
          if (length syntaxErrors =? 0)%nat && truthy ast then
            if analyzeOverflows engine ast
            then Some (CriticalError RangeErrorException)
            else
            match Semantic.analyze ast with
            | TypeError => Some (CriticalError TypeErrorException)
            | OutOfFuel => None
            | Ok _ st =>
                let semanticErrors := Semantic.errors st in
                let messages :=
                  syntaxMessages ++ map Semantic.message semanticErrors in
                if (length semanticErrors =? 0)%nat then
                  if generateOverflows engine ast
                  then Some (CriticalError RangeErrorException)
                  else Some (displayResults tokens (TAC.generate ast)
                               (Semantic.scopes st) messages)
                else Some (displayResults tokens [] (Semantic.scopes st)
                             messages)
            end
          else Some (displayResults tokens [] [] (syntaxMessages ++ []))
      end
  end.

End Main.

(** * Specification vocabulary *)

(** The predicates the properties are stated with, and the inputs they are
    tried on. *)

(** ** Lexer *)

(** A match is a non-empty prefix of the string it was found in. *)
Definition prefix_match (s v : jsstring) : Prop :=
  v <> [] /\ s = v ++ skipn (length v) s.

Definition nonWhitespace (c : jschar) : bool := negb (isWhitespace c).

Definition texts (ts : list Token) : jsstring := concat (map value ts).

Definition line_le (a b : Token) : Prop := (line a <= line b)%Z.
Definition col_le (a b : Token) : Prop := (col a <= col b)%Z.

(** Lexicographic order on (line, column). *)
Definition pos_lt (a b : Token) : Prop :=
  (line a < line b \/ (line a = line b /\ col a < col b))%Z.

Definition at_or_after (l c : Z) (t : Token) : Prop :=
  (l < line t \/ (l = line t /\ c <= col t))%Z.

(** ** Parser *)


Definition isTerminator (tk : Token) : bool :=
  str_eqb (value tk) (lit ";") || str_eqb (value tk) (lit "}").

(** [p] is the position of the first [;] or [}] from [from] on, or the end
    of the tokens when there is none. *)
Definition first_terminator (tokens : list Token) (from p : nat) : Prop :=
  from <= p /\
  (forall i, from <= i < p ->
     exists tk, nth_error tokens i = Some tk /\ isTerminator tk = false) /\
  (forall tk, nth_error tokens p = Some tk -> isTerminator tk = true).

(** What [recover] does to the parser: the errors stay, and the position
    moves to the first terminator, and past it when it is [;]. *)
Definition recovered (tokens : list Token) (st st' : Parser.State) : Prop :=
  exists p,
    first_terminator tokens (Parser.pos st) p /\
    Parser.errors st' = Parser.errors st /\
    Parser.pos st' =
      if Parser.valueIs ";" (nth_error tokens p) then S p else p.

Definition sep (s : string) (c : Z) : Token := mkToken SEPARATOR (lit s) 1 c.
Definition kw (s : string) (c : Z) : Token := mkToken KEYWORD (lit s) 1 c.
Definition ident (s : string) (c : Z) : Token := mkToken IDENTIFIER (lit s) 1 c.




Definition op (s : string) (c : Z) : Token := mkToken OPERATOR (lit s) 1 c.
Definition int_lit (s : string) (c : Z) : Token := mkToken INT_LIT (lit s) 1 c.

Definition printf_assignment : list Token :=
  [kw "int" 1; ident "main" 5; sep "(" 9; sep ")" 10; sep "{" 12;
   kw "printf" 14; op "=" 21; int_lit "1" 23; sep ";" 24; sep "}" 26].

Definition empty_increment : list Token :=
  [kw "int" 1; ident "main" 5; sep "(" 9; sep ")" 10; sep "{" 12;
   kw "for" 14; sep "(" 18; kw "int" 19; ident "i" 23; op "=" 25;
   int_lit "0" 27; sep ";" 28; ident "i" 30; op "<" 32; int_lit "2" 34;
   sep ";" 35; sep ")" 37; sep "{" 39; sep "}" 41; sep "}" 43].

(** [runs p st Q]: the method [p], called in the state [st], does not run
    out of fuel, and when it returns, [Q] holds of the result and the new
    state. *)
Definition runs {T} (p : Parser.P T) (st : Parser.State)
    (Q : T -> Parser.State -> Prop) : Prop :=
  match p st with
  | Ok a st' => Q a st'
  | TypeError => True
  | OutOfFuel => False
  end.

(** The position has not gone back, and is within the tokens. *)
Definition steps (tokens : list Token) (st : Parser.State) {T} (_ : T)
    (st' : Parser.State) : Prop :=
  Parser.pos st <= Parser.pos st' <= length tokens.

(** The same, and a token has been consumed if there was one. *)
Definition consumes (tokens : list Token) (st : Parser.State) {T} (_ : T)
    (st' : Parser.State) : Prop :=
  Parser.pos st <= Parser.pos st' <= length tokens /\
  (Parser.pos st < length tokens -> Parser.pos st < Parser.pos st').

Definition remaining (tokens : list Token) (st : Parser.State) : nat :=
  length tokens - Parser.pos st.

(** A sub-parser is fine below a depth [d]: it runs in every state with
    fewer than [d] tokens left. *)
Definition fineBelow (tokens : list Token) (d : nat) (p : Parser.P node)
    : Prop :=
  forall st, Parser.pos st <= length tokens -> remaining tokens st < d ->
    runs p st (steps tokens st).

(** ** TAC generator *)

(** Every visit only appends to the code. *)
Definition appends (st st' : TAC.State) : Prop :=
  exists lines, TAC.code st' = TAC.code st ++ lines.

Definition label (k : nat) : jsstring := lit "L" ++ showNat k.

(** The conditional branch, as [emit] writes it. *)
Definition branch (conditionTemp : TAC.JSVal) (target : jsstring) : jsstring :=
  TAC.instruction (lit "if_false") (TAC.orNull conditionTemp)
    (TAC.VStr (lit "goto " ++ target)) TAC.VNull.

(** The state in which the true branch is visited: the condition has been
    lowered, both labels are allocated and the conditional branch is
    emitted. *)
Definition beforeIfBody (condition : node) (st : TAC.State) : TAC.State :=
  let '(conditionTemp, st1) := TAC.visit condition st in
  let '(elseLabel, st2) := TAC.newLabel st1 in
  let '(endLabel, st3) := TAC.newLabel st2 in
  TAC.emit (lit "if_false") conditionTemp
    (TAC.VStr (lit "goto " ++ elseLabel)) TAC.VNull st3.

(** The number of the else label; the end label is the next one. *)
Definition elseLabelOf (condition : node) (st : TAC.State) : nat :=
  TAC.labelCounter (snd (TAC.visit condition st)).

(** The state in which the else branch is visited. *)
Definition beforeElseBody (condition ifBody : node) (st : TAC.State)
    : TAC.State :=
  let k := elseLabelOf condition st in
  TAC.emit (label k) TAC.VNull TAC.VNull TAC.VNull
    (TAC.emit (lit "goto") (TAC.VStr (label (S k))) TAC.VNull TAC.VNull
       (snd (TAC.visit ifBody (beforeIfBody condition st)))).

Definition nested_if : node :=
  IfStatementNode (IdentifierNode (ident "a" 1))
    (BlockNode
       [IfStatementNode (IdentifierNode (ident "b" 2)) (BlockNode []) Null])
    Null.

(** ** Semantic analyzer *)

Section SemanticVocabulary.

Import Semantic.

(** The parent of a table was created before it; only the first table has
    none. *)
Definition parents_before (ts : list SymbolTable) : Prop :=
  forall i t, nth_error ts i = Some t ->
    match parent t with
    | None => i = 0
    | Some p => p < i
    end.

Definition well_formed (st : State) : Prop :=
  parents_before (scopes st) /\
  (exists g, nth_error (scopes st) 0 = Some g /\ parent g = None) /\
  exists c, currentScope st = Some c /\ c < length (scopes st).

(** [st'] comes after [st]: the tables of [st] are still there with their
    names, parents and symbols, and the errors of [st] are still recorded. *)
Definition later (st st' : State) : Prop :=
  (forall i t, nth_error (scopes st) i = Some t ->
     exists t', nth_error (scopes st') i = Some t' /\
       name t' = name t /\ parent t' = parent t /\
       forall x s, own (symbols t) x = Some s -> own (symbols t') x = Some s) /\
  exists new, errors st' = errors st ++ new.

(** [reaches ts i j]: the table [j] is the table [i] or one of its
    ancestors. *)
Inductive reaches (ts : list SymbolTable) : nat -> nat -> Prop :=
| reaches_self i t : nth_error ts i = Some t -> reaches ts i i
| reaches_parent i t p j :
    nth_error ts i = Some t -> parent t = Some p -> reaches ts p j ->
    reaches ts i j.

(** A method that returns with the cursor where it was, in a well-formed
    state that comes after the one it started in. *)
Definition balanced (m : A unit) : Prop :=
  forall st, well_formed st ->
  exists st', m st = Ok tt st' /\ well_formed st' /\
    currentScope st' = currentScope st /\ later st st'.

(** The methods run inside a scope, and the [exitScope] that follows. *)
Fixpoint inScope (ms : list (A unit)) : A unit :=
  match ms with
  | [] => exitScope
  | m :: ms' => bind m (fun _ => inScope ms')
  end.

Definition alreadyDefined (fname : Token) : SemanticError :=
  mkError (lit "Semantic Error: " ++ lit "Function " ++ quoted (value fname) ++
           lit " already defined.")
          (Some (tokenLine fname)).

Definition alreadyDeclared (v : Token) : SemanticError :=
  mkError (lit "Semantic Error: " ++ lit "Variable " ++ quoted (value v) ++
           lit " already declared.")
          (Some (tokenLine v)).

Definition errorsOf (r : Res State unit) : option (list SemanticError) :=
  match r with
  | Ok _ st => Some (errors st)
  | _ => None
  end.

(** The tokens and the tree of [int main() { int toString; }]. *)
Definition declares_toString : list Token :=
  [kw "int" 1; ident "main" 5; sep "(" 9; sep ")" 10; sep "{" 12;
   kw "int" 14; ident "toString" 18; sep ";" 26; sep "}" 28].

Definition declares_toString_ast : node :=
  ProgramNode
    [FunctionDefinitionNode (lit "int") (ident "main" 5) []
       (BlockNode
          [VariableDeclarationNode (lit "int") (ident "toString" 18) Null])].

Definition undeclared (t : Token) : SemanticError :=
  mkError (lit "Semantic Error: " ++ lit "Undeclared variable " ++
           quoted (value t) ++ lit ".")
          (Some (tokenLine t)).







Definition scopesOf (r : Res State unit) : option (list SymbolTable) :=
  match r with
  | Ok _ st => Some (scopes st)
  | _ => None
  end.

End SemanticVocabulary.

(** The tokens and the tree of [int toString(int valueOf) { }]. *)
Definition defines_toString : list Token :=
  [kw "int" 1; ident "toString" 5; sep "(" 13; kw "int" 14;
   ident "valueOf" 18; sep ")" 25; sep "{" 27; sep "}" 29].

Definition defines_toString_ast : node :=
  ProgramNode
    [FunctionDefinitionNode (lit "int") (ident "toString" 5)
       [mkParam (lit "int") (ident "valueOf" 18)] (BlockNode [])].

(** ** Lexer: words, strings and columns *)

(** The code units that may stand inside a string literal. *)
Definition notQuote (c : jschar) : bool := negb (N.eqb c 34).

Definition isKeyword (w : jsstring) : bool := existsb (str_eqb w) Lexer.keywords.

(** The word that starts with [c]: [c] and the word characters after it. *)
Definition wordAt (c : jschar) (r : jsstring) : jsstring :=
  c :: takeWhile isWordChar r.

(** [code.substr(start, len)] *)
Definition substr (code : jsstring) (start len : nat) : jsstring :=
  firstn len (skipn start code).

(** The column of a token is the 1-based index of its text in [code]. *)
Definition textAtColumn (code : jsstring) (t : Token) : Prop :=
  (1 <= col t)%Z /\
  substr code (Z.to_nat (col t - 1)) (length (value t)) = value t.

(** A token is the first match of the rules at a code unit that is not white
    space. *)
Definition matched (t : Token) : Prop :=
  exists c r, isWhitespace c = false /\
    Lexer.firstMatch Lexer.tokenSpecs (c :: r) = Some (type t, value t).

(** The characters that are an operator of their own or a separator. *)
Definition punctuation : jsstring := lit "+-*/=<>!(){};,".

(** Where only the catch-all rule matches: at a code unit that is no digit,
    begins no word and is no operator or separator of its own, unless it is
    a double quote with another double quote somewhere behind it, or the
    first of two ampersands or of two vertical bars. *)
Definition catchAllAt (c : jschar) (r : jsstring) : bool :=
  negb (isDigit c) && negb (isIdentStart c) && negb (one_of punctuation c) &&
  negb (N.eqb c 34 && negb (forallb notQuote r)) &&
  negb (prefixb (lit "&&") (c :: r)) && negb (prefixb (lit "||") (c :: r)).

(** ** TAC generator: loops, calls and labels *)

(** The state in which the initialisation of a for loop is visited: both
    labels are allocated. *)
Definition beforeForInit (st : TAC.State) : TAC.State :=
  snd (TAC.newLabel (snd (TAC.newLabel st))).

(** The state in which the condition is visited: the start label is
    declared. *)
Definition beforeForCondition (init : node) (st : TAC.State) : TAC.State :=
  TAC.emit (label (TAC.labelCounter st)) TAC.VNull TAC.VNull TAC.VNull
    (snd (TAC.visit init (beforeForInit st))).

(** The state in which the body is visited: the conditional branch is
    emitted. *)
Definition beforeForBody (init condition : node) (st : TAC.State)
    : TAC.State :=
  let '(conditionTemp, st5) := TAC.visit condition (beforeForCondition init st) in
  TAC.emit (lit "if_false") conditionTemp
    (TAC.VStr (lit "goto " ++ label (S (TAC.labelCounter st)))) TAC.VNull st5.

(** The state in which the increment is visited. *)
Definition beforeForIncrement (init condition body : node) (st : TAC.State)
    : TAC.State :=
  snd (TAC.visit body (beforeForBody init condition st)).

(** The line [param v]. *)
Definition paramLine (v : TAC.JSVal) : jsstring :=
  TAC.instruction (lit "param") (TAC.orNull v) TAC.VNull TAC.VNull.

(** The instructions the arguments of a call emit, and their values. *)
Definition argumentCode (args : list node) (st : TAC.State) : list jsstring :=
  skipn (length (TAC.code st)) (TAC.code (snd (TAC.mapNode TAC.visit args st))).

Definition argumentValues (args : list node) (st : TAC.State)
    : list TAC.JSVal :=
  fst (TAC.mapNode TAC.visit args st).

(** The operators the parser puts into a [BinaryOpNode]. *)
Definition binaryOperators : list jsstring :=
  map lit ["*"; "/"; "+"; "-"; "<"; ">"; "=="; "!="; "<="; ">="; "&&"; "||"]%string.

(** Every [BinaryOpNode] of the tree holds one of these operators. *)
Fixpoint operatorsKnown (n : node) : bool :=
  match n with
  | Null => true
  | ProgramNode children => forallb operatorsKnown children
  | FunctionDefinitionNode _ _ _ body => operatorsKnown body
  | BlockNode statements => forallb operatorsKnown statements
  | VariableDeclarationNode _ _ init => operatorsKnown init
  | AssignmentNode _ rhs => operatorsKnown rhs
  | BinaryOpNode lhs o rhs =>
      existsb (str_eqb o) binaryOperators &&
      operatorsKnown lhs && operatorsKnown rhs
  | NumberNode _ | IdentifierNode _ | StringLiteralNode _ => true
  | FunctionCallNode _ args => forallb operatorsKnown args
  | IfStatementNode c a b =>
      operatorsKnown c && operatorsKnown a && operatorsKnown b
  | ForLoopNode i c u b =>
      operatorsKnown i && operatorsKnown c && operatorsKnown u &&
      operatorsKnown b
  | ReturnStatementNode v => operatorsKnown v
  | UnaryOpNode _ arg => operatorsKnown arg
  end.

(** How often the label [k] is declared in [lines]. *)
Definition declarations (k : nat) (lines : list jsstring) : nat :=
  TAC.count (str_eqb (label k ++ lit ":")) lines.

(** 1 for the labels [a], ..., [b - 1], and 0 for the others. *)
Definition allocated (a b k : nat) : nat :=
  if Nat.leb a k && Nat.ltb k b then 1 else 0.

(** [lines] declares each of the labels [a], ..., [b - 1] exactly once and
    no other label, and every unconditional jump in it goes to one of them. *)
Definition wellLabelled (a b : nat) (lines : list jsstring) : Prop :=
  a <= b /\
  (forall k, declarations k lines = allocated a b k) /\
  (forall line, In line lines -> TAC.isLabelDeclaration line = true ->
     exists k, line = label k ++ lit ":") /\
  (forall line, In line lines -> TAC.isJump line = true ->
     exists k, a <= k < b /\ line = lit "goto " ++ label k).

(** A line that is neither a label declaration nor an unconditional jump,
    and an operation whose lines are such. *)
Definition plainLine (x : jsstring) : Prop :=
  TAC.isLabelDeclaration x = false /\ TAC.isJump x = false.

Definition quiet (op : jsstring) : Prop :=
  (forall y, TAC.isJump (op ++ lit " " ++ y) = false) /\
  TAC.isLabelDeclaration (op ++ lit ":") = false.

(** The visit of [n] declares the labels it allocates, each once. *)
Definition labelled (n : node) : Prop :=
  forall st,
    wellLabelled (TAC.labelCounter st)
      (TAC.labelCounter (snd (TAC.visit n st))) (TAC.emitted n st).

(** The tree of [for (int i = 0; i < n; i = i + 1) { if (i) { } }]. *)
Definition loop_with_if : node :=
  ForLoopNode
    (VariableDeclarationNode (lit "int") (ident "i" 1) (NumberNode (int_lit "0" 2)))
    (BinaryOpNode (IdentifierNode (ident "i" 3)) (lit "<")
       (IdentifierNode (ident "n" 4)))
    (AssignmentNode (ident "i" 5)
       (BinaryOpNode (IdentifierNode (ident "i" 6)) (lit "+")
          (NumberNode (int_lit "1" 7))))
    (BlockNode [IfStatementNode (IdentifierNode (ident "i" 8)) (BlockNode []) Null]).

(** ** Parser: what is consumed and what is built *)

(** The values a token may have when its type is not checked before it is
    consumed. *)
Definition uncheckedValues : list jsstring :=
  map lit ["&&"; "||"; ","; "("; "="; "else"]%string.

(** A token the parser can consume without recording an error. *)
Definition acceptable (t : Token) : Prop :=
  type t <> MISMATCH \/ In (value t) uncheckedValues.

Definition hasMismatch (ts : list Token) : Prop :=
  exists t, In t ts /\ type t = MISMATCH.

(** [holds p st Q]: when the method [p], called in the state [st], returns,
    [Q] holds of the result and the new state. *)
Definition holds {T} (p : Parser.P T) (st : Parser.State)
    (Q : T -> Parser.State -> Prop) : Prop :=
  forall a st', p st = Ok a st' -> Q a st'.

(** Between [st0] and [st] the parser has not gone back, and when [st]
    records no error, [st0] recorded none and every token in between is one
    the parser can consume without an error. *)
Definition consumed (tokens : list Token) (st0 st : Parser.State) : Prop :=
  Parser.pos st0 <= Parser.pos st /\
  (Parser.errors st = [] ->
   Parser.errors st0 = [] /\
   forall i t, Parser.pos st0 <= i < Parser.pos st ->
     nth_error tokens i = Some t -> acceptable t).

(** A method that keeps [consumed] and returns results with [G]. *)
Definition sound (tokens : list Token) {T} (G : T -> Prop) (p : Parser.P T)
    : Prop :=
  forall st0 st, consumed tokens st0 st ->
    holds p st (fun a st' => consumed tokens st0 st' /\ G a).

Definition known (n : node) : Prop := operatorsKnown n = true.

Definition allKnown (ns : list node) : Prop := forallb operatorsKnown ns = true.

Definition anything {T} (_ : T) : Prop := True.

(** The operators of a level of binary operators are acceptable tokens and
    known operators. *)
Definition levelOperator (isOp : option Token -> bool) : Prop :=
  forall t, isOp (Some t) = true ->
    acceptable t /\ existsb (str_eqb (value t)) binaryOperators = true.

(** The tokens hold no [++] and no [--]. *)
Definition noIncrement (tokens : list Token) : Prop :=
  Forall (fun t => value t <> lit "++" /\ value t <> lit "--") tokens.

(** Two methods that behave alike in every state. *)
Definition alike {T} (p q : Parser.P T) : Prop := forall st, p st = q st.

(** ** Parser: the grammar of expressions *)

(** The operators of the binary levels, from the tightest: 1 for
    [parseFactor], 2 for [parseTerm], 3 for [parseComparison], 4 for
    [parseLogicalAnd] and 5 for [parseLogicalOr]; level 0 is
    [parsePrimary]. *)
Definition levelOp (k : nat) : option Token -> bool :=
  match k with
  | 1 => Parser.operatorIn ["*"; "/"]%string
  | 2 => Parser.operatorIn ["+"; "-"]%string
  | 3 => Parser.operatorIn ["<"; ">"; "=="; "!="; "<="; ">="]%string
  | 4 => Parser.valueIs "&&"
  | 5 => Parser.valueIs "||"
  | _ => fun _ => false
  end.

(** The method of a level, for the [parseExpression] of a depth. *)
Fixpoint levelParser (tokens : list Token) (fuel depth k : nat)
    : Parser.P node :=
  match k with
  | O => Parser.parsePrimary tokens (Parser.parseExpression tokens fuel depth)
           fuel
  | S j =>
      bind (levelParser tokens fuel depth j)
        (fun n => Parser.binaryLoop tokens (levelOp k)
                    (levelParser tokens fuel depth j) fuel n)
  end.

(** [written k e ts]: the tokens [ts] are the expression [e], written as an
    operand of level [k]: a chain of the operators of level [k] is nested to
    the left, its operands are of the level below, and a primary is a
    literal, an identifier, a call or an expression in parentheses.
    [writtenArgs args ts]: the tokens [ts] are the arguments [args], with
    commas in between. *)
Inductive written : nat -> node -> list Token -> Prop :=
| written_number tk :
    type tk = INT_LIT \/ type tk = FLOAT_LIT ->
    written 0 (NumberNode tk) [tk]
| written_string tk :
    type tk = STRING_LIT ->
    written 0 (StringLiteralNode tk) [tk]
| written_identifier tk :
    type tk = IDENTIFIER ->
    written 0 (IdentifierNode tk) [tk]
| written_parentheses lp e ts rp :
    type lp = SEPARATOR -> value lp = lit "(" ->
    written 5 e ts ->
    type rp = SEPARATOR -> value rp = lit ")" ->
    written 0 e (lp :: ts ++ [rp])
| written_call name lp args ts rp :
    type name = IDENTIFIER ->
    type lp = SEPARATOR -> value lp = lit "(" ->
    writtenArgs args ts ->
    type rp = SEPARATOR -> value rp = lit ")" ->
    written 0 (FunctionCallNode name args) (name :: lp :: ts ++ [rp])
| written_level k e ts :
    written k e ts -> written (S k) e ts
| written_binary k l o r tl tr :
    written (S k) l tl ->
    levelOp (S k) (Some o) = true ->
    written k r tr ->
    written (S k) (BinaryOpNode l (value o) r) (tl ++ o :: tr)
with writtenArgs : list node -> list Token -> Prop :=
| no_arguments : writtenArgs [] []
| first_argument e ts :
    written 5 e ts ->
    Parser.valueIs ")" (hd_error ts) = false ->
    writtenArgs [e] ts
| next_argument args ts c e te :
    writtenArgs args ts -> args <> [] ->
    value c = lit "," ->
    written 5 e te ->
    writtenArgs (args ++ [e]) (ts ++ c :: te).

Scheme written_mutual := Minimality for written Sort Prop
  with writtenArgs_mutual := Minimality for writtenArgs Sort Prop.

(** A token after which an expression ends: no binary operator and no
    opening parenthesis; the end of the tokens is one, too. *)
Definition stops (t : option Token) : bool :=
  negb (Parser.valueIs "(" t) &&
  forallb (fun k => negb (levelOp k t)) [1; 2; 3; 4; 5].

(** No operator of a level below [k]. *)
Definition below (k : nat) (t : option Token) : Prop :=
  Parser.valueIs "(" t = false /\ forall j, j < k -> levelOp j t = false.

(** The state [n] tokens later. *)
Definition after (st : Parser.State) (n : nat) : Parser.State :=
  Parser.mkState (Parser.pos st + n) (Parser.errors st).

(** [leads p st X]: the method [p], called in the state [st], ends as [X]
    unless the model runs out of fuel. *)
Definition leads {T} (p : Parser.P T) (st : Parser.State)
    (X : Res Parser.State T) : Prop :=
  p st <> OutOfFuel -> p st = X.

(** What the method of level [k] does with the tokens of an expression of
    that level: it returns the tree, or goes on in the loop of its level
    with the tree as the left operand. *)
Definition parsedAt (tokens : list Token) (k : nat) (e : node)
    (ts : list Token) : Prop :=
  forall fuel depth st rest,
    skipn (Parser.pos st) tokens = ts ++ rest ->
    below k (hd_error rest) ->
    levelParser tokens fuel depth k st <> OutOfFuel ->
    match k with
    | O => levelParser tokens fuel depth 0 st = Ok e (after st (length ts))
    | S j =>
        exists fuel',
          levelParser tokens fuel depth (S j) st =
          Parser.binaryLoop tokens (levelOp (S j))
            (levelParser tokens fuel depth j) fuel' e
            (after st (length ts))
    end.

Definition parsedArgs (tokens : list Token) (args : list node)
    (ts : list Token) : Prop :=
  forall fuel depth st rest,
    skipn (Parser.pos st) tokens = ts ++ rest ->
    below 6 (hd_error rest) ->
    Parser.parseArguments tokens (Parser.parseExpression tokens fuel depth)
      fuel st <> OutOfFuel ->
    match args with
    | [] =>
        Parser.valueIs ")" (hd_error rest) = true ->
        Parser.parseArguments tokens
          (Parser.parseExpression tokens fuel depth) fuel st =
        Ok [] (after st (length ts))
    | _ :: _ =>
        exists fuel',
          Parser.parseArguments tokens
            (Parser.parseExpression tokens fuel depth) fuel st =
          Parser.argumentLoop tokens
            (Parser.parseExpression tokens fuel depth) fuel' args
            (after st (length ts))
    end.

(** ** Parser: the grammar of statements and functions *)

Definition tokenIs (ty : TokenType) (v : string) (t : Token) : Prop :=
  type t = ty /\ value t = lit v.

(** A name a statement may begin with. *)
Definition plainName (t : Token) : Prop :=
  Parser.valueIs "}" (Some t) = false /\
  Parser.valueIs "else" (Some t) = false.

(** [type name;] and [type name = e;] *)
Inductive writtenDeclaration : node -> list Token -> Prop :=
| declaration_plain kw name semi :
    type kw = KEYWORD -> type name = IDENTIFIER ->
    tokenIs SEPARATOR ";" semi ->
    writtenDeclaration (VariableDeclarationNode (value kw) name Null)
      [kw; name; semi]
| declaration_init kw name eq e ts semi :
    type kw = KEYWORD -> type name = IDENTIFIER ->
    value eq = lit "=" ->
    written 5 e ts ->
    tokenIs SEPARATOR ";" semi ->
    writtenDeclaration (VariableDeclarationNode (value kw) name e)
      (kw :: name :: eq :: ts ++ [semi]).

(** [name = e], without the semicolon. *)
Inductive writtenAssignment : node -> list Token -> Prop :=
| assignment_intro name eq e ts :
    type name = IDENTIFIER ->
    tokenIs OPERATOR "=" eq ->
    written 5 e ts ->
    writtenAssignment (AssignmentNode name e) (name :: eq :: ts).

(** The statements, the blocks and the statements of a block. *)
Inductive writtenStatement : node -> list Token -> Prop :=
| statement_declaration d kw ts :
    writtenDeclaration d (kw :: ts) ->
    value kw = lit "int" ->
    writtenStatement d (kw :: ts)
| statement_assignment a name ts semi :
    writtenAssignment a (name :: ts) ->
    plainName name ->
    tokenIs SEPARATOR ";" semi ->
    writtenStatement a (name :: ts ++ [semi])
| statement_call name lp args ts rp semi :
    type name = IDENTIFIER \/ tokenIs KEYWORD "printf" name ->
    plainName name ->
    tokenIs SEPARATOR "(" lp ->
    writtenArgs args ts ->
    tokenIs SEPARATOR ")" rp ->
    tokenIs SEPARATOR ";" semi ->
    writtenStatement (FunctionCallNode name args)
      (name :: lp :: ts ++ [rp; semi])
| statement_return kw semi :
    tokenIs KEYWORD "return" kw ->
    tokenIs SEPARATOR ";" semi ->
    writtenStatement (ReturnStatementNode Null) [kw; semi]
| statement_return_value kw e ts semi :
    tokenIs KEYWORD "return" kw ->
    written 5 e ts ->
    Parser.valueIs ";" (hd_error ts) = false ->
    tokenIs SEPARATOR ";" semi ->
    writtenStatement (ReturnStatementNode e) (kw :: ts ++ [semi])
| statement_if kw lp c tc rp b tb :
    tokenIs KEYWORD "if" kw ->
    tokenIs SEPARATOR "(" lp ->
    written 5 c tc ->
    tokenIs SEPARATOR ")" rp ->
    writtenBlock b tb ->
    writtenStatement (IfStatementNode c b Null) (kw :: lp :: tc ++ rp :: tb)
| statement_if_else kw lp c tc rp b tb el b' tb' :
    tokenIs KEYWORD "if" kw ->
    tokenIs SEPARATOR "(" lp ->
    written 5 c tc ->
    tokenIs SEPARATOR ")" rp ->
    writtenBlock b tb ->
    value el = lit "else" ->
    writtenBlock b' tb' ->
    writtenStatement (IfStatementNode c b b')
      (kw :: lp :: tc ++ rp :: tb ++ el :: tb')
| statement_for kw lp d td c tc semi a ta rp b tb :
    tokenIs KEYWORD "for" kw ->
    tokenIs SEPARATOR "(" lp ->
    writtenDeclaration d td ->
    written 5 c tc ->
    tokenIs SEPARATOR ";" semi ->
    writtenAssignment a ta ->
    tokenIs SEPARATOR ")" rp ->
    writtenBlock b tb ->
    writtenStatement (ForLoopNode d c a b)
      (kw :: lp :: td ++ tc ++ semi :: ta ++ rp :: tb)
with writtenBlock : node -> list Token -> Prop :=
| block_intro lb ss ts rb :
    tokenIs SEPARATOR "{" lb ->
    writtenStatements ss ts ->
    tokenIs SEPARATOR "}" rb ->
    writtenBlock (BlockNode ss) (lb :: ts ++ [rb])
with writtenStatements : list node -> list Token -> Prop :=
| statements_nil : writtenStatements [] []
| statements_cons s t ss ts :
    writtenStatement s t ->
    writtenStatements ss ts ->
    writtenStatements (s :: ss) (t ++ ts).

Scheme writtenStatement_mutual := Minimality for writtenStatement Sort Prop
  with writtenBlock_mutual := Minimality for writtenBlock Sort Prop
  with writtenStatements_mutual := Minimality for writtenStatements Sort Prop.

(** [type name, type name, ...] *)
Inductive writtenParameters : list Param -> list Token -> Prop :=
| parameters_one kw name :
    type kw = KEYWORD -> type name = IDENTIFIER ->
    writtenParameters [mkParam (value kw) name] [kw; name]
| parameters_cons kw name c ps ts :
    type kw = KEYWORD -> type name = IDENTIFIER ->
    value c = lit "," ->
    writtenParameters ps ts ->
    writtenParameters (mkParam (value kw) name :: ps) (kw :: name :: c :: ts).

(** [type name(parameters) block] *)
Inductive writtenFunction : node -> list Token -> Prop :=
| function_plain kw name lp rp b tb :
    type kw = KEYWORD -> type name = IDENTIFIER ->
    tokenIs SEPARATOR "(" lp ->
    tokenIs SEPARATOR ")" rp ->
    writtenBlock b tb ->
    writtenFunction (FunctionDefinitionNode (value kw) name [] b)
      (kw :: name :: lp :: rp :: tb)
| function_parameters kw name lp ps tp rp b tb :
    type kw = KEYWORD -> type name = IDENTIFIER ->
    tokenIs SEPARATOR "(" lp ->
    writtenParameters ps tp ->
    Parser.valueIs ")" (hd_error tp) = false ->
    tokenIs SEPARATOR ")" rp ->
    writtenBlock b tb ->
    writtenFunction (FunctionDefinitionNode (value kw) name ps b)
      (kw :: name :: lp :: tp ++ rp :: tb).

Inductive writtenProgram : list node -> list Token -> Prop :=
| program_nil : writtenProgram [] []
| program_cons f t fs ts :
    writtenFunction f t ->
    writtenProgram fs ts ->
    writtenProgram (f :: fs) (t ++ ts).

(** What [parseStatement], [parseBlock] and the loop of [parseBlock] do with
    the tokens of a statement, a block and the statements of a block. *)
Definition parsedStatement (tokens : list Token) (s : node)
    (ts : list Token) : Prop :=
  forall fuel depth st rest,
    skipn (Parser.pos st) tokens = ts ++ rest ->
    Parser.valueIs "else" (hd_error rest) = false ->
    leads (Parser.parseStatement tokens fuel
             (Parser.parseBlock tokens fuel depth)) st
      (Ok s (after st (length ts))).

Definition parsedBlock (tokens : list Token) (b : node)
    (ts : list Token) : Prop :=
  forall fuel depth st rest,
    skipn (Parser.pos st) tokens = ts ++ rest ->
    leads (Parser.parseBlock tokens fuel depth) st
      (Ok b (after st (length ts))).

Definition parsedStatements (tokens : list Token) (ss : list node)
    (ts : list Token) : Prop :=
  forall fuel depth loops acc st rb rest,
    skipn (Parser.pos st) tokens = ts ++ rb :: rest ->
    value rb = lit "}" ->
    leads (Parser.blockLoop tokens
             (Parser.parseStatement tokens fuel
                (Parser.parseBlock tokens fuel depth)) loops acc) st
      (Ok (acc ++ ss) (after st (length ts))).

(** ** Semantic analyzer: calls and tables *)

Section CallsAndTables.

Import Semantic.

Definition notDefined (f : Token) : SemanticError :=
  mkError (lit "Semantic Error: " ++ lit "Function " ++ quoted (value f) ++
           lit " not defined.")
          (Some (tokenLine f)).

Definition notAFunction (f : Token) : SemanticError :=
  mkError (lit "Semantic Error: " ++ quoted (value f) ++
           lit " is not a function.")
          (Some (tokenLine f)).

(** The errors of a call of [f], given what [lookup] finds for its name. *)
Definition callErrors (found : option Property) (f : Token)
    : list SemanticError :=
  match found with
  | None => [notDefined f; undeclared f]
  | Some (Own s) =>
      if str_eqb (symType s) (lit "function") then [] else [notAFunction f]
  | Some Inherited => [notAFunction f]
  end.

Definition withErrors (st : State) (new : list SemanticError) : State :=
  mkState (scopes st) (currentScope st) (errors st ++ new).

(** The names of the tables a visit creates, in the order of creation. *)
Fixpoint scopeNames (n : node) : list jsstring :=
  match n with
  | Null => []
  | ProgramNode children => flat_map scopeNames children
  | FunctionDefinitionNode _ fname _ body => value fname :: scopeNames body
  | BlockNode statements => lit "block" :: flat_map scopeNames statements
  | VariableDeclarationNode _ _ init => scopeNames init
  | AssignmentNode _ rhs => scopeNames rhs
  | BinaryOpNode lhs _ rhs => scopeNames lhs ++ scopeNames rhs
  | NumberNode _ | IdentifierNode _ | StringLiteralNode _ => []
  | FunctionCallNode _ args => flat_map scopeNames args
  | IfStatementNode c a b => scopeNames c ++ scopeNames a ++ scopeNames b
  | ForLoopNode i c u b =>
      lit "for-loop" ::
      scopeNames i ++ scopeNames c ++ scopeNames u ++ scopeNames b
  | ReturnStatementNode v => scopeNames v
  | UnaryOpNode _ arg => scopeNames arg
  end.

Definition tableNames (st : State) : list jsstring := map name (scopes st).

(** The tree of [int f(int n) { for (...) { } }] without the details of the
    loop. *)
Definition function_with_loop : node :=
  ProgramNode
    [FunctionDefinitionNode (lit "int") (ident "f" 5)
       [mkParam (lit "int") (ident "n" 11)]
       (BlockNode [ForLoopNode Null Null Null (BlockNode [])])].

(** The symbol of the built-in function. *)
Definition printfSymbol : Symbol := mkSymbol (lit "function") [].

End CallsAndTables.

(** ** Utility *)

(** The five entities [escapeHtml] writes. *)
Definition entityTexts : list jsstring := map snd Utility.entities.

(** The markup characters other than the ampersand: [<], [>] and the two
    quotes. *)
Definition markup (c : jschar) : bool := one_of [60; 62; 34; 39]%N c.

(** Every ampersand of [s] begins one of the five entities. *)
Definition ampersandsBeginEntities (s : jsstring) : Prop :=
  forall pre post, s = pre ++ 38%N :: post ->
    exists e, In e entityTexts /\ prefixb e (38%N :: post) = true.

Definition plain (s : jsstring) : bool :=
  forallb (fun c => negb (Utility.special c)) s.

(** ** The analysis of a source text *)

(** [s.includes(p)] *)
Fixpoint occurs (p s : jsstring) : bool :=
  prefixb p s ||
  match s with
  | [] => false
  | _ :: r => occurs p r
  end.

Definition lineTerminators (s : jsstring) : jsstring :=
  filter isLineTerminator s.

(** The tokens of a source text. *)
Definition tokensOf (code : jsstring) : list Token :=
  match Lexer.tokenize code with
  | Lexer.Tokens ts => ts
  | _ => []
  end.


(** One of the calls of the analysis of the tokens [ts] exhausts the stack:
    [parse], or [analyze] on the tree of a parse without syntax error, or
    [generate] on a tree without semantic error. *)
Definition stackExhausted (engine : Main.Engine) (ts : list Token) : Prop :=
  Main.parseOverflows engine ts = true \/
  exists ast,
    Parser.parse ts = Parser.Parsed ast [] /\
    (Main.analyzeOverflows engine ast = true \/
     (exists st, Semantic.analyze ast = Ok tt st /\ Semantic.errors st = []) /\
     Main.generateOverflows engine ast = true).

(** * Properties *)


(** ** Strings *)

Lemma takeWhile_dropWhile (p : jschar -> bool) (s : jsstring) :
  takeWhile p s ++ dropWhile p s = s.
Proof.
  induction s as [|c s IH]; simpl; [reflexivity|].
  destruct (p c); simpl; [now rewrite IH | reflexivity].
Qed.

Lemma skipn_takeWhile (p : jschar -> bool) (s : jsstring) :
  skipn (length (takeWhile p s)) s = dropWhile p s.
Proof.
  induction s as [|c s IH]; simpl; [reflexivity|].
  destruct (p c); simpl; [exact IH | reflexivity].
Qed.

Lemma dropWhile_head (p : jschar -> bool) (s : jsstring) c r :
  dropWhile p s = c :: r -> p c = false.
Proof.
  induction s as [|d s IH]; simpl; [discriminate|].
  destruct (p d) eqn:E; [exact IH|].
  intros [= <- _]. exact E.
Qed.

Lemma filter_takeWhile_neg (p : jschar -> bool) (s : jsstring) :
  filter (fun c => negb (p c)) (takeWhile p s) = [].
Proof.
  induction s as [|c s IH]; simpl; [reflexivity|].
  destruct (p c) eqn:E; simpl; [now rewrite E | reflexivity].
Qed.

Lemma prefixb_app (w s : jsstring) :
  prefixb w s = true -> s = w ++ skipn (length w) s.
Proof.
  revert s; induction w as [|x w IH]; intros s H; simpl in *; [reflexivity|].
  destruct s as [|y s]; [discriminate|].
  apply andb_prop in H as [Hx Hw]. apply N.eqb_eq in Hx. subst y.
  simpl. f_equal. now apply IH.
Qed.

Lemma skipn_app_length (v r : jsstring) : skipn (length v) (v ++ r) = r.
Proof. induction v; simpl; auto. Qed.

Lemma str_eqb_eq (a b : jsstring) : str_eqb a b = true <-> a = b.
Proof.
  revert b; induction a as [|x a IH]; intros [|y b]; simpl; split;
    try discriminate; try reflexivity.
  - intros H. apply andb_prop in H as [Hx Hr]. apply N.eqb_eq in Hx.
    apply IH in Hr. now subst.
  - intros [= -> ->]. rewrite N.eqb_refl. now apply IH.
Qed.

Lemma str_eqb_refl (a : jsstring) : str_eqb a a = true.
Proof. now apply str_eqb_eq. Qed.

(** ** Lexer *)

Lemma prefix_match_intro (s v r : jsstring) :
  v <> [] -> s = v ++ r -> prefix_match s v.
Proof.
  intros Hv ->. split; [exact Hv|]. now rewrite skipn_app_length.
Qed.

Lemma firstAlternative_spec alts ok s w :
  Lexer.firstAlternative alts ok s = Some w ->
  In w alts /\ prefixb w s = true /\ ok w = true.
Proof.
  induction alts as [|a alts IH]; simpl; [discriminate|].
  destruct (prefixb a s && ok a) eqn:E.
  - intros [= <-]. apply andb_prop in E as [? ?]. auto.
  - intros H. destruct (IH H) as (? & ? & ?). auto.
Qed.

Lemma matchFloat_prefix s v : Lexer.matchFloat s = Some v -> prefix_match s v.
Proof.
  unfold Lexer.matchFloat. intros H.
  pose proof (takeWhile_dropWhile isDigit s) as Hs.
  destruct (takeWhile isDigit s) as [|d ds] eqn:Ed; [discriminate|].
  destruct (dropWhile isDigit s) as [|c r] eqn:Er; [discriminate|].
  destruct (N.eqb c 46); [|discriminate].
  pose proof (takeWhile_dropWhile isDigit r) as Hr.
  destruct (takeWhile isDigit r) as [|f fs] eqn:Ef; [discriminate|].
  injection H as <-.
  remember (dropWhile isDigit r) as tl.
  apply prefix_match_intro with (r := tl); [discriminate|].
  rewrite <- Hs, <- Hr. simpl. rewrite <- app_assoc. reflexivity.
Qed.

Lemma matchInt_prefix s v : Lexer.matchInt s = Some v -> prefix_match s v.
Proof.
  unfold Lexer.matchInt. intros H.
  pose proof (takeWhile_dropWhile isDigit s) as Hs.
  destruct (takeWhile isDigit s) as [|d ds] eqn:Ed; [discriminate|].
  injection H as <-.
  apply prefix_match_intro with (r := dropWhile isDigit s);
    [discriminate | now rewrite Hs].
Qed.

Lemma matchString_prefix s v : Lexer.matchString s = Some v -> prefix_match s v.
Proof.
  unfold Lexer.matchString. intros H.
  destruct s as [|q r]; [discriminate|].
  destruct (N.eqb q 34); [|discriminate].
  set (nq := fun c : N => negb (N.eqb c 34)) in *.
  pose proof (takeWhile_dropWhile nq r) as Hr.
  destruct (dropWhile nq r) as [|q' r'] eqn:Er; [discriminate|].
  injection H as <-.
  apply prefix_match_intro with (r := r'); [discriminate|].
  rewrite <- Hr at 1. simpl. rewrite <- app_assoc. reflexivity.
Qed.

Lemma alternative_prefix alts ok s v :
  (forall w, In w alts -> w <> []) ->
  Lexer.firstAlternative alts ok s = Some v -> prefix_match s v.
Proof.
  intros Hne H. apply firstAlternative_spec in H as (Hin & Hp & _).
  split; [now apply Hne | now apply prefixb_app].
Qed.

Lemma keywords_nonempty w : In w Lexer.keywords -> w <> [].
Proof.
  unfold Lexer.keywords. simpl.
  intros H; repeat (destruct H as [<- | H]; [discriminate|]); destruct H.
Qed.

Lemma operators_nonempty w : In w Lexer.operators -> w <> [].
Proof.
  unfold Lexer.operators. simpl.
  intros H; repeat (destruct H as [<- | H]; [discriminate|]); destruct H.
Qed.

Lemma matchIdentifier_prefix s v :
  Lexer.matchIdentifier s = Some v -> prefix_match s v.
Proof.
  unfold Lexer.matchIdentifier. destruct s as [|c r]; [discriminate|].
  destruct (isIdentStart c); [|discriminate]. intros [= <-].
  apply prefix_match_intro with (r := dropWhile isWordChar r); [discriminate|].
  simpl. now rewrite takeWhile_dropWhile.
Qed.

Lemma matchSeparator_prefix s v :
  Lexer.matchSeparator s = Some v -> prefix_match s v.
Proof.
  unfold Lexer.matchSeparator. destruct s as [|c r]; [discriminate|].
  destruct (one_of _ c); [|discriminate]. intros [= <-].
  now apply prefix_match_intro with (r := r).
Qed.

Lemma matchAny_prefix s v : Lexer.matchAny s = Some v -> prefix_match s v.
Proof.
  unfold Lexer.matchAny. destruct s as [|c r]; [discriminate|].
  destruct (isLineTerminator c); [discriminate|]. intros [= <-].
  now apply prefix_match_intro with (r := r).
Qed.

Lemma firstMatch_prefix s ty v :
  Lexer.firstMatch Lexer.tokenSpecs s = Some (ty, v) -> prefix_match s v.
Proof.
  unfold Lexer.tokenSpecs. simpl.
  destruct (Lexer.matchFloat s) eqn:E1;
    [intros [= _ <-]; now apply matchFloat_prefix|].
  destruct (Lexer.matchInt s) eqn:E2;
    [intros [= _ <-]; now apply matchInt_prefix|].
  destruct (Lexer.matchString s) eqn:E3;
    [intros [= _ <-]; now apply matchString_prefix|].
  destruct (Lexer.matchKeyword s) eqn:E4;
    [intros [= _ <-];
     eapply alternative_prefix; [apply keywords_nonempty | exact E4]|].
  destruct (Lexer.matchIdentifier s) eqn:E5;
    [intros [= _ <-]; now apply matchIdentifier_prefix|].
  destruct (Lexer.matchOperator s) eqn:E6;
    [intros [= _ <-];
     eapply alternative_prefix; [apply operators_nonempty | exact E6]|].
  destruct (Lexer.matchSeparator s) eqn:E7;
    [intros [= _ <-]; now apply matchSeparator_prefix|].
  destruct (Lexer.matchAny s) eqn:E8;
    [intros [= _ <-]; now apply matchAny_prefix | discriminate].
Qed.

(** White space contains every line terminator, so the catch-all rule
    matches whatever follows skipped white space. *)
Lemma lineTerminator_is_whitespace c :
  isLineTerminator c = true -> isWhitespace c = true.
Proof.
  unfold isLineTerminator, isWhitespace.
  intros H. repeat (apply orb_prop in H as [H|H]);
    apply N.eqb_eq in H; subst c; reflexivity.
Qed.

Lemma firstMatch_some specs ty rx s v :
  In (ty, rx) specs -> rx s = Some v ->
  exists ty' v', Lexer.firstMatch specs s = Some (ty', v').
Proof.
  induction specs as [|[ty0 rx0] specs IH]; simpl; [tauto|].
  intros [[= -> ->] | Hin] Hv.
  - rewrite Hv. eauto.
  - destruct (rx0 s); eauto.
Qed.

Lemma firstMatch_catch_all c r :
  isWhitespace c = false ->
  exists ty v, Lexer.firstMatch Lexer.tokenSpecs (c :: r) = Some (ty, v).
Proof.
  intros Hc.
  apply firstMatch_some with (ty := MISMATCH) (rx := Lexer.matchAny) (v := [c]).
  - unfold Lexer.tokenSpecs. simpl. tauto.
  - unfold Lexer.matchAny. destruct (isLineTerminator c) eqn:E; [|reflexivity].
    apply lineTerminator_is_whitespace in E. congruence.
Qed.

(** One iteration of the loop on code that is not empty. *)
Lemma tokenize_loop_step fuel remainingCode line col :
  remainingCode <> [] ->
  Lexer.tokenize_loop fuel remainingCode line col =
  let ws := takeWhile isWhitespace remainingCode in
  let rem1 := dropWhile isWhitespace remainingCode in
  let line1 := fst (Lexer.skipWhitespace ws line col) in
  let col1 := snd (Lexer.skipWhitespace ws line col) in
  if nonempty ws && negb (nonempty rem1) then Lexer.Tokens []
  else
    match Lexer.firstMatch Lexer.tokenSpecs rem1 with
    | Some (ty, v) =>
        match fuel with
        | O => Lexer.OutOfFuel
        | S fuel' =>
            Lexer.push (mkToken ty v line1 col1)
              (Lexer.tokenize_loop fuel' (skipn (length v) rem1)
                 line1 (col1 + Lexer.strlen v)%Z)
        end
    | None =>
        if nonempty rem1 then Lexer.LexerError (firstn 10 rem1)
        else match fuel with
             | O => Lexer.OutOfFuel
             | S fuel' => Lexer.tokenize_loop fuel' rem1 line1 col1
             end
    end.
Proof.
  intros Hne. destruct remainingCode as [|c r]; [congruence|].
  destruct fuel; cbn [Lexer.tokenize_loop]; rewrite skipn_takeWhile;
    destruct (Lexer.skipWhitespace _ line col); reflexivity.
Qed.

(** What an iteration sees after the leading white space: either nothing
    is left, or a code unit that is not white space. *)
Lemma after_whitespace (s : jsstring) :
  s <> [] ->
  (takeWhile isWhitespace s <> [] /\ dropWhile isWhitespace s = []) \/
  (exists c r, dropWhile isWhitespace s = c :: r /\ isWhitespace c = false).
Proof.
  intros Hne. destruct (dropWhile isWhitespace s) as [|c r] eqn:E.
  - left. split; [|reflexivity]. intros Hw.
    pose proof (takeWhile_dropWhile isWhitespace s) as H.
    rewrite Hw, E in H. simpl in H. congruence.
  - right. exists c, r. split; [reflexivity|]. eapply dropWhile_head; eauto.
Qed.

Lemma nonempty_true (s : jsstring) : s <> [] -> nonempty s = true.
Proof. destruct s; [congruence | reflexivity]. Qed.

Lemma length_prefix_match (s v : jsstring) :
  prefix_match s v -> length (skipn (length v) s) < length s.
Proof.
  intros [Hv Hs]. rewrite Hs at 2. rewrite length_app.
  destruct v; [congruence | simpl; lia].
Qed.

Lemma length_dropWhile p (s : jsstring) : length (dropWhile p s) <= length s.
Proof.
  rewrite <- (takeWhile_dropWhile p s) at 2. rewrite length_app. lia.
Qed.

Lemma tokenize_loop_total fuel : forall remainingCode line col,
  length remainingCode <= fuel ->
  exists ts,
    Lexer.tokenize_loop fuel remainingCode line col = Lexer.Tokens ts /\
    filter nonWhitespace remainingCode = filter nonWhitespace (texts ts).
Proof.
  induction fuel as [|fuel IH]; intros rem line col Hlen.
  - destruct rem; [|simpl in Hlen; lia]. exists []. split; reflexivity.
  - destruct rem as [|c0 rem0]; [exists []; split; reflexivity|].
    remember (c0 :: rem0) as rem eqn:Erem.
    assert (Hne : rem <> []) by (subst; discriminate).
    rewrite (tokenize_loop_step _ _ _ _ Hne). cbv zeta.
    pose proof (takeWhile_dropWhile isWhitespace rem) as Hsplit.
    pose proof (filter_takeWhile_neg isWhitespace rem) as Hws.
    fold nonWhitespace in Hws.
    destruct (after_whitespace _ Hne) as [[Hw Hd] | (c1 & r1 & Hd & Hc1)].
    + rewrite Hd, (nonempty_true _ Hw). simpl. exists []. split; [reflexivity|].
      rewrite <- Hsplit, Hd, app_nil_r. exact Hws.
    + rewrite Hd.
      replace (nonempty _ && negb (nonempty (c1 :: r1))) with false
        by (simpl; now rewrite andb_false_r).
      destruct (firstMatch_catch_all c1 r1 Hc1) as (ty & v & Hm).
      rewrite Hm.
      pose proof (firstMatch_prefix _ _ _ Hm) as Hpm.
      assert (Hl : length (skipn (length v) (c1 :: r1)) <= fuel).
      { pose proof (length_prefix_match _ _ Hpm).
        pose proof (length_dropWhile isWhitespace rem). rewrite Hd in *. lia. }
      match goal with
      | |- context [Lexer.tokenize_loop fuel ?r ?l ?c] =>
          destruct (IH r l c Hl) as (ts & Hts & Hcov)
      end.
      rewrite Hts. simpl. eexists; split; [reflexivity|].
      rewrite <- Hsplit, filter_app, Hws, Hd. cbn [app].
      destruct Hpm as [_ Hpre]. rewrite Hpre at 1.
      unfold texts in *. cbn [map concat value].
      rewrite !filter_app. f_equal. exact Hcov.
Qed.

(** C2: [tokenize] returns a token sequence for every input: the thrown
    Lexer error is never reached, and the code units of the input that are
    not white space are, in order, those of the token texts. *)
Theorem tokenize_total (code : jsstring) :
  exists ts,
    Lexer.tokenize code = Lexer.Tokens ts /\
    filter nonWhitespace code = filter nonWhitespace (texts ts).
Proof. apply tokenize_loop_total. lia. Qed.

(** *** The float rule comes first *)

Lemma firstMatch_float (rest : jsstring) :
  Lexer.firstMatch Lexer.tokenSpecs (lit "3.14" ++ rest) =
  Some (FLOAT_LIT, lit "3.14" ++ takeWhile isDigit rest).
Proof. reflexivity. Qed.

(** The iteration of the loop that stands at the characters 3.14. *)
Lemma float_step (fuel : nat) (rest : jsstring) (line col : Z) :
  let text := lit "3.14" ++ takeWhile isDigit rest in
  Lexer.tokenize_loop (S fuel) (lit "3.14" ++ rest) line col =
  Lexer.push (mkToken FLOAT_LIT text line col)
    (Lexer.tokenize_loop fuel (dropWhile isDigit rest) line
       (col + Lexer.strlen text)%Z).
Proof.
  intros text.
  rewrite tokenize_loop_step by discriminate. cbv zeta.
  change (takeWhile isWhitespace (lit "3.14" ++ rest)) with (@nil jschar).
  change (dropWhile isWhitespace (lit "3.14" ++ rest)) with (lit "3.14" ++ rest).
  rewrite firstMatch_float. fold text.
  change (nonempty [] && _) with false. cbv iota.
  replace (skipn (length text) (lit "3.14" ++ rest)) with (dropWhile isDigit rest).
  - reflexivity.
  - unfold text. rewrite length_app.
    change (length (lit "3.14")) with 4. simpl.
    now rewrite skipn_takeWhile.
Qed.

(** C3 (amended): whenever the loop stands at the characters 3.14, the next
    token is one FLOAT_LIT, whose text is 3.14 followed by the digits that
    come directly after it (none when the next character is not a digit);
    the loop goes on behind those digits.  The INT_LIT rule is never the one
    that matches there: the token is never an INT_LIT. *)
Theorem float_before_int (fuel : nat) (rest : jsstring) (line col : Z) :
  let text := lit "3.14" ++ takeWhile isDigit rest in
  Lexer.firstMatch Lexer.tokenSpecs (lit "3.14" ++ rest) =
    Some (FLOAT_LIT, text) /\
  Lexer.tokenize_loop (S fuel) (lit "3.14" ++ rest) line col =
  Lexer.push (mkToken FLOAT_LIT text line col)
    (Lexer.tokenize_loop fuel (dropWhile isDigit rest) line
       (col + Lexer.strlen text)%Z) /\
  (takeWhile isDigit rest = [] -> text = lit "3.14").
Proof.
  intros text. split; [apply firstMatch_float|]. split; [apply float_step|].
  unfold text. intros ->. apply app_nil_r.
Qed.

(** When no digit follows, the text is 3.14 itself. *)
Lemma float_exact (fuel : nat) (rest : jsstring) (line col : Z) :
  takeWhile isDigit rest = [] ->
  Lexer.tokenize_loop (S fuel) (lit "3.14" ++ rest) line col =
  Lexer.push (mkToken FLOAT_LIT (lit "3.14") line col)
    (Lexer.tokenize_loop fuel rest line (col + 4)%Z).
Proof.
  intros H. rewrite float_step. cbv zeta.
  assert (Hd : dropWhile isDigit rest = rest).
  { rewrite <- (takeWhile_dropWhile isDigit rest) at 2. now rewrite H. }
  rewrite H, Hd, app_nil_r. reflexivity.
Qed.

Example tokenize_3_14 :
  Lexer.tokenize (lit "3.14") =
  Lexer.Tokens [mkToken FLOAT_LIT (lit "3.14") 1 1].
Proof. reflexivity. Qed.

(** C3 as stated fails when a digit follows: the characters 3.14 are at the
    current position, and the token text is longer than 3.14. *)
Lemma float_followed_by_digit :
  Lexer.tokenize (lit "3.145") =
  Lexer.Tokens [mkToken FLOAT_LIT (lit "3.145") 1 1] /\
  lit "3.145" = lit "3.14" ++ lit "5" /\ lit "3.145" <> lit "3.14".
Proof. repeat split. discriminate. Qed.

(** *** Positions *)

Lemma skipWhitespace_advances ws l c :
  let p := Lexer.skipWhitespace ws l c in
  (l < fst p \/ (l = fst p /\ c <= snd p))%Z.
Proof.
  unfold Lexer.skipWhitespace, Lexer.strlen.
  destruct (nonempty ws); simpl; [|lia].
  destruct (0 <? Lexer.countNewlines ws)%Z eqn:E; simpl.
  - apply Z.ltb_lt in E. lia.
  - lia.
Qed.

Lemma at_or_after_trans l c l' c' ts :
  (l < l' \/ (l = l' /\ c <= c'))%Z ->
  Forall (at_or_after l' c') ts -> Forall (at_or_after l c) ts.
Proof.
  intros H. apply Forall_impl. unfold at_or_after. intros t. lia.
Qed.

Lemma push_tokens t r ts :
  Lexer.push t r = Lexer.Tokens ts ->
  exists ts', r = Lexer.Tokens ts' /\ ts = t :: ts'.
Proof. destruct r; simpl; try discriminate. intros [= <-]. eauto. Qed.

Lemma tokenize_loop_sorted fuel : forall remainingCode l c ts,
  Lexer.tokenize_loop fuel remainingCode l c = Lexer.Tokens ts ->
  Forall (at_or_after l c) ts /\ StronglySorted pos_lt ts.
Proof.
  induction fuel as [|fuel IH]; intros rem l c ts;
    (destruct rem as [|c0 rem0];
     [intros [= <-]; split; constructor|]);
    rewrite tokenize_loop_step by discriminate; cbv zeta;
    pose proof (skipWhitespace_advances
                  (takeWhile isWhitespace (c0 :: rem0)) l c) as Hadv;
    cbv zeta in Hadv;
    set (p := Lexer.skipWhitespace _ l c) in *; clearbody p;
    destruct (nonempty _ && negb _);
    try (intros [= <-]; split; constructor);
    destruct (Lexer.firstMatch _ _) as [[ty v]|] eqn:Hm;
    try discriminate;
    try (destruct (nonempty (dropWhile _ _)); discriminate).
  - (* a token is pushed *)
    intros H. apply push_tokens in H as (ts' & Hts' & ->).
    apply IH in Hts' as [Hall Hsorted].
    destruct (firstMatch_prefix _ _ _ Hm) as [Hv _].
    assert (0 < Lexer.strlen v)%Z
      by (unfold Lexer.strlen; destruct v; [congruence | simpl; lia]).
    split.
    + constructor; [unfold at_or_after; cbn [line col]; lia|].
      eapply at_or_after_trans; [|exact Hall]. lia.
    + constructor; [exact Hsorted|].
      revert Hall. apply Forall_impl. unfold at_or_after, pos_lt.
      cbn [line col]. intros t. lia.
  - destruct (nonempty (dropWhile _ _)); [discriminate|].
    intros H. apply IH in H as [Hall Hsorted]. split; [|exact Hsorted].
    eapply at_or_after_trans; [|exact Hall]. lia.
Qed.

Lemma StronglySorted_weaken (R Q : Token -> Token -> Prop) ts :
  (forall a b, R a b -> Q a b) -> StronglySorted R ts -> StronglySorted Q ts.
Proof.
  intros HRQ. induction 1 as [|t ts _ IH Hall]; constructor; [exact IH|].
  revert Hall. apply Forall_impl. auto.
Qed.

(** C9 (amended): the lines of the tokens never decrease, and the
    (line, column) pairs increase in lexicographic order; the column alone
    is ordered only among tokens of one line. *)
Theorem positions_sorted (code : jsstring) :
  exists ts,
    Lexer.tokenize code = Lexer.Tokens ts /\
    StronglySorted line_le ts /\ StronglySorted pos_lt ts.
Proof.
  destruct (tokenize_loop_total (length code) code 1 1 (le_n _))
    as (ts & Hts & _).
  exists ts. split; [exact Hts|].
  apply tokenize_loop_sorted in Hts as [_ Hs].
  split; [|exact Hs].
  revert Hs. apply StronglySorted_weaken. unfold pos_lt, line_le. lia.
Qed.

(** C9 as stated fails for the column: it starts again after a newline. *)
Lemma column_decreases :
  Lexer.tokenize (lit "  ab" ++ [10%N] ++ lit "c") =
  Lexer.Tokens [mkToken IDENTIFIER (lit "ab") 1 3;
                mkToken IDENTIFIER (lit "c") 2 1] /\
  ~ StronglySorted col_le [mkToken IDENTIFIER (lit "ab") 1 3;
                           mkToken IDENTIFIER (lit "c") 2 1].
Proof.
  split; [reflexivity|].
  intros H. inversion H as [|? ? _ Hall]; subst.
  inversion Hall as [|? ? Hle _]; subst.
  unfold col_le in Hle. simpl in Hle. lia.
Qed.

(** *** The rule behind each token *)

Lemma firstMatch_rule s ty v :
  Lexer.firstMatch Lexer.tokenSpecs s = Some (ty, v) ->
  match ty with
  | FLOAT_LIT => Lexer.matchFloat s = Some v
  | INT_LIT => Lexer.matchInt s = Some v
  | STRING_LIT => Lexer.matchString s = Some v
  | KEYWORD => Lexer.matchKeyword s = Some v
  | IDENTIFIER => Lexer.matchIdentifier s = Some v
  | OPERATOR => Lexer.matchOperator s = Some v
  | SEPARATOR => Lexer.matchSeparator s = Some v
  | MISMATCH =>
      Lexer.matchAny s = Some v /\ Lexer.matchInt s = None /\
      Lexer.matchIdentifier s = None /\ Lexer.matchOperator s = None /\
      Lexer.matchSeparator s = None
  end.
Proof.
  unfold Lexer.tokenSpecs. simpl.
  destruct (Lexer.matchFloat s) eqn:E1; [intros [= <- <-]; reflexivity|].
  destruct (Lexer.matchInt s) eqn:E2; [intros [= <- <-]; reflexivity|].
  destruct (Lexer.matchString s) eqn:E3; [intros [= <- <-]; reflexivity|].
  destruct (Lexer.matchKeyword s) eqn:E4; [intros [= <- <-]; reflexivity|].
  destruct (Lexer.matchIdentifier s) eqn:E5; [intros [= <- <-]; reflexivity|].
  destruct (Lexer.matchOperator s) eqn:E6; [intros [= <- <-]; reflexivity|].
  destruct (Lexer.matchSeparator s) eqn:E7; [intros [= <- <-]; reflexivity|].
  destruct (Lexer.matchAny s) eqn:E8; [|discriminate].
  intros [= <- <-]. repeat split; reflexivity.
Qed.

Lemma tokenize_loop_matched fuel : forall remainingCode l c ts,
  Lexer.tokenize_loop fuel remainingCode l c = Lexer.Tokens ts ->
  Forall matched ts.
Proof.
  induction fuel as [|fuel IH]; intros rem l c ts;
    (destruct rem as [|c0 rem0]; [intros [= <-]; constructor|]);
    rewrite tokenize_loop_step by discriminate; cbv zeta;
    destruct (after_whitespace (c0 :: rem0)) as [[Hw Hd] | (c1 & r1 & Hd & Hc1)];
    try discriminate; rewrite Hd.
  - rewrite (nonempty_true _ Hw). simpl. intros [= <-]. constructor.
  - rewrite andb_false_r.
    destruct (firstMatch_catch_all c1 r1 Hc1) as (ty & v & Hm). rewrite Hm.
    discriminate.
  - rewrite (nonempty_true _ Hw). simpl. intros [= <-]. constructor.
  - rewrite andb_false_r.
    destruct (Lexer.firstMatch _ _) as [[ty v]|] eqn:Hm; [|discriminate].
    intros H. apply push_tokens in H as (ts' & Hts' & ->).
    constructor; [|eapply IH; exact Hts'].
    exists c1, r1. split; assumption.
Qed.

(** Every token sequence comes with the rule matches behind its tokens. *)
Lemma tokenize_matched code :
  exists ts, Lexer.tokenize code = Lexer.Tokens ts /\ Forall matched ts.
Proof.
  destruct (tokenize_loop_total (length code) code 1 1 (le_n _)) as (ts & H & _).
  exists ts. split; [exact H|]. eapply tokenize_loop_matched. exact H.
Qed.

(** *** Character classes *)

Ltac class_cases H :=
  repeat (apply orb_prop in H as [H|H]).

Ltac to_arith :=
  unfold between in *;
  repeat match goal with
         | H : _ && _ = true |- _ => apply andb_prop in H as [? ?]
         | H : N.leb _ _ = true |- _ => apply N.leb_le in H
         | H : N.eqb _ _ = true |- _ => apply N.eqb_eq in H
         end.

Lemma word_not_whitespace c : isWordChar c = true -> isWhitespace c = false.
Proof.
  intros Hw. apply not_true_is_false. intros Hs.
  unfold isWordChar in Hw. unfold isWhitespace in Hs.
  class_cases Hw; class_cases Hs; to_arith; lia.
Qed.

Lemma digit_is_word c : isDigit c = true -> isWordChar c = true.
Proof.
  unfold isDigit, isWordChar. intros ->. now rewrite !orb_true_r.
Qed.

Lemma identStart_is_word c : isIdentStart c = true -> isWordChar c = true.
Proof.
  unfold isIdentStart, isWordChar. intros H. class_cases H; rewrite H;
    now rewrite ?orb_true_r.
Qed.

Lemma identStart_no_digit c : isIdentStart c = true -> isDigit c = false.
Proof.
  intros H. apply not_true_is_false. intros Hd.
  unfold isIdentStart in H. unfold isDigit in Hd.
  class_cases H; to_arith; lia.
Qed.

Lemma identStart_no_quote c : isIdentStart c = true -> N.eqb c 34 = false.
Proof.
  intros H. apply not_true_is_false. intros Hd.
  unfold isIdentStart in H. class_cases H; to_arith; lia.
Qed.

Lemma one_of_In cs c : one_of cs c = true <-> In c cs.
Proof.
  unfold one_of. rewrite existsb_exists. split.
  - intros (x & Hin & Hx). apply N.eqb_eq in Hx. now subst.
  - intros Hin. exists c. split; [exact Hin | apply N.eqb_refl].
Qed.

Lemma punctuation_not_whitespace c :
  one_of punctuation c = true -> isWhitespace c = false.
Proof.
  intros H. apply one_of_In in H.
  repeat (destruct H as [<-|H]; [reflexivity|]). destruct H.
Qed.

Lemma forallb_takeWhile p (s : jsstring) : forallb p (takeWhile p s) = true.
Proof.
  induction s as [|c s IH]; [reflexivity|]. simpl.
  destruct (p c) eqn:E; [simpl; now rewrite E | reflexivity].
Qed.

Lemma forallb_weaken (p q : jschar -> bool) (s : jsstring) :
  (forall c, p c = true -> q c = true) ->
  forallb p s = true -> forallb q s = true.
Proof.
  intros Hpq. rewrite !forallb_forall. auto.
Qed.

(** *** Blank input *)

Lemma takeWhile_all p (s : jsstring) :
  forallb p s = true -> takeWhile p s = s /\ dropWhile p s = [].
Proof.
  induction s as [|c s IH]; [now split|]. simpl.
  intros H. apply andb_prop in H as [Hc Hs]. rewrite Hc.
  destruct (IH Hs) as [-> ->]. now split.
Qed.

Lemma filter_nil_forallb (p : jschar -> bool) (s : jsstring) :
  filter (fun c => negb (p c)) s = [] -> forallb p s = true.
Proof.
  induction s as [|c s IH]; [reflexivity|]. simpl.
  destruct (p c); simpl; [exact IH | discriminate].
Qed.

(** X1: the token sequence is empty exactly when the source holds nothing
    but white space (the empty source included): blank input is no error. *)
Theorem blank_source (code : jsstring) :
  Lexer.tokenize code = Lexer.Tokens [] <-> forallb isWhitespace code = true.
Proof.
  split.
  - intros H. destruct (tokenize_loop_total (length code) code 1 1 (le_n _))
      as (ts & Hts & Hcov).
    unfold Lexer.tokenize in H. rewrite H in Hts. injection Hts as <-.
    apply filter_nil_forallb. exact Hcov.
  - intros H. unfold Lexer.tokenize.
    destruct code as [|c r]; [reflexivity|].
    rewrite tokenize_loop_step by discriminate. cbv zeta.
    destruct (takeWhile_all _ _ H) as [-> ->]. reflexivity.
Qed.

(** *** Words: keywords and identifiers *)

Lemma word_prefix_unique (k : jsstring) : forall s,
  prefixb k s = true -> forallb isWordChar k = true ->
  Lexer.boundaryAfter k s = true -> k = takeWhile isWordChar s.
Proof.
  unfold Lexer.boundaryAfter.
  induction k as [|x k IH]; intros s Hp Hw Hb.
  - simpl in Hb. destruct s as [|c s]; [reflexivity|]. simpl.
    apply negb_true_iff in Hb. now rewrite Hb.
  - destruct s as [|c s]; [discriminate|]. simpl in *.
    apply andb_prop in Hp as [Hx Hp]. apply andb_prop in Hw as [Hx' Hw].
    apply N.eqb_eq in Hx. subst c. rewrite Hx'. f_equal. now apply IH.
Qed.

Lemma firstAlternative_complete alts ok s w :
  In w alts -> prefixb w s = true -> ok w = true ->
  Lexer.firstAlternative alts ok s <> None.
Proof.
  induction alts as [|a alts IH]; simpl; [tauto|].
  intros [-> | Hin] Hp Hok.
  - rewrite Hp, Hok. discriminate.
  - destruct (prefixb a s && ok a); [discriminate | now apply IH].
Qed.

Lemma prefixb_takeWhile p (s : jsstring) : prefixb (takeWhile p s) s = true.
Proof.
  induction s as [|c s IH]; [reflexivity|]. simpl.
  destruct (p c); [simpl; now rewrite N.eqb_refl | reflexivity].
Qed.

Lemma boundary_takeWhile (s : jsstring) :
  Lexer.boundaryAfter (takeWhile isWordChar s) s = true.
Proof.
  unfold Lexer.boundaryAfter. rewrite skipn_takeWhile.
  destruct (dropWhile isWordChar s) as [|c r] eqn:E; [reflexivity|].
  apply dropWhile_head in E. now rewrite E.
Qed.

Lemma keywords_are_words w :
  In w Lexer.keywords -> forallb isWordChar w = true.
Proof.
  intros H. repeat (destruct H as [<-|H]; [reflexivity|]). destruct H.
Qed.

Lemma isKeyword_In w : isKeyword w = true <-> In w Lexer.keywords.
Proof.
  unfold isKeyword. rewrite existsb_exists. split.
  - intros (x & Hin & Hx). apply str_eqb_eq in Hx. now subst.
  - intros Hin. exists w. split; [exact Hin | apply str_eqb_refl].
Qed.

Lemma matchKeyword_word c r :
  isIdentStart c = true ->
  Lexer.matchKeyword (c :: r) =
  if isKeyword (wordAt c r) then Some (wordAt c r) else None.
Proof.
  intros Hc. pose proof (identStart_is_word _ Hc) as Hw.
  assert (Hword : takeWhile isWordChar (c :: r) = wordAt c r)
    by (simpl; now rewrite Hw).
  unfold Lexer.matchKeyword.
  destruct (Lexer.firstAlternative _ _ _) as [k|] eqn:E.
  - apply firstAlternative_spec in E as (Hin & Hp & Hb).
    pose proof (word_prefix_unique _ _ Hp (keywords_are_words _ Hin) Hb) as Hk.
    rewrite Hword in Hk. subst k.
    apply isKeyword_In in Hin. now rewrite Hin.
  - destruct (isKeyword (wordAt c r)) eqn:K; [|reflexivity].
    apply isKeyword_In in K. exfalso.
    eapply firstAlternative_complete; [exact K | | | exact E].
    + rewrite <- Hword. apply prefixb_takeWhile.
    + rewrite <- Hword. apply boundary_takeWhile.
Qed.

Lemma firstMatch_word c r :
  isIdentStart c = true ->
  Lexer.firstMatch Lexer.tokenSpecs (c :: r) =
  Some (if isKeyword (wordAt c r) then KEYWORD else IDENTIFIER, wordAt c r).
Proof.
  intros Hc. unfold Lexer.tokenSpecs. cbn [Lexer.firstMatch].
  unfold Lexer.matchFloat, Lexer.matchInt. cbn [takeWhile dropWhile].
  rewrite (identStart_no_digit _ Hc). cbn iota.
  unfold Lexer.matchString. rewrite (identStart_no_quote _ Hc).
  rewrite (matchKeyword_word _ _ Hc).
  destruct (isKeyword (wordAt c r)); [reflexivity|].
  unfold Lexer.matchIdentifier. now rewrite Hc.
Qed.

(** X2: a word (a letter or underscore and the letters, digits and
    underscores that follow) always becomes one token holding the whole
    word; the token is a KEYWORD exactly when the word is one of the eight
    keywords, and an IDENTIFIER otherwise (so [integer] and [int_] are
    identifiers).  The loop goes on behind the word. *)
Theorem word_token (fuel : nat) (c : jschar) (r : jsstring) (line col : Z) :
  isIdentStart c = true ->
  let w := wordAt c r in
  let ty := if isKeyword w then KEYWORD else IDENTIFIER in
  Lexer.firstMatch Lexer.tokenSpecs (c :: r) = Some (ty, w) /\
  Lexer.tokenize_loop (S fuel) (c :: r) line col =
  Lexer.push (mkToken ty w line col)
    (Lexer.tokenize_loop fuel (dropWhile isWordChar r) line
       (col + Lexer.strlen w)%Z).
Proof.
  intros Hc w ty. split; [now apply firstMatch_word|].
  rewrite tokenize_loop_step by discriminate. cbv zeta.
  pose proof (word_not_whitespace _ (identStart_is_word _ Hc)) as Hws.
  cbn [takeWhile dropWhile]. rewrite Hws.
  rewrite (firstMatch_word _ _ Hc). fold w ty.
  cbn [nonempty andb Lexer.skipWhitespace fst snd].
  unfold w, wordAt. cbn [length skipn]. now rewrite skipn_takeWhile.
Qed.

Lemma word_token_witness :
  isIdentStart 105%N = true /\
  Lexer.firstMatch Lexer.tokenSpecs (lit "integer x") =
    Some (IDENTIFIER, lit "integer") /\
  Lexer.tokenize_loop 9 (lit "integer x") 1 1 =
  Lexer.push (mkToken IDENTIFIER (lit "integer") 1 1)
    (Lexer.tokenize_loop 8 (lit " x") 1 8).
Proof.
  split; [reflexivity|].
  exact (word_token 8 105%N (lit "nteger x") 1 1 eq_refl).
Defined.

(** *** String literals *)

Lemma firstMatch_quote r :
  Lexer.firstMatch Lexer.tokenSpecs (34%N :: r) =
  match dropWhile notQuote r with
  | [] => Some (MISMATCH, [34%N])
  | q :: _ => Some (STRING_LIT, 34%N :: takeWhile notQuote r ++ [q])
  end.
Proof.
  unfold Lexer.tokenSpecs. cbn [Lexer.firstMatch].
  change (Lexer.matchFloat (34%N :: r)) with (@None jsstring).
  change (Lexer.matchInt (34%N :: r)) with (@None jsstring).
  unfold Lexer.matchString. cbn [N.eqb Pos.eqb].
  unfold notQuote. destruct (dropWhile _ r); reflexivity.
Qed.

Lemma dropWhile_notQuote_head r q rest :
  dropWhile notQuote r = q :: rest -> q = 34%N.
Proof.
  intros H. apply dropWhile_head in H. unfold notQuote in H.
  apply negb_false_iff, N.eqb_eq in H. exact H.
Qed.

(** X3: a double quote opens a STRING_LIT that runs to the next double
    quote, whatever stands between them (white space and newlines
    included); the line counter is not advanced by the newlines inside the
    literal.  A double quote that is never closed is no error: it becomes a
    MISMATCH token of its own. *)
Theorem string_literal_token (fuel : nat) (r : jsstring) (line col : Z) :
  match dropWhile notQuote r with
  | [] =>
      Lexer.firstMatch Lexer.tokenSpecs (34%N :: r) = Some (MISMATCH, [34%N])
  | _ :: rest =>
      let text := 34%N :: takeWhile notQuote r ++ [34%N] in
      Lexer.firstMatch Lexer.tokenSpecs (34%N :: r) = Some (STRING_LIT, text) /\
      Lexer.tokenize_loop (S fuel) (34%N :: r) line col =
      Lexer.push (mkToken STRING_LIT text line col)
        (Lexer.tokenize_loop fuel rest line (col + Lexer.strlen text)%Z)
  end.
Proof.
  pose proof (firstMatch_quote r) as Hm.
  destruct (dropWhile notQuote r) as [|q rest] eqn:E; [exact Hm|].
  pose proof (dropWhile_notQuote_head _ _ _ E) as ->.
  cbv zeta. split; [exact Hm|].
  rewrite tokenize_loop_step by discriminate. cbv zeta.
  change (takeWhile isWhitespace (34%N :: r)) with (@nil jschar).
  change (dropWhile isWhitespace (34%N :: r)) with (34%N :: r).
  rewrite Hm. cbn [nonempty andb Lexer.skipWhitespace fst snd].
  replace (skipn _ (34%N :: r)) with rest; [reflexivity|].
  cbn [length skipn].
  assert (Hr : r = (takeWhile notQuote r ++ [34%N]) ++ rest).
  { rewrite <- app_assoc. cbn [app]. rewrite <- E. symmetry.
    apply takeWhile_dropWhile. }
  set (tw := takeWhile notQuote r) in *. clearbody tw.
  rewrite Hr. now rewrite skipn_app_length.
Qed.

(** *** Token texts *)

Lemma matchFloat_digits s v :
  Lexer.matchFloat s = Some v -> forallb nonWhitespace v = true.
Proof.
  unfold Lexer.matchFloat.
  pose proof (forallb_takeWhile isDigit s) as Hds.
  destruct (takeWhile isDigit s) as [|d ds]; [discriminate|].
  destruct (dropWhile isDigit s) as [|c r]; [discriminate|].
  destruct (N.eqb_spec c 46); [subst c | discriminate].
  pose proof (forallb_takeWhile isDigit r) as Hfs.
  destruct (takeWhile isDigit r) as [|f fs]; [discriminate|].
  intros [= <-].
  assert (Hd : forall l, forallb isDigit l = true ->
                         forallb nonWhitespace l = true).
  { intros l. apply forallb_weaken. intros x Hx. unfold nonWhitespace.
    now rewrite (word_not_whitespace _ (digit_is_word _ Hx)). }
  pose proof (Hd _ Hds) as H1. pose proof (Hd _ Hfs) as H2.
  cbn [forallb app] in H1, H2 |- *. apply andb_prop in H1 as [H1 H1'].
  rewrite H1, forallb_app, H1'. cbn [andb forallb]. rewrite H2. reflexivity.
Qed.

Lemma matchInt_digits s v :
  Lexer.matchInt s = Some v -> forallb nonWhitespace v = true.
Proof.
  unfold Lexer.matchInt.
  pose proof (forallb_takeWhile isDigit s) as Hds.
  destruct (takeWhile isDigit s) as [|d ds]; [discriminate|].
  intros [= <-]. revert Hds. apply forallb_weaken. intros x Hx.
  unfold nonWhitespace.
  now rewrite (word_not_whitespace _ (digit_is_word _ Hx)).
Qed.

Lemma matchIdentifier_word s v :
  Lexer.matchIdentifier s = Some v -> forallb nonWhitespace v = true.
Proof.
  unfold Lexer.matchIdentifier. destruct s as [|c r]; [discriminate|].
  destruct (isIdentStart c) eqn:Hc; [|discriminate]. intros [= <-].
  cbn [forallb]. unfold nonWhitespace at 1.
  rewrite (word_not_whitespace _ (identStart_is_word _ Hc)). cbn [negb andb].
  generalize (forallb_takeWhile isWordChar r). apply forallb_weaken.
  intros x Hx. unfold nonWhitespace. now rewrite (word_not_whitespace _ Hx).
Qed.

Lemma keyword_text w :
  In w Lexer.keywords -> forallb nonWhitespace w = true.
Proof.
  intros H. repeat (destruct H as [<-|H]; [reflexivity|]). destruct H.
Qed.

Lemma operator_text w :
  In w Lexer.operators -> forallb nonWhitespace w = true.
Proof.
  intros H. repeat (destruct H as [<-|H]; [reflexivity|]). destruct H.
Qed.

Lemma matched_text t :
  matched t ->
  value t <> [] /\
  (type t = STRING_LIT \/ forallb nonWhitespace (value t) = true).
Proof.
  intros (c & r & Hc & Hm).
  split; [exact (proj1 (firstMatch_prefix _ _ _ Hm))|].
  apply firstMatch_rule in Hm. destruct (type t).
  - right. eapply matchFloat_digits; eauto.
  - right. eapply matchInt_digits; eauto.
  - now left.
  - right. apply firstAlternative_spec in Hm as [Hin _].
    now apply keyword_text.
  - right. eapply matchIdentifier_word; eauto.
  - right. apply firstAlternative_spec in Hm as [Hin _].
    now apply operator_text.
  - right. unfold Lexer.matchSeparator in Hm.
    destruct (one_of _ c); [|discriminate]. injection Hm as <-.
    simpl. unfold nonWhitespace. now rewrite Hc.
  - right. destruct Hm as [Hm _]. unfold Lexer.matchAny in Hm.
    destruct (isLineTerminator c); [discriminate|]. injection Hm as <-.
    simpl. unfold nonWhitespace. now rewrite Hc.
Qed.

(** X4: no token is empty, and only a string literal can hold white space:
    the text of every other token consists of code units that are not white
    space. *)
Theorem token_texts (code : jsstring) :
  exists ts,
    Lexer.tokenize code = Lexer.Tokens ts /\
    Forall (fun t => value t <> [] /\
                     (type t = STRING_LIT \/
                      forallb nonWhitespace (value t) = true)) ts.
Proof.
  destruct (tokenize_matched code) as (ts & Hts & Hall).
  exists ts. split; [exact Hts|].
  revert Hall. apply Forall_impl. exact matched_text.
Qed.

(** *** The catch-all rule *)

Lemma matchOperator_none c r :
  Lexer.matchOperator (c :: r) = None -> one_of (lit "+-*/=<>!") c = false.
Proof.
  intros H. apply not_true_is_false. intros Hc. apply one_of_In in Hc.
  revert H. apply firstAlternative_complete with (w := [c]);
    [|simpl; now rewrite N.eqb_refl | reflexivity].
  repeat (destruct Hc as [<-|Hc];
          [unfold Lexer.operators; simpl; tauto|]).
  destruct Hc.
Qed.

Lemma one_of_app a b c : one_of (a ++ b) c = one_of a c || one_of b c.
Proof. unfold one_of. apply existsb_app. Qed.

Lemma matched_mismatch t :
  matched t -> type t = MISMATCH ->
  exists c, value t = [c] /\ isWhitespace c = false /\ isDigit c = false /\
    isIdentStart c = false /\ one_of punctuation c = false.
Proof.
  intros (c & r & Hc & Hm) Hty. rewrite Hty in Hm.
  apply firstMatch_rule in Hm as (Hany & Hint & Hid & Hop & Hsep).
  exists c. unfold Lexer.matchAny in Hany.
  destruct (isLineTerminator c); [discriminate|]. injection Hany as <-.
  split; [reflexivity|]. split; [exact Hc|]. repeat split.
  - unfold Lexer.matchInt in Hint. simpl in Hint.
    destruct (isDigit c); [discriminate | reflexivity].
  - unfold Lexer.matchIdentifier in Hid.
    destruct (isIdentStart c); [discriminate | reflexivity].
  - apply matchOperator_none in Hop. unfold Lexer.matchSeparator in Hsep.
    change punctuation with (lit "+-*/=<>!" ++ lit "(){};,").
    rewrite one_of_app, Hop.
    destruct (one_of (lit "(){};,") c); [discriminate | reflexivity].
Qed.

Lemma firstMatch_mismatch s v :
  Lexer.firstMatch Lexer.tokenSpecs s = Some (MISMATCH, v) <->
  Lexer.matchFloat s = None /\ Lexer.matchInt s = None /\
  Lexer.matchString s = None /\ Lexer.matchKeyword s = None /\
  Lexer.matchIdentifier s = None /\ Lexer.matchOperator s = None /\
  Lexer.matchSeparator s = None /\ Lexer.matchAny s = Some v.
Proof.
  unfold Lexer.tokenSpecs. cbn [Lexer.firstMatch].
  destruct (Lexer.matchFloat s), (Lexer.matchInt s), (Lexer.matchString s),
    (Lexer.matchKeyword s), (Lexer.matchIdentifier s),
    (Lexer.matchOperator s), (Lexer.matchSeparator s), (Lexer.matchAny s);
    split; try discriminate; try (intros (? & ? & ? & ? & ? & ? & ? & ?));
    try discriminate; try (intros [= <-]; repeat split; reflexivity);
    congruence.
Qed.

Lemma dropWhile_nil p (s : jsstring) :
  dropWhile p s = [] <-> forallb p s = true.
Proof.
  split; [|apply takeWhile_all].
  induction s as [|c s IH]; [reflexivity|]. simpl.
  destruct (p c); [exact IH | discriminate].
Qed.

Lemma matchString_none c r :
  Lexer.matchString (c :: r) = None <->
  N.eqb c 34 && negb (forallb notQuote r) = false.
Proof.
  unfold Lexer.matchString.
  destruct (N.eqb c 34); cbn [andb]; [|now split].
  set (d := dropWhile _ r). change d with (dropWhile notQuote r). clear d.
  destruct (dropWhile notQuote r) as [|q rest] eqn:E.
  - apply dropWhile_nil in E. rewrite E. split; reflexivity.
  - destruct (forallb notQuote r) eqn:F.
    + apply dropWhile_nil in F. congruence.
    + split; discriminate.
Qed.

Lemma prefixb_first w c r :
  prefixb w (c :: r) = true -> w = [] \/ hd_error w = Some c.
Proof.
  destruct w as [|x w]; [now left|]. simpl. intros H.
  apply andb_prop in H as [H _]. apply N.eqb_eq in H. right. now subst.
Qed.

Ltac first_of Hp c H :=
  apply prefixb_first in Hp as [Hp|Hp]; [discriminate Hp|];
  vm_compute in Hp; injection Hp as <-; vm_compute in H; discriminate H.

Lemma matchKeyword_none c r :
  isIdentStart c = false -> Lexer.matchKeyword (c :: r) = None.
Proof.
  intros Hc. destruct (Lexer.matchKeyword (c :: r)) as [w|] eqn:E;
    [|reflexivity].
  apply firstAlternative_spec in E as (Hin & Hp & _).
  repeat (destruct Hin as [<-|Hin]; [first_of Hp c Hc|]).
  destruct Hin.
Qed.

Lemma matchOperator_none_iff c r :
  Lexer.matchOperator (c :: r) = None <->
  one_of (lit "+-*/=<>!") c = false /\
  prefixb (lit "&&") (c :: r) = false /\
  prefixb (lit "||") (c :: r) = false.
Proof.
  split.
  - intros H. split; [now apply matchOperator_none with (r := r)|].
    split; apply not_true_is_false; intros Hp; revert H;
      [apply firstAlternative_complete with (w := lit "&&")
      |apply firstAlternative_complete with (w := lit "||")];
      try exact Hp; try reflexivity;
      unfold Lexer.operators; simpl; tauto.
  - intros (Hone & Hand & Hor).
    destruct (Lexer.matchOperator (c :: r)) as [w|] eqn:E; [|reflexivity].
    apply firstAlternative_spec in E as (Hin & Hp & _).
    unfold Lexer.operators in Hin.
    repeat (destruct Hin as [<-|Hin];
            [first [ congruence | first_of Hp c Hone ]|]).
    destruct Hin.
Qed.

Lemma catchAllAt_spec c r v :
  isWhitespace c = false ->
  (Lexer.firstMatch Lexer.tokenSpecs (c :: r) = Some (MISMATCH, v) <->
   v = [c] /\ catchAllAt c r = true).
Proof.
  intros Hws.
  assert (Hlt : isLineTerminator c = false).
  { destruct (isLineTerminator c) eqn:E; [|reflexivity].
    apply lineTerminator_is_whitespace in E. congruence. }
  rewrite firstMatch_mismatch, matchString_none, matchOperator_none_iff.
  unfold catchAllAt, Lexer.matchAny, Lexer.matchSeparator,
    Lexer.matchIdentifier, Lexer.matchInt, Lexer.matchFloat.
  change punctuation with (lit "+-*/=<>!" ++ lit "(){};,").
  rewrite one_of_app, Hlt. cbn [takeWhile dropWhile].
  destruct (isDigit c) eqn:Hd; cbn [negb andb].
  { split; [intros (_ & H & _); discriminate H | intros [_ H]; discriminate H]. }
  destruct (isIdentStart c) eqn:Hi; cbn [negb andb].
  { split; [intros (_ & _ & _ & _ & H & _); discriminate H
           | intros [_ H]; discriminate H]. }
  rewrite (matchKeyword_none c r Hi).
  destruct (one_of (lit "+-*/=<>!") c), (one_of (lit "(){};,") c),
    (N.eqb c 34 && negb (forallb notQuote r)),
    (prefixb (lit "&&") (c :: r)), (prefixb (lit "||") (c :: r));
    cbn [negb andb orb];
    (split;
     [ intros (_ & _ & H1 & _ & _ & (H2 & H3 & H4) & H5 & H6);
       first [ congruence | split; [congruence | reflexivity] ]
     | intros [-> H]; first [ discriminate H | repeat split; reflexivity ] ]).
Qed.

(** X5: a MISMATCH token always holds exactly one code unit, and that code
    unit is neither white space, nor a digit, nor a letter or underscore,
    nor one of the characters [+-*/=<>!(){};,] that are an operator or a
    separator of their own.  The lexer produces it exactly at such a code
    unit, unless that is a double quote with another one behind it (a string
    literal) or the first of two ampersands or of two vertical bars (an
    operator): an ampersand or a vertical bar that stands alone and a double
    quote that is never closed are MISMATCH tokens. *)
Theorem mismatch_tokens (code : jsstring) :
  (exists ts,
     Lexer.tokenize code = Lexer.Tokens ts /\
     Forall (fun t =>
               type t = MISMATCH ->
               exists c, value t = [c] /\ isWhitespace c = false /\
                 isDigit c = false /\ isIdentStart c = false /\
                 one_of punctuation c = false) ts) /\
  (forall c r v,
     isWhitespace c = false ->
     (Lexer.firstMatch Lexer.tokenSpecs (c :: r) = Some (MISMATCH, v) <->
      v = [c] /\ catchAllAt c r = true)) /\
  Lexer.tokenize (lit "a & b | c") =
    Lexer.Tokens [mkToken IDENTIFIER (lit "a") 1 1;
                  mkToken MISMATCH (lit "&") 1 3;
                  mkToken IDENTIFIER (lit "b") 1 5;
                  mkToken MISMATCH (lit "|") 1 7;
                  mkToken IDENTIFIER (lit "c") 1 9].
Proof.
  split; [|split; [exact catchAllAt_spec | reflexivity]].
  destruct (tokenize_matched code) as (ts & Hts & Hall).
  exists ts. split; [exact Hts|].
  revert Hall. apply Forall_impl. exact matched_mismatch.
Qed.

(** *** Two-character operators *)

(** X6: at the characters of a two-character operator the lexer produces
    that operator as one token, whatever follows: the two-character
    alternatives stand before the one-character ones. *)
Theorem compound_operators :
  Forall (fun o => forall rest,
            Lexer.firstMatch Lexer.tokenSpecs (o ++ rest) = Some (OPERATOR, o))
         (map lit ["=="; "!="; "<="; ">="; "&&"; "||"]%string).
Proof. repeat constructor. Qed.

(** *** Operators that are never produced *)

Lemma firstMatch_no_increment s ty v :
  Lexer.firstMatch Lexer.tokenSpecs s = Some (ty, v) ->
  v <> lit "++" /\ v <> lit "--".
Proof.
  intros Hm. pose proof (firstMatch_prefix _ _ _ Hm) as [_ Hs].
  split; intros ->; rewrite Hs in Hm; discriminate Hm.
Qed.

(** X7: no token has the text [++] or [--]: the operator rule has no such
    alternative, so [i++] is lexed as [i], [+], [+]. *)
Theorem no_increment_token (code : jsstring) :
  exists ts,
    Lexer.tokenize code = Lexer.Tokens ts /\
    Forall (fun t => value t <> lit "++" /\ value t <> lit "--") ts.
Proof.
  destruct (tokenize_matched code) as (ts & Hts & Hall).
  exists ts. split; [exact Hts|].
  revert Hall. apply Forall_impl. intros t (c & r & _ & Hm).
  eapply firstMatch_no_increment. exact Hm.
Qed.

(** *** Columns on one line *)

Lemma countNewlines_app a b :
  Lexer.countNewlines (a ++ b) =
  (Lexer.countNewlines a + Lexer.countNewlines b)%Z.
Proof.
  unfold Lexer.countNewlines. rewrite filter_app, length_app.
  apply Nat2Z.inj_add.
Qed.

Lemma countNewlines_nonneg a : (0 <= Lexer.countNewlines a)%Z.
Proof. unfold Lexer.countNewlines. lia. Qed.

Lemma skipWhitespace_same_line ws l c :
  Lexer.countNewlines ws = 0%Z ->
  Lexer.skipWhitespace ws l c = (l, (c + Lexer.strlen ws)%Z).
Proof.
  intros H. unfold Lexer.skipWhitespace. rewrite H. cbn [Z.ltb Z.compare].
  destruct ws; [|reflexivity]. unfold Lexer.strlen. simpl. f_equal. lia.
Qed.

Lemma substr_middle (pre v rest : jsstring) :
  substr (pre ++ v ++ rest) (length pre) (length v) = v.
Proof.
  unfold substr. rewrite skipn_app_length.
  rewrite firstn_app, Nat.sub_diag, firstn_all. simpl. apply app_nil_r.
Qed.

Lemma tokenize_loop_columns fuel : forall pre remainingCode l ts,
  Lexer.countNewlines remainingCode = 0%Z ->
  Lexer.tokenize_loop fuel remainingCode l (1 + Lexer.strlen pre)%Z =
    Lexer.Tokens ts ->
  Forall (fun t => line t = l /\ textAtColumn (pre ++ remainingCode) t) ts.
Proof.
  induction fuel as [|fuel IH]; intros pre rem l ts Hnl;
    (destruct rem as [|c0 rem0]; [intros [= <-]; now constructor|]);
    rewrite tokenize_loop_step by discriminate; cbv zeta;
    pose proof (takeWhile_dropWhile isWhitespace (c0 :: rem0)) as Hsplit;
    set (ws := takeWhile isWhitespace (c0 :: rem0)) in *;
    set (rem1 := dropWhile isWhitespace (c0 :: rem0)) in *;
    clearbody ws rem1; rewrite <- Hsplit in *.
  all: rewrite countNewlines_app in Hnl;
    pose proof (countNewlines_nonneg ws) as Hws;
    pose proof (countNewlines_nonneg rem1) as Hrem.
  all: rewrite ?skipWhitespace_same_line by lia; cbn [fst snd].
  all: destruct (nonempty ws && negb (nonempty rem1));
    try (intros [= <-]; now constructor);
    destruct (Lexer.firstMatch _ rem1) as [[ty v]|] eqn:Hm;
    try discriminate;
    try (destruct (nonempty rem1); discriminate).
  - intros H. apply push_tokens in H as (ts' & Hts' & ->).
    destruct (firstMatch_prefix _ _ _ Hm) as [Hv Hpre].
    set (rest := skipn (length v) rem1) in *.
    assert (Hrest : Lexer.countNewlines rest = 0%Z).
    { rewrite Hpre, countNewlines_app in Hnl.
      pose proof (countNewlines_nonneg v).
      pose proof (countNewlines_nonneg rest). lia. }
    clearbody rest. subst rem1.
    replace (1 + Lexer.strlen pre + Lexer.strlen ws + Lexer.strlen v)%Z
      with (1 + Lexer.strlen ((pre ++ ws) ++ v))%Z in Hts'
      by (unfold Lexer.strlen; rewrite !length_app; lia).
    apply IH in Hts'; [|exact Hrest].
    constructor.
    + split; [reflexivity|]. unfold textAtColumn. cbn [col value].
      split; [unfold Lexer.strlen; lia|].
      replace (Z.to_nat _) with (length (pre ++ ws))
        by (unfold Lexer.strlen; rewrite length_app; lia).
      rewrite app_assoc. apply substr_middle.
    + revert Hts'. apply Forall_impl. intros t.
      now rewrite <- !app_assoc.
  - destruct (nonempty rem1) eqn:Hne; [discriminate|].
    destruct rem1; [|discriminate].
    intros H.
    replace (1 + Lexer.strlen pre + Lexer.strlen ws)%Z
      with (1 + Lexer.strlen (pre ++ ws))%Z in H
      by (unfold Lexer.strlen; rewrite !length_app; lia).
    apply IH in H; [|reflexivity].
    revert H. apply Forall_impl. intros t.
    now rewrite <- !app_assoc.
Qed.

(** X8: in a source without a newline every token is on line 1 and its
    column is the 1-based index of its text in the source: the text of the
    token is the substring of the source that starts at [col - 1]. *)
Theorem columns_are_offsets (code : jsstring) :
  Lexer.countNewlines code = 0%Z ->
  exists ts,
    Lexer.tokenize code = Lexer.Tokens ts /\
    Forall (fun t => line t = 1%Z /\ textAtColumn code t) ts.
Proof.
  intros Hnl.
  destruct (tokenize_loop_total (length code) code 1 1 (le_n _)) as (ts & H & _).
  exists ts. split; [exact H|].
  exact (tokenize_loop_columns _ [] code 1 ts Hnl H).
Qed.

Lemma columns_are_offsets_witness :
  Lexer.countNewlines (lit "x  = 12;") = 0%Z /\
  exists ts,
    Lexer.tokenize (lit "x  = 12;") = Lexer.Tokens ts /\
    Forall (fun t => line t = 1%Z /\ textAtColumn (lit "x  = 12;") t) ts.
Proof.
  split; [reflexivity|]. apply columns_are_offsets. reflexivity.
Defined.

(** ** Parser *)

Lemma bind_Ok {S A B} (m : M S A) (k : A -> M S B) st b st' :
  bind m k st = Ok b st' ->
  exists a st1, m st = Ok a st1 /\ k a st1 = Ok b st'.
Proof.
  unfold bind. destruct (m st) as [a st1| |]; try discriminate. eauto.
Qed.

Lemma bind_eq {S A B} (m : M S A) (k : A -> M S B) st a st1 :
  m st = Ok a st1 -> bind m k st = k a st1.
Proof. unfold bind. now intros ->. Qed.

(** [error] records one message and consumes the current token, if any. *)
Lemma error_spec tokens m st :
  exists e,
    Parser.error tokens m None st =
    Ok tt (Parser.mkState
             (match nth_error tokens (Parser.pos st) with
              | Some _ => S (Parser.pos st)
              | None => Parser.pos st
              end)
             (Parser.errors st ++ [e])).
Proof.
  unfold Parser.error, Parser.currentToken, Parser.pushError, bind.
  destruct (nth_error tokens (Parser.pos st)); eexists; reflexivity.
Qed.




Ltac invert_binds H :=
  repeat (let a := fresh "a" in
          let st := fresh "st" in
          let E := fresh "E" in
          apply bind_Ok in H as (a & st & E & H)).












(** *** Panic-mode recovery *)

Lemma skipToTerminator_spec rest : forall p,
  let q := Parser.skipToTerminator rest p in
  p <= q /\
  (forall i, p <= i < q ->
     exists tk, nth_error rest (i - p) = Some tk /\ isTerminator tk = false) /\
  (forall tk, nth_error rest (q - p) = Some tk -> isTerminator tk = true).
Proof.
  induction rest as [|t rest IH]; intros p; cbn [Parser.skipToTerminator].
  - cbv zeta. split; [lia|]. split; [intros i Hi; lia|].
    intros tk. rewrite Nat.sub_diag. discriminate.
  - fold (isTerminator t). destruct (isTerminator t) eqn:Et; cbv zeta.
    + split; [lia|]. split; [intros i Hi; lia|].
      intros tk. rewrite Nat.sub_diag. now intros [= <-].
    + destruct (IH (S p)) as (Hle & Hskip & Hstop). cbv zeta in *.
      set (q := Parser.skipToTerminator rest (S p)) in *.
      split; [lia|]. split.
      * intros i Hi. destruct (Nat.eq_dec i p) as [->|Hne].
        -- rewrite Nat.sub_diag. exists t. split; [reflexivity | exact Et].
        -- destruct (Hskip i ltac:(lia)) as (tk & Htk & Hn).
           exists tk. split; [|exact Hn].
           replace (i - p) with (S (i - S p)) by lia. exact Htk.
      * intros tk Htk. apply Hstop.
        replace (q - p) with (S (q - S p)) in Htk by lia. exact Htk.
Qed.

Lemma recover_spec tokens st :
  exists st', Parser.recover tokens st = Ok tt st' /\ recovered tokens st st'.
Proof.
  unfold Parser.recover.
  set (p := Parser.skipToTerminator _ _).
  destruct (skipToTerminator_spec (skipn (Parser.pos st) tokens) (Parser.pos st))
    as (Hle & Hskip & Hstop). cbv zeta in *. fold p in Hle, Hskip, Hstop.
  assert (Hft : first_terminator tokens (Parser.pos st) p).
  { split; [exact Hle|]. split.
    - intros i Hi. destruct (Hskip i Hi) as (tk & Htk & Hn).
      exists tk. split; [|exact Hn].
      rewrite nth_error_skipn in Htk.
      replace (Parser.pos st + (i - Parser.pos st)) with i in Htk by lia.
      exact Htk.
    - intros tk Htk. apply Hstop. rewrite nth_error_skipn.
      replace (Parser.pos st + (p - Parser.pos st)) with p by lia. exact Htk. }
  destruct (Parser.valueIs ";" (nth_error tokens p)) eqn:Ev.
  - eexists. split; [reflexivity|]. exists p. rewrite Ev.
    split; [exact Hft | split; reflexivity].
  - eexists. split; [reflexivity|]. exists p. rewrite Ev.
    split; [exact Hft | split; reflexivity].
Qed.






(** *** The exception of parseAssignment *)

(** C1 (the code fails it): for the tokens of [int main() { printf = 1; }]
    the call of [parse] throws. *)
Theorem assignment_to_printf_throws :
  Lexer.tokenize (lit "int main() { printf = 1; }") =
    Lexer.Tokens printf_assignment /\
  Parser.parse printf_assignment = Parser.Thrown.
Proof. split; vm_compute; reflexivity. Qed.

Example empty_increment_throws :
  Lexer.tokenize (lit "int main() { for (int i = 0; i < 2; ) { } }") =
    Lexer.Tokens empty_increment /\
  Parser.parse empty_increment = Parser.Thrown.
Proof. split; vm_compute; reflexivity. Qed.

Example assignment_parses :
  Parser.parse
    [kw "int" 1; ident "main" 5; sep "(" 9; sep ")" 10; sep "{" 12;
     ident "x" 14; op "=" 16; int_lit "1" 18; sep ";" 19; sep "}" 21] =
  Parser.Parsed
    (ProgramNode
       [FunctionDefinitionNode (lit "int") (ident "main" 5) []
          (BlockNode [AssignmentNode (ident "x" 14) (NumberNode (int_lit "1" 18))])])
    [].
Proof. vm_compute. reflexivity. Qed.

(** *** The parser needs no more fuel than it is given *)

Lemma runs_bind {T U} (m : Parser.P T) (k : T -> Parser.P U) st Q :
  runs m st (fun a st1 => runs (k a) st1 Q) -> runs (bind m k) st Q.
Proof. unfold runs, bind. destruct (m st); auto. Qed.

Lemma runs_weaken {T} (p : Parser.P T) st (Q Q' : T -> Parser.State -> Prop) :
  runs p st Q -> (forall a st', Q a st' -> Q' a st') -> runs p st Q'.
Proof. unfold runs. destruct (p st); auto. Qed.

Lemma runs_ret {T} (a : T) st (Q : T -> Parser.State -> Prop) :
  Q a st -> runs (ret a) st Q.
Proof. auto. Qed.

Lemma runs_throw {T} st (Q : T -> Parser.State -> Prop) : runs throw st Q.
Proof. exact I. Qed.

Section Termination.

Variable tokens : list Token.

Lemma token_exists st t :
  nth_error tokens (Parser.pos st) = Some t -> Parser.pos st < length tokens.
Proof. intros H. apply nth_error_Some. congruence. Qed.

Lemma valueIs_exists s st :
  Parser.valueIs s (nth_error tokens (Parser.pos st)) = true ->
  Parser.pos st < length tokens.
Proof.
  destruct (nth_error tokens (Parser.pos st)) eqn:E; [|discriminate].
  intros _. eapply token_exists; eauto.
Qed.

Lemma runs_currentToken st (Q : option Token -> Parser.State -> Prop) :
  Q (nth_error tokens (Parser.pos st)) st -> runs (Parser.currentToken tokens) st Q.
Proof. auto. Qed.

Lemma runs_nextToken st (Q : option Token -> Parser.State -> Prop) :
  Q (nth_error tokens (Parser.pos st + 1)) st -> runs (Parser.nextToken tokens) st Q.
Proof. auto. Qed.

Lemma runs_advance st (Q : unit -> Parser.State -> Prop) :
  Q tt (Parser.mkState (S (Parser.pos st)) (Parser.errors st)) ->
  runs Parser.advance st Q.
Proof. auto. Qed.

Lemma runs_getErrors st (Q : list Parser.SyntaxError -> Parser.State -> Prop) :
  Q (Parser.errors st) st -> runs Parser.getErrors st Q.
Proof. auto. Qed.

Lemma runs_error m st :
  Parser.pos st <= length tokens ->
  runs (Parser.error tokens m None) st (consumes tokens st).
Proof.
  intros Hb. destruct (error_spec tokens m st) as [e He].
  unfold runs. rewrite He. unfold consumes. cbn [Parser.pos].
  destruct (nth_error tokens (Parser.pos st)) eqn:E.
  - apply token_exists in E. lia.
  - apply nth_error_None in E. lia.
Qed.

Lemma runs_expect ty v st :
  Parser.pos st <= length tokens ->
  runs (Parser.expect tokens ty v) st (consumes tokens st).
Proof.
  intros Hb. unfold runs, Parser.expect, Parser.currentToken, bind at 1.
  destruct (Parser.typeIs ty _ && _) eqn:E.
  - apply andb_prop in E as [E _].
    destruct (nth_error tokens (Parser.pos st)) eqn:Et; [|discriminate].
    apply token_exists in Et. unfold consumes. simpl. lia.
  - unfold Parser.error, Parser.currentToken, Parser.pushError, bind.
    unfold consumes.
    destruct (nth_error tokens (Parser.pos st)) eqn:Et; simpl.
    + apply token_exists in Et. lia.
    + apply nth_error_None in Et. lia.
Qed.

Lemma runs_newIdentifier t st (Q : Token -> Parser.State -> Prop) :
  (forall tk, t = Some tk -> Q tk st) -> runs (Parser.newIdentifier t) st Q.
Proof.
  destruct t as [tk|]; [intros H; exact (H tk eq_refl) | intros _; exact I].
Qed.

Ltac bound :=
  try assumption;
  unfold steps, consumes, remaining in *; cbn [Parser.pos] in *;
  repeat match goal with
         | H : Parser.valueIs _ (nth_error tokens (Parser.pos _)) = true |- _ =>
             apply valueIs_exists in H
         | H : nth_error tokens (Parser.pos _) = Some _ |- _ =>
             apply token_exists in H
         | H : nth_error tokens (Parser.pos _) = None |- _ =>
             apply nth_error_None in H
         end;
  try lia.

(** One call of a bind chain, with the lemma about the method called. *)
Ltac call spec :=
  apply runs_bind; eapply runs_weaken;
  [apply spec; bound | cbv beta; intros ? ? ?].

Ltac look :=
  apply runs_bind;
  lazymatch goal with
  | |- runs (Parser.currentToken _) _ _ => apply runs_currentToken
  | |- runs (Parser.nextToken _) _ _ => apply runs_nextToken
  | |- runs Parser.getErrors _ _ => apply runs_getErrors
  | |- runs Parser.advance _ _ => apply runs_advance
  end; cbv beta.

Lemma argumentLoop_runs sub d fuel : forall args st,
  fineBelow tokens d sub ->
  Parser.pos st <= length tokens -> remaining tokens st <= d -> remaining tokens st <= fuel ->
  runs (Parser.argumentLoop tokens sub fuel args) st (steps tokens st).
Proof.
  induction fuel as [|fuel IH]; intros args st Hsub Hb Hd Hf;
    cbn [Parser.argumentLoop]; look;
    destruct (Parser.valueIs "," _) eqn:E;
    try (apply runs_ret; bound).
  - bound.
  - look. call Hsub.
    eapply runs_weaken; [apply IH; auto; bound | cbv beta; intros; bound].
Qed.

Lemma parseArguments_runs sub d fuel st :
  fineBelow tokens d sub ->
  Parser.pos st <= length tokens -> remaining tokens st < d -> remaining tokens st <= fuel ->
  runs (Parser.parseArguments tokens sub fuel) st (steps tokens st).
Proof.
  intros Hsub Hb Hd Hf. unfold Parser.parseArguments. look.
  destruct (negb _); [|apply runs_ret; bound].
  call Hsub.
  eapply runs_weaken;
    [apply (argumentLoop_runs sub d); auto; bound | cbv beta; intros; bound].
Qed.

Lemma parseFunctionCallExpression_runs sub d fuel st :
  fineBelow tokens d sub ->
  Parser.pos st < length tokens -> remaining tokens st < S d -> remaining tokens st <= fuel ->
  runs (Parser.parseFunctionCallExpression tokens sub fuel) st (steps tokens st).
Proof.
  intros Hsub Hb Hd Hf. unfold Parser.parseFunctionCallExpression.
  call runs_expect. call runs_expect.
  call (parseArguments_runs sub d). call runs_expect.
  apply runs_bind, runs_newIdentifier. intros tk _.
  apply runs_ret. bound.
Qed.

Lemma parsePrimary_runs sub d fuel :
  length tokens <= fuel ->
  fineBelow tokens d sub -> fineBelow tokens (S d) (Parser.parsePrimary tokens sub fuel).
Proof.
  intros Hfuel Hsub st Hb Hd. unfold Parser.parsePrimary. look.
  destruct (nth_error tokens (Parser.pos st)) as [tk|] eqn:Etk.
  - look.
    repeat match goal with
           | |- runs (if ?c then _ else _) _ _ => destruct c
           end.
    + apply (parseFunctionCallExpression_runs sub d); auto; bound.
    + look. apply runs_ret. bound.
    + look. apply runs_ret. bound.
    + look. apply runs_ret. bound.
    + look. call Hsub. call runs_expect. apply runs_ret. bound.
    + call runs_error. apply runs_ret. bound.
  - call runs_error. apply runs_ret. bound.
Qed.

Lemma binaryLoop_runs isOp operand d fuel : forall n st,
  fineBelow tokens d operand ->
  Parser.pos st <= length tokens -> remaining tokens st <= d -> remaining tokens st <= fuel ->
  runs (Parser.binaryLoop tokens isOp operand fuel n) st (steps tokens st).
Proof.
  induction fuel as [|fuel IH]; intros n st Hop Hb Hd Hf;
    cbn [Parser.binaryLoop]; look;
    (destruct (nth_error tokens (Parser.pos st)) as [otk|] eqn:Eo;
     [|apply runs_ret; bound]);
    (destruct (isOp _); [|apply runs_ret; bound]).
  - bound.
  - look. call Hop.
    eapply runs_weaken; [apply IH; auto; bound | cbv beta; intros; bound].
Qed.

(** A level of binary operators over its operand. *)
Lemma level_runs isOp operand d fuel :
  length tokens <= fuel ->
  fineBelow tokens d operand ->
  fineBelow tokens d
    (bind operand (fun n => Parser.binaryLoop tokens isOp operand fuel n)).
Proof.
  intros Hfuel Hop st Hb Hd. call Hop.
  eapply runs_weaken;
    [apply (binaryLoop_runs isOp operand d); auto; bound
    | cbv beta; intros; bound].
Qed.

Lemma parseExpression_runs fuel :
  length tokens <= fuel ->
  forall depth, fineBelow tokens depth (Parser.parseExpression tokens fuel depth).
Proof.
  intros Hfuel. induction depth as [|depth IH]; intros st Hb Hd.
  - unfold remaining in Hd. lia.
  - revert st Hb Hd. cbn [Parser.parseExpression].
    unfold Parser.parseLogicalOr, Parser.parseLogicalAnd,
      Parser.parseComparison, Parser.parseTerm, Parser.parseFactor.
    repeat (apply level_runs; [exact Hfuel|]).
    now apply parsePrimary_runs.
Qed.

(** With more fuel than tokens, an expression is parsed from any place. *)
Lemma expression_runs fuel st :
  length tokens < fuel -> Parser.pos st <= length tokens ->
  runs (Parser.parseExpression tokens fuel fuel) st (steps tokens st).
Proof.
  intros Hfuel Hb. apply parseExpression_runs; [lia | exact Hb|].
  unfold remaining. lia.
Qed.

Section Statements.

Variable fuel : nat.
Hypothesis enough : length tokens < fuel.

Lemma expression_consumes st :
  Parser.pos st <= length tokens ->
  runs (Parser.parseExpression tokens fuel fuel) st (steps tokens st).
Proof. now apply expression_runs. Qed.

Lemma parseVariableDeclaration_runs st :
  Parser.pos st <= length tokens ->
  runs (Parser.parseVariableDeclaration tokens fuel) st (consumes tokens st).
Proof.
  intros Hb. unfold Parser.parseVariableDeclaration.
  call runs_expect. call runs_expect.
  destruct a as [ttk|], a0 as [ntk|]; try (apply runs_ret; bound).
  look. apply runs_bind.
  destruct (Parser.valueIs "=" _) eqn:E.
  - look. eapply runs_weaken; [apply expression_consumes; bound|].
    cbv beta. intros ? ? ?. call runs_expect. apply runs_ret. bound.
  - apply runs_ret. call runs_expect. apply runs_ret. bound.
Qed.

Lemma parseAssignment_runs b st :
  Parser.pos st <= length tokens ->
  runs (Parser.parseAssignment tokens fuel b) st (consumes tokens st).
Proof.
  intros Hb. unfold Parser.parseAssignment.
  call runs_expect. apply runs_bind, runs_newIdentifier. intros tk _.
  call runs_expect. call expression_consumes.
  apply runs_bind. destruct (negb b).
  - call runs_expect. apply runs_ret, runs_ret. bound.
  - apply runs_ret, runs_ret. bound.
Qed.

Lemma parseFunctionCallStatement_runs st :
  Parser.pos st <= length tokens ->
  runs (Parser.parseFunctionCallStatement tokens fuel) st (consumes tokens st).
Proof.
  intros Hb. unfold Parser.parseFunctionCallStatement. look.
  destruct (nth_error tokens (Parser.pos st)) as [ntk|] eqn:E;
    [|apply runs_throw].
  destruct (negb _ && negb _).
  - call runs_error. apply runs_ret. bound.
  - look. call runs_expect.
    call (parseArguments_runs (Parser.parseExpression tokens fuel fuel) fuel).
    + intros s Hs _. now apply expression_consumes.
    + call runs_expect. call runs_expect. apply runs_ret. bound.
Qed.

Lemma parseReturnStatement_runs st :
  Parser.pos st <= length tokens ->
  runs (Parser.parseReturnStatement tokens fuel) st (consumes tokens st).
Proof.
  intros Hb. unfold Parser.parseReturnStatement.
  call runs_expect. look. apply runs_bind. destruct (negb _).
  - eapply runs_weaken; [apply expression_consumes; bound|].
    cbv beta. intros ? ? ?. call runs_expect. apply runs_ret. bound.
  - apply runs_ret. call runs_expect. apply runs_ret. bound.
Qed.

Lemma parseIfStatement_runs pb d st :
  fineBelow tokens d pb ->
  Parser.pos st < length tokens -> remaining tokens st < S d ->
  runs (Parser.parseIfStatement tokens fuel pb) st (consumes tokens st).
Proof.
  intros Hpb Hb Hd. unfold Parser.parseIfStatement.
  call runs_expect. call runs_expect. call expression_consumes.
  call runs_expect. call Hpb. look. apply runs_bind.
  destruct (Parser.valueIs "else" _) eqn:E.
  - look. eapply runs_weaken; [apply Hpb; bound|].
    cbv beta. intros ? ? ?. apply runs_ret. bound.
  - apply runs_ret, runs_ret. bound.
Qed.

Lemma parseForLoop_runs pb d st :
  fineBelow tokens d pb ->
  Parser.pos st < length tokens -> remaining tokens st < S d ->
  runs (Parser.parseForLoop tokens fuel pb) st (consumes tokens st).
Proof.
  intros Hpb Hb Hd. unfold Parser.parseForLoop.
  call runs_expect. call runs_expect. call parseVariableDeclaration_runs.
  call expression_consumes. call runs_expect. call parseAssignment_runs.
  call runs_expect. call Hpb. apply runs_ret. bound.
Qed.

(** A statement consumes a token. *)
Lemma parseStatement_runs pb d st :
  fineBelow tokens d pb ->
  Parser.pos st < length tokens -> remaining tokens st < S d ->
  runs (Parser.parseStatement tokens fuel pb) st (consumes tokens st).
Proof.
  intros Hpb Hb Hd. unfold Parser.parseStatement. look.
  destruct (nth_error tokens (Parser.pos st)) as [tk|] eqn:E;
    [|apply runs_ret; bound].
  repeat match goal with
         | |- runs (if ?c then _ else _) _ _ => destruct c
         end.
  - apply parseVariableDeclaration_runs. bound.
  - now apply (parseIfStatement_runs pb d).
  - now apply (parseForLoop_runs pb d).
  - apply parseReturnStatement_runs. bound.
  - look.
    repeat match goal with
           | |- runs (if ?c then _ else _) _ _ => destruct c
           end.
    + apply parseFunctionCallStatement_runs. bound.
    + apply parseAssignment_runs. bound.
    + call runs_error. apply runs_ret. bound.
Qed.

Lemma recover_runs st :
  Parser.pos st <= length tokens ->
  runs (Parser.recover tokens) st (steps tokens st).
Proof.
  intros Hb. destruct (recover_spec tokens st) as (st' & E & p & Hft & _ & Hp).
  unfold runs. rewrite E. unfold steps. rewrite Hp.
  destruct Hft as (Hle & Hskip & _).
  assert (Hpn : p <= length tokens).
  { destruct (Nat.le_gt_cases p (length tokens)) as [H|H]; [exact H|].
    destruct (Hskip (length tokens) ltac:(lia)) as (tk & Htk & _).
    assert (length tokens < length tokens); [|lia].
    apply nth_error_Some. congruence. }
  destruct (Parser.valueIs ";" (nth_error tokens p)) eqn:Ev; [|lia].
  assert (p < length tokens); [|lia].
  destruct (nth_error tokens p) eqn:Et; [|discriminate].
  apply nth_error_Some. congruence.
Qed.

Lemma blockLoop_runs ps d loops : forall stmts st,
  (forall s, Parser.pos s < length tokens -> remaining tokens s < S d ->
     runs ps s (consumes tokens s)) ->
  Parser.pos st <= length tokens -> remaining tokens st < S d ->
  remaining tokens st <= loops ->
  runs (Parser.blockLoop tokens ps loops stmts) st (steps tokens st).
Proof.
  induction loops as [|loops IH]; intros stmts st Hps Hb Hd Hl;
    cbn [Parser.blockLoop]; look;
    (destruct (nth_error tokens (Parser.pos st)) as [tk|] eqn:E;
     [|apply runs_ret; bound]);
    (destruct (negb _); [|apply runs_ret; bound]).
  - bound.
  - call Hps. destruct (truthy a).
    + eapply runs_weaken; [apply IH; auto; bound | cbv beta; intros; bound].
    + look. apply runs_bind. destruct (0 <? _)%nat.
      * eapply runs_weaken; [apply recover_runs; bound|].
        cbv beta. intros ? ? ?.
        eapply runs_weaken; [apply IH; auto; bound | cbv beta; intros; bound].
      * apply runs_ret.
        eapply runs_weaken; [apply IH; auto; bound | cbv beta; intros; bound].
Qed.

Lemma parseBlock_runs :
  forall depth, fineBelow tokens depth (Parser.parseBlock tokens fuel depth).
Proof.
  induction depth as [|depth IH]; intros st Hb Hd.
  - unfold remaining in Hd. lia.
  - cbn [Parser.parseBlock]. call runs_expect.
    call (blockLoop_runs
            (Parser.parseStatement tokens fuel
               (Parser.parseBlock tokens fuel depth)) depth fuel).
    + intros s Hs Hds. now apply (parseStatement_runs _ depth).
    + call runs_expect. apply runs_ret. bound.
Qed.

Lemma block_runs st :
  Parser.pos st <= length tokens ->
  runs (Parser.parseBlock tokens fuel fuel) st (steps tokens st).
Proof. intros Hb. apply parseBlock_runs; [exact Hb | bound]. Qed.

Lemma parameterLoop_runs loops : forall params st,
  Parser.pos st <= length tokens -> remaining tokens st <= loops ->
  runs (Parser.parameterLoop tokens loops params) st (steps tokens st).
Proof.
  induction loops as [|loops IH]; intros params st Hb Hl;
    cbn [Parser.parameterLoop]; call runs_expect; call runs_expect; look;
    destruct (negb _) eqn:E; try (apply runs_ret; bound);
    apply negb_false_iff in E.
  - bound.
  - look.
    eapply runs_weaken; [apply IH; bound | cbv beta; intros; bound].
Qed.

(** A function definition consumes a token. *)
Lemma parseFunctionDefinition_runs st :
  Parser.pos st <= length tokens ->
  runs (Parser.parseFunctionDefinition tokens fuel) st (consumes tokens st).
Proof.
  intros Hb. unfold Parser.parseFunctionDefinition.
  call runs_expect. call runs_expect.
  destruct a as [tytk|], a0 as [ntk|]; try (apply runs_ret; bound).
  call runs_expect. look. apply runs_bind. destruct (negb _).
  - eapply runs_weaken; [apply parameterLoop_runs; bound|].
    cbv beta. intros ? ? ?. call runs_expect. call block_runs.
    apply runs_ret. bound.
  - apply runs_ret. call runs_expect. call block_runs.
    apply runs_ret. bound.
Qed.

Lemma parseLoop_runs loops : forall functions st,
  Parser.pos st <= length tokens -> remaining tokens st <= loops ->
  runs (Parser.parseLoop tokens fuel loops functions) st (fun _ _ => True).
Proof.
  induction loops as [|loops IH]; intros functions st Hb Hl;
    cbn [Parser.parseLoop]; look;
    (destruct (nth_error tokens (Parser.pos st)) as [tk|] eqn:E;
     [|apply runs_ret; exact I]).
  - bound.
  - call parseFunctionDefinition_runs. destruct (truthy a).
    + apply IH; bound.
    + look. destruct (0 <? _)%nat; [apply runs_ret; exact I|].
      apply IH; bound.
Qed.

End Statements.

End Termination.

(** The fuel [parse] gives its loops is enough. *)
Lemma parse_never_diverges (tokens : list Token) :
  Parser.parse tokens <> Parser.Diverged.
Proof.
  unfold Parser.parse.
  pose proof (parseLoop_runs tokens (S (length tokens)) ltac:(lia)
                (S (length tokens)) [] (Parser.mkState 0 [])) as H.
  unfold runs in H.
  destruct (Parser.parseLoop _ _ _ _ _); try discriminate.
  exfalso. apply H; unfold remaining; simpl; lia.
Qed.

(** *** What the parser consumes and builds *)

Lemma holds_bind {T U} (m : Parser.P T) (k : T -> Parser.P U) st Q :
  holds m st (fun a st1 => holds (k a) st1 Q) -> holds (bind m k) st Q.
Proof.
  unfold holds, bind. intros H b st' E.
  destruct (m st) as [a st1| |] eqn:Em; try discriminate. eapply H; eauto.
Qed.

Lemma holds_weaken {T} (p : Parser.P T) st (Q Q' : T -> Parser.State -> Prop) :
  holds p st Q -> (forall a st', Q a st' -> Q' a st') -> holds p st Q'.
Proof. unfold holds. eauto. Qed.

Lemma holds_ret {T} (a : T) st (Q : T -> Parser.State -> Prop) :
  Q a st -> holds (ret a) st Q.
Proof. intros H b st' [= <- <-]. exact H. Qed.

Lemma holds_throw {T} st (Q : T -> Parser.State -> Prop) : holds throw st Q.
Proof. intros b st' [=]. Qed.

Lemma holds_diverge {T} st (Q : T -> Parser.State -> Prop) : holds diverge st Q.
Proof. intros b st' [=]. Qed.

Section Soundness.

Variable tokens : list Token.

Lemma holds_currentToken st (Q : option Token -> Parser.State -> Prop) :
  Q (nth_error tokens (Parser.pos st)) st ->
  holds (Parser.currentToken tokens) st Q.
Proof. intros H b st' [= <- <-]. exact H. Qed.

Lemma holds_nextToken st (Q : option Token -> Parser.State -> Prop) :
  Q (nth_error tokens (Parser.pos st + 1)) st ->
  holds (Parser.nextToken tokens) st Q.
Proof. intros H b st' [= <- <-]. exact H. Qed.

Lemma holds_advance st (Q : unit -> Parser.State -> Prop) :
  Q tt (Parser.mkState (S (Parser.pos st)) (Parser.errors st)) ->
  holds Parser.advance st Q.
Proof. intros H b st' [= <- <-]. exact H. Qed.

Lemma holds_getErrors st (Q : list Parser.SyntaxError -> Parser.State -> Prop) :
  Q (Parser.errors st) st -> holds Parser.getErrors st Q.
Proof. intros H b st' [= <- <-]. exact H. Qed.

Lemma holds_newIdentifier t st (Q : Token -> Parser.State -> Prop) :
  (forall tk, t = Some tk -> Q tk st) -> holds (Parser.newIdentifier t) st Q.
Proof.
  destruct t as [tk|]; [intros H; apply holds_ret; now apply H | intros _].
  apply holds_throw.
Qed.

Lemma consumed_refl st : consumed tokens st st.
Proof. split; [lia|]. intros H. split; [exact H|]. intros i t Hi. lia. Qed.

(** One more token, which is acceptable. *)
Lemma consumed_step st0 st :
  consumed tokens st0 st ->
  (forall t, nth_error tokens (Parser.pos st) = Some t -> acceptable t) ->
  consumed tokens st0 (Parser.mkState (S (Parser.pos st)) (Parser.errors st)).
Proof.
  intros [Hle Hc] Hok. split; [simpl; lia|]. cbn [Parser.errors Parser.pos].
  intros He. destruct (Hc He) as [He0 Hall]. split; [exact He0|].
  intros i t Hi Ht. destruct (Nat.eq_dec i (Parser.pos st)) as [->|Hne].
  - now apply Hok.
  - apply (Hall i); [lia | exact Ht].
Qed.

(** A state with an error is reached from wherever the parser came. *)
Lemma consumed_failed st0 st st' :
  consumed tokens st0 st -> Parser.pos st <= Parser.pos st' ->
  Parser.errors st' <> [] -> consumed tokens st0 st'.
Proof. intros [Hle _] Hp He. split; [lia|]. intros H. congruence. Qed.

Lemma acceptable_type ty cur :
  ty <> MISMATCH -> Parser.typeIs ty cur = true ->
  forall t, cur = Some t -> acceptable t.
Proof.
  intros Hty H t Ht. subst cur. left. simpl in H. intros E. rewrite E in H.
  destruct ty; simpl in H; congruence.
Qed.

Lemma acceptable_value s cur :
  In (lit s) uncheckedValues -> Parser.valueIs s cur = true ->
  forall t, cur = Some t -> acceptable t.
Proof.
  intros Hin H t Ht. subst cur. right. simpl in H. apply str_eqb_eq in H.
  now rewrite H.
Qed.

Lemma app_nonempty {X} (l : list X) x : l ++ [x] <> [].
Proof. destruct l; discriminate. Qed.

Lemma sound_error {G : unit -> Prop} m st0 st :
  consumed tokens st0 st ->
  holds (Parser.error tokens m None) st
    (fun _ st' => consumed tokens st0 st' /\ Parser.errors st' <> []).
Proof.
  intros Hc b st' E. destruct (error_spec tokens m st) as [e He].
  rewrite He in E. injection E as _ <-. cbn [Parser.errors].
  split; [|apply app_nonempty].
  eapply consumed_failed; [exact Hc | | apply app_nonempty].
  cbn [Parser.pos]. destruct (nth_error _ _); lia.
Qed.

Lemma sound_expect ty v st0 st :
  ty <> MISMATCH -> consumed tokens st0 st ->
  holds (Parser.expect tokens ty v) st
    (fun r st' => consumed tokens st0 st' /\
                  (r = None -> Parser.errors st' <> [])).
Proof.
  intros Hty Hc. unfold Parser.expect.
  apply holds_bind, holds_currentToken.
  destruct (Parser.typeIs ty _ && _) eqn:E.
  - apply andb_prop in E as [E _].
    apply holds_bind, holds_advance, holds_ret. split.
    + apply consumed_step; [exact Hc|]. eapply acceptable_type; eauto.
    + intros Hn. rewrite Hn in E. discriminate.
  - apply holds_bind.
    assert (He : forall m,
      holds (Parser.error tokens m (nth_error tokens (Parser.pos st))) st
        (fun _ st' => consumed tokens st0 st' /\ Parser.errors st' <> [])).
    { intros m b st' Hb.
      unfold Parser.error, Parser.currentToken, Parser.pushError, bind in Hb.
      destruct (nth_error tokens (Parser.pos st)); injection Hb as _ <-;
        (split; [|apply app_nonempty]);
        (eapply consumed_failed; [exact Hc | simpl; lia | apply app_nonempty]). }
    eapply holds_weaken; [apply He|]. cbv beta. intros _ st' [H1 H2].
    apply holds_ret. split; [exact H1 | intros _; exact H2].
Qed.

Lemma sound_recover st0 st :
  consumed tokens st0 st -> Parser.errors st <> [] ->
  holds (Parser.recover tokens) st (fun _ st' => consumed tokens st0 st').
Proof.
  intros Hc He b st' E.
  destruct (recover_spec tokens st) as (st1 & E1 & p & (Hp & _) & Herr & Hpos).
  rewrite E1 in E. injection E as _ <-.
  eapply consumed_failed; [exact Hc | | congruence].
  rewrite Hpos. destruct (Parser.valueIs _ _); lia.
Qed.

(** One call of a bind chain, with the lemma about the method called. *)
Ltac sub spec :=
  apply holds_bind; eapply holds_weaken;
  [apply spec; try eassumption; try discriminate
  | cbv beta; intros ? ? [? ?]].

(** The same for the last call of a chain. *)
Ltac fin spec :=
  eapply holds_weaken;
  [apply spec; try eassumption; try discriminate
  | cbv beta; intros ? ? [? ?]].

Ltac peek :=
  apply holds_bind;
  lazymatch goal with
  | |- holds (Parser.currentToken _) _ _ => apply holds_currentToken
  | |- holds (Parser.nextToken _) _ _ => apply holds_nextToken
  | |- holds Parser.getErrors _ _ => apply holds_getErrors
  end; cbv beta.

(** [advance] behind a token that a test has found acceptable. *)
Ltac take :=
  apply holds_bind, holds_advance; cbv beta;
  match goal with
  | Hc : consumed tokens ?s0 ?s
    |- holds _ (Parser.mkState (S (Parser.pos ?s)) _) _ =>
      let H := fresh "Hc" in
      assert (H : consumed tokens s0
                    (Parser.mkState (S (Parser.pos s)) (Parser.errors s)));
      [ apply consumed_step; [exact Hc|];
        let t := fresh "t" in
        let Ht := fresh "Ht" in
        intros t;
        try match goal with
            | E : nth_error tokens (Parser.pos s) = _ |- _ => rewrite E
            end;
        intros Ht;
        first [ eapply acceptable_value; [| eassumption | exact Ht];
                unfold uncheckedValues; simpl; tauto
              | eapply acceptable_type; [| eassumption | exact Ht];
                discriminate
              | idtac ]
      | clear Hc ]
  end.

Ltac knowns :=
  unfold known, allKnown in *; cbn [operatorsKnown forallb];
  rewrite ?forallb_app; cbn [forallb];
  repeat match goal with
         | H : operatorsKnown _ = true |- _ => rewrite H; clear H
         | H : forallb operatorsKnown _ = true |- _ => rewrite H; clear H
         | H : existsb _ binaryOperators = true |- _ => rewrite H; clear H
         end;
  try reflexivity.

Ltac finish :=
  apply holds_ret; split; [assumption | first [assumption | exact I | knowns]].

Lemma sound_argumentLoop sub fuel : forall args,
  sound tokens known sub -> allKnown args ->
  sound tokens allKnown (Parser.argumentLoop tokens sub fuel args).
Proof.
  induction fuel as [|fuel IH]; intros args Hsub Hargs st0 st Hc;
    cbn [Parser.argumentLoop]; peek;
    destruct (Parser.valueIs "," _) eqn:E;
    try (apply holds_ret; split; assumption).
  - apply holds_diverge.
  - take. sub Hsub. apply IH; auto.
    unfold allKnown in *. rewrite forallb_app, Hargs. simpl.
    now rewrite H0.
Qed.

Lemma sound_parseArguments sub fuel :
  sound tokens known sub ->
  sound tokens allKnown (Parser.parseArguments tokens sub fuel).
Proof.
  intros Hsub st0 st Hc. unfold Parser.parseArguments. peek.
  destruct (negb _); [|apply holds_ret; split; [assumption|reflexivity]].
  sub Hsub. apply sound_argumentLoop; auto.
  unfold allKnown. simpl. now rewrite H0.
Qed.

Lemma sound_parseFunctionCallExpression sub fuel :
  sound tokens known sub ->
  sound tokens known (Parser.parseFunctionCallExpression tokens sub fuel).
Proof.
  intros Hsub st0 st Hc. unfold Parser.parseFunctionCallExpression.
  sub sound_expect. sub sound_expect. sub (sound_parseArguments sub fuel).
  sub sound_expect. apply holds_bind, holds_newIdentifier. intros tk _.
  apply holds_ret. split; assumption.
Qed.

Lemma sound_parsePrimary sub fuel :
  sound tokens known sub ->
  sound tokens known (Parser.parsePrimary tokens sub fuel).
Proof.
  intros Hsub st0 st Hc. unfold Parser.parsePrimary. peek.
  destruct (nth_error tokens (Parser.pos st)) as [tk|] eqn:Etk.
  - peek.
    destruct (Parser.typeIs IDENTIFIER (Some tk) && _) eqn:E1;
      [now apply sound_parseFunctionCallExpression|].
    destruct (Parser.typeIs STRING_LIT (Some tk)) eqn:E2;
      [take; apply holds_ret; split; [assumption|reflexivity]|].
    destruct (_ || _) eqn:E3.
    { take.
      - injection Ht as <-. left. intros Hm. simpl in E3. rewrite Hm in E3.
        discriminate.
      - apply holds_ret. split; [assumption|reflexivity]. }
    destruct (Parser.typeIs IDENTIFIER (Some tk)) eqn:E4;
      [take; apply holds_ret; split; [assumption|reflexivity]|].
    destruct (Parser.valueIs "(" (Some tk)) eqn:E5.
    + take. sub Hsub. sub sound_expect. apply holds_ret. split; assumption.
    + sub (@sound_error anything). apply holds_ret.
      split; [assumption|reflexivity].
  - sub (@sound_error anything). apply holds_ret.
    split; [assumption|reflexivity].
Qed.

Lemma sound_binaryLoop isOp operand fuel : forall n,
  levelOperator isOp -> sound tokens known operand -> known n ->
  sound tokens known (Parser.binaryLoop tokens isOp operand fuel n).
Proof.
  induction fuel as [|fuel IH]; intros n Hop Hsub Hn st0 st Hc;
    cbn [Parser.binaryLoop]; peek;
    (destruct (nth_error tokens (Parser.pos st)) as [otk|] eqn:Eo;
     [|finish]);
    (destruct (isOp (Some otk)) eqn:Ei; [|finish]).
  - apply holds_diverge.
  - destruct (Hop _ Ei) as [Hacc Hknown].
    take; [now injection Ht as <-|].
    sub Hsub. apply IH; auto. knowns.
Qed.

Lemma sound_level isOp operand fuel :
  levelOperator isOp -> sound tokens known operand ->
  sound tokens known
    (bind operand (fun n => Parser.binaryLoop tokens isOp operand fuel n)).
Proof.
  intros Hop Hsub st0 st Hc. sub Hsub. now apply sound_binaryLoop.
Qed.

Lemma level_operatorIn ops :
  (forall s, In s ops -> existsb (str_eqb (lit s)) binaryOperators = true) ->
  levelOperator (Parser.operatorIn ops).
Proof.
  intros Hops t H. unfold Parser.operatorIn in H.
  apply andb_prop in H as [Hty Hv]. split.
  - eapply acceptable_type; [|exact Hty|reflexivity]. discriminate.
  - apply existsb_exists in Hv as (s & Hin & Hs). simpl in Hs.
    apply str_eqb_eq in Hs. rewrite Hs. now apply Hops.
Qed.

Lemma level_valueIs s :
  In (lit s) uncheckedValues ->
  existsb (str_eqb (lit s)) binaryOperators = true ->
  levelOperator (Parser.valueIs s).
Proof.
  intros Hin Hk t H. split.
  - eapply acceptable_value; eauto.
  - simpl in H. apply str_eqb_eq in H. now rewrite H.
Qed.

Ltac operators :=
  intros ? Hin; simpl in Hin;
  repeat (destruct Hin as [<-|Hin]; [reflexivity|]); destruct Hin.

Lemma sound_parseExpression fuel depth :
  sound tokens known (Parser.parseExpression tokens fuel depth).
Proof.
  induction depth as [|depth IH]; [intros st0 st _; apply holds_diverge|].
  cbn [Parser.parseExpression].
  unfold Parser.parseLogicalOr, Parser.parseLogicalAnd,
    Parser.parseComparison, Parser.parseTerm, Parser.parseFactor.
  apply sound_level;
    [apply level_valueIs; [unfold uncheckedValues; simpl; tauto|reflexivity]|].
  apply sound_level;
    [apply level_valueIs; [unfold uncheckedValues; simpl; tauto|reflexivity]|].
  apply sound_level; [apply level_operatorIn; operators|].
  apply sound_level; [apply level_operatorIn; operators|].
  apply sound_level; [apply level_operatorIn; operators|].
  now apply sound_parsePrimary.
Qed.

(** A statement method returns a node with known operators, and records an
    error when it returns null behind a token. *)
Lemma sound_parseVariableDeclaration fuel :
  sound tokens known (Parser.parseVariableDeclaration tokens fuel).
Proof.
  intros st0 st Hc. unfold Parser.parseVariableDeclaration.
  sub sound_expect. sub sound_expect.
  destruct a as [ttk|]; [|finish].
  destruct a0 as [ntk|]; [|finish].
  peek. apply holds_bind.
  destruct (Parser.valueIs "=" _) eqn:E.
  - take. fin (sound_parseExpression fuel fuel).
    sub sound_expect. finish.
  - apply holds_ret. sub sound_expect. finish.
Qed.

Lemma sound_parseAssignment fuel b :
  sound tokens known (Parser.parseAssignment tokens fuel b).
Proof.
  intros st0 st Hc. unfold Parser.parseAssignment.
  sub sound_expect. apply holds_bind, holds_newIdentifier. intros tk _.
  sub sound_expect. sub (sound_parseExpression fuel fuel).
  apply holds_bind. destruct (negb b).
  - sub sound_expect. apply holds_ret. finish.
  - apply holds_ret. finish.
Qed.

Lemma sound_parseFunctionCallStatement fuel :
  sound tokens known (Parser.parseFunctionCallStatement tokens fuel).
Proof.
  intros st0 st Hc. unfold Parser.parseFunctionCallStatement. peek.
  destruct (nth_error tokens (Parser.pos st)) as [ntk|] eqn:En;
    [|apply holds_throw].
  destruct (negb _ && negb _) eqn:E.
  - sub (@sound_error anything). finish.
  - take.
    { injection Ht as <-. left. intros Hm. simpl in E. rewrite Hm in E.
      discriminate. }
    sub sound_expect.
    sub (sound_parseArguments (Parser.parseExpression tokens fuel fuel) fuel);
      [apply sound_parseExpression|].
    sub sound_expect. sub sound_expect. finish.
Qed.

Lemma sound_parseReturnStatement fuel :
  sound tokens known (Parser.parseReturnStatement tokens fuel).
Proof.
  intros st0 st Hc. unfold Parser.parseReturnStatement.
  sub sound_expect. peek. apply holds_bind. destruct (negb _).
  - fin (sound_parseExpression fuel fuel).
    sub sound_expect. finish.
  - apply holds_ret. sub sound_expect. finish.
Qed.

Lemma sound_parseIfStatement fuel pb :
  sound tokens known pb ->
  sound tokens known (Parser.parseIfStatement tokens fuel pb).
Proof.
  intros Hpb st0 st Hc. unfold Parser.parseIfStatement.
  sub sound_expect. sub sound_expect. sub (sound_parseExpression fuel fuel).
  sub sound_expect. sub Hpb. peek. apply holds_bind.
  destruct (Parser.valueIs "else" _) eqn:E.
  - take. fin Hpb. finish.
  - apply holds_ret. finish.
Qed.

Lemma sound_parseForLoop fuel pb :
  sound tokens known pb ->
  sound tokens known (Parser.parseForLoop tokens fuel pb).
Proof.
  intros Hpb st0 st Hc. unfold Parser.parseForLoop.
  sub sound_expect. sub sound_expect. sub (sound_parseVariableDeclaration fuel).
  sub (sound_parseExpression fuel fuel). sub sound_expect.
  sub (sound_parseAssignment fuel true). sub sound_expect. sub Hpb.
  finish.
Qed.

Lemma sound_parseStatement fuel pb :
  sound tokens known pb ->
  sound tokens known (Parser.parseStatement tokens fuel pb).
Proof.
  intros Hpb st0 st Hc. unfold Parser.parseStatement. peek.
  destruct (nth_error tokens (Parser.pos st)) as [tk|] eqn:Etk;
    [|finish].
  destruct (_ && Parser.valueIs "int" _);
    [now apply sound_parseVariableDeclaration|].
  destruct (_ && Parser.valueIs "if" _); [now apply sound_parseIfStatement|].
  destruct (_ && Parser.valueIs "for" _); [now apply sound_parseForLoop|].
  destruct (_ && Parser.valueIs "return" _);
    [now apply sound_parseReturnStatement|].
  peek.
  destruct (_ && Parser.valueIs "(" _);
    [now apply sound_parseFunctionCallStatement|].
  destruct (_ && Parser.valueIs "=" _); [now apply sound_parseAssignment|].
  sub (@sound_error anything). apply holds_ret.
  split; [assumption|reflexivity].
Qed.

Lemma sound_blockLoop ps fuel : forall stmts,
  sound tokens known ps -> allKnown stmts ->
  sound tokens allKnown (Parser.blockLoop tokens ps fuel stmts).
Proof.
  induction fuel as [|fuel IH]; intros stmts Hps Hs st0 st Hc;
    cbn [Parser.blockLoop]; peek;
    (destruct (nth_error tokens (Parser.pos st)) as [tk|] eqn:Etk;
     [|finish]);
    (destruct (negb _); [|finish]).
  - apply holds_diverge.
  - sub Hps. destruct (truthy a) eqn:Ea.
    + apply IH; auto. knowns.
    + peek. apply holds_bind.
      destruct (0 <? length (Parser.errors st'))%nat eqn:El.
      * eapply holds_weaken; [apply sound_recover; [eassumption|]|].
        -- apply Nat.ltb_lt in El. destruct (Parser.errors st');
             [simpl in El; lia | discriminate].
        -- cbv beta. intros _ st2 Hc2. now apply IH.
      * apply holds_ret. now apply IH.
Qed.

Lemma sound_parseBlock fuel depth :
  sound tokens known (Parser.parseBlock tokens fuel depth).
Proof.
  induction depth as [|depth IH]; [intros st0 st _; apply holds_diverge|].
  intros st0 st Hc. cbn [Parser.parseBlock].
  sub sound_expect.
  sub (sound_blockLoop
         (Parser.parseStatement tokens fuel (Parser.parseBlock tokens fuel depth))
         fuel []); [now apply sound_parseStatement | reflexivity |].
  sub sound_expect. finish.
Qed.

Lemma sound_parameterLoop fuel : forall params,
  sound tokens anything (Parser.parameterLoop tokens fuel params).
Proof.
  induction fuel as [|fuel IH]; intros params st0 st Hc;
    cbn [Parser.parameterLoop]; sub sound_expect; sub sound_expect; peek;
    (destruct (negb (Parser.valueIs "," _)) eqn:E;
     [apply holds_ret; split; [assumption|exact I]|]).
  - apply holds_diverge.
  - apply negb_false_iff in E. take. now apply IH.
Qed.

Lemma sound_parseFunctionDefinition fuel :
  sound tokens known (Parser.parseFunctionDefinition tokens fuel).
Proof.
  intros st0 st Hc. unfold Parser.parseFunctionDefinition.
  sub sound_expect. sub sound_expect.
  destruct a as [tytk|]; [|finish].
  destruct a0 as [ntk|]; [|finish].
  sub sound_expect. peek. apply holds_bind. destruct (negb _).
  - fin (sound_parameterLoop fuel []).
    sub sound_expect. sub (sound_parseBlock fuel fuel).
    finish.
  - apply holds_ret. sub sound_expect. sub (sound_parseBlock fuel fuel).
    finish.
Qed.

(** The loop of [parse] ends behind the last token unless an error is
    recorded. *)
Lemma sound_parseLoop fuel loops : forall functions st0 st,
  consumed tokens st0 st -> allKnown functions ->
  holds (Parser.parseLoop tokens fuel loops functions) st
    (fun fs st' => consumed tokens st0 st' /\ allKnown fs /\
       (Parser.errors st' = [] -> length tokens <= Parser.pos st')).
Proof.
  induction loops as [|loops IH]; intros functions st0 st Hc Hf;
    cbn [Parser.parseLoop]; peek;
    (destruct (nth_error tokens (Parser.pos st)) as [tk|] eqn:Etk;
     [|apply holds_ret; split; [assumption|split; [assumption|]];
       intros _; now apply nth_error_None]).
  - apply holds_diverge.
  - sub (sound_parseFunctionDefinition fuel). destruct (truthy a).
    + apply IH; auto. knowns.
    + peek. destruct (0 <? length (Parser.errors st'))%nat eqn:El.
      * apply holds_ret. split; [assumption|]. split; [assumption|].
        intros He. rewrite He in El. discriminate.
      * now apply IH.
Qed.

End Soundness.

Lemma parse_sound tokens ast :
  Parser.parse tokens = Parser.Parsed ast [] ->
  (forall t, In t tokens -> acceptable t) /\ known ast.
Proof.
  unfold Parser.parse. intros H.
  pose proof (sound_parseLoop tokens (S (length tokens)) (S (length tokens)) []
                (Parser.mkState 0 []) (Parser.mkState 0 [])
                (consumed_refl tokens _) eq_refl) as Hs.
  destruct (Parser.parseLoop _ _ _ _ _) as [fs st'| |] eqn:E; try discriminate.
  injection H as <- He. destruct (Hs _ _ E) as ((_ & Hc) & Hk & Hend).
  destruct (Hc He) as [_ Hall]. split; [|exact Hk].
  intros t Hin. apply In_nth_error in Hin as [i Hi].
  apply (Hall i); [|exact Hi]. cbn [Parser.pos].
  specialize (Hend He). assert (i < length tokens)
    by (apply nth_error_Some; congruence). lia.
Qed.

(** X9: [parse] needs no more steps than it is given: each iteration of
    each of its loops and each nested call consumes a token, so for every
    token sequence it either returns a program node with the errors, or
    throws. *)
Theorem parse_terminates (tokens : list Token) :
  Parser.parse tokens = Parser.Thrown \/
  exists functions errs,
    Parser.parse tokens = Parser.Parsed (ProgramNode functions) errs.
Proof.
  pose proof (parse_never_diverges tokens) as H. unfold Parser.parse in *.
  destruct (Parser.parseLoop _ _ _ _ _); [right; eauto | now left | congruence].
Qed.

(** *** Tokens the parser cannot take *)

Lemma mismatch_unacceptable t :
  matched t -> type t = MISMATCH -> ~ acceptable t.
Proof.
  intros Hm Hty [Hne|Hin]; [congruence|].
  destruct (matched_mismatch t Hm Hty) as (c & Hv & _ & _ & _ & Hp).
  rewrite Hv in Hin. unfold uncheckedValues in Hin. simpl in Hin.
  repeat (destruct Hin as [Hin|Hin];
          [try discriminate Hin; injection Hin as <-; discriminate Hp|]).
  destruct Hin.
Qed.

(** X10: a character the lexer could only pass on as a MISMATCH token never
    goes unnoticed: when the tokens of a source text hold such a token,
    [parse] does not return an empty list of errors; it records at least
    one syntax error or throws. *)
Theorem mismatch_is_reported (code : jsstring) (ts : list Token) :
  Lexer.tokenize code = Lexer.Tokens ts ->
  hasMismatch ts ->
  Parser.parse ts = Parser.Thrown \/
  exists ast e errs, Parser.parse ts = Parser.Parsed ast (e :: errs).
Proof.
  intros Hts (t & Hin & Hty).
  pose proof (parse_never_diverges ts) as Hnd.
  destruct (Parser.parse ts) as [ast errs| |] eqn:H;
    [right | now left | congruence].
  destruct errs as [|e errs]; [|eauto]. exfalso.
  apply parse_sound in H as [Hall _].
  apply (mismatch_unacceptable t); auto.
  apply tokenize_loop_matched in Hts. rewrite Forall_forall in Hts. auto.
Qed.

Lemma mismatch_is_reported_witness :
  Lexer.tokenize (lit "int x @") =
    Lexer.Tokens [mkToken KEYWORD (lit "int") 1 1;
                  mkToken IDENTIFIER (lit "x") 1 5;
                  mkToken MISMATCH (lit "@") 1 7] /\
  hasMismatch [mkToken KEYWORD (lit "int") 1 1;
               mkToken IDENTIFIER (lit "x") 1 5;
               mkToken MISMATCH (lit "@") 1 7] /\
  (Parser.parse [mkToken KEYWORD (lit "int") 1 1;
                 mkToken IDENTIFIER (lit "x") 1 5;
                 mkToken MISMATCH (lit "@") 1 7] = Parser.Thrown \/
   exists ast e errs,
     Parser.parse [mkToken KEYWORD (lit "int") 1 1;
                   mkToken IDENTIFIER (lit "x") 1 5;
                   mkToken MISMATCH (lit "@") 1 7] =
     Parser.Parsed ast (e :: errs)).
Proof.
  assert (Hm : hasMismatch [mkToken KEYWORD (lit "int") 1 1;
                            mkToken IDENTIFIER (lit "x") 1 5;
                            mkToken MISMATCH (lit "@") 1 7]).
  { eexists. split; [right; right; left; reflexivity | reflexivity]. }
  split; [reflexivity|]. split; [exact Hm|].
  exact (mismatch_is_reported (lit "int x @") _ eq_refl Hm).
Defined.

(** ** TAC generator *)

Lemma appends_refl st : appends st st.
Proof. exists []. now rewrite app_nil_r. Qed.

Lemma appends_trans st1 st2 st3 :
  appends st1 st2 -> appends st2 st3 -> appends st1 st3.
Proof.
  intros [l1 H1] [l2 H2]. exists (l1 ++ l2). rewrite H2, H1.
  now rewrite app_assoc.
Qed.

Lemma appends_emit op a1 a2 r st : appends st (TAC.emit op a1 a2 r st).
Proof. eexists. reflexivity. Qed.

Lemma appends_newTemp st : appends st (snd (TAC.newTemp st)).
Proof. exists []. simpl. now rewrite app_nil_r. Qed.

Lemma appends_newLabel st : appends st (snd (TAC.newLabel st)).
Proof. exists []. simpl. now rewrite app_nil_r. Qed.

Lemma appends_emitParams vs : forall st, appends st (TAC.emitParams vs st).
Proof.
  induction vs as [|v vs IH]; intros st; simpl; [apply appends_refl|].
  eapply appends_trans; [apply appends_emit | apply IH].
Qed.

Lemma appends_forEachNode ns :
  Forall (fun n => forall st, appends st (snd (TAC.visit n st))) ns ->
  forall st, appends st (TAC.forEachNode TAC.visit ns st).
Proof.
  induction 1 as [|n ns Hn _ IH]; intros st; simpl; [apply appends_refl|].
  eapply appends_trans; [apply Hn | apply IH].
Qed.

Lemma appends_mapNode ns :
  Forall (fun n => forall st, appends st (snd (TAC.visit n st))) ns ->
  forall st, appends st (snd (TAC.mapNode TAC.visit ns st)).
Proof.
  induction 1 as [|n ns Hn _ IH]; intros st; simpl; [apply appends_refl|].
  specialize (Hn st). destruct (TAC.visit n st) as [v st1].
  specialize (IH st1). destruct (TAC.mapNode TAC.visit ns st1) as [vs st2].
  simpl in *. eapply appends_trans; eauto.
Qed.

(** Names the state after each call inside a visit method, with the fact
    that the call only appended. *)
Ltac name_states :=
  repeat match goal with
    | |- context [TAC.newTemp ?s] =>
        let H := fresh "Happ" in
        pose proof (appends_newTemp s) as H;
        destruct (TAC.newTemp s); cbn [snd] in H
    | |- context [TAC.newLabel ?s] =>
        let H := fresh "Happ" in
        pose proof (appends_newLabel s) as H;
        destruct (TAC.newLabel s); cbn [snd] in H
    | IH : forall st, appends st (snd (TAC.visit ?n st))
      |- context [TAC.visit ?n ?s] =>
        let H := fresh "Happ" in
        pose proof (IH s) as H;
        destruct (TAC.visit n s); cbn [snd] in *
    | IH : forall st, appends st (snd (TAC.visit ?n st)),
      H0 : context [TAC.visit ?n ?s] |- _ =>
        let H := fresh "Happ" in
        pose proof (IH s) as H;
        destruct (TAC.visit n s); cbn [snd] in *
    end.

Ltac appends_chain :=
  cbn [snd];
  lazymatch goal with
  | |- appends ?s ?s => apply appends_refl
  | |- appends _ (TAC.emit _ _ _ _ _) =>
      eapply appends_trans; [|apply appends_emit]; appends_chain
  | |- appends _ (TAC.emitParams _ _) =>
      eapply appends_trans; [|apply appends_emitParams]; appends_chain
  | |- appends _ (if ?c then _ else _) => destruct c; appends_chain
  | |- appends _ ?s =>
      match goal with
      | H : appends _ s |- _ =>
          eapply appends_trans; [|exact H]; appends_chain
      end
  end.

Lemma visit_appends n : forall st, appends st (snd (TAC.visit n st)).
Proof.
  induction n using node_induction; intros st; cbn [TAC.visit].
  - apply appends_refl.
  - now apply appends_forEachNode.
  - name_states. appends_chain.
  - now apply appends_forEachNode.
  - destruct (truthy n); name_states; appends_chain.
  - name_states. appends_chain.
  - name_states. appends_chain.
  - apply appends_refl.
  - apply appends_refl.
  - apply appends_refl.
  - pose proof (appends_mapNode args H st) as Hm.
    destruct (TAC.mapNode TAC.visit args st) as [vs st1]. cbn [snd] in Hm.
    name_states. appends_chain.
  - name_states. appends_chain.
  - name_states. appends_chain.
  - destruct (truthy n); name_states; appends_chain.
  - apply appends_refl.
Qed.

Lemma skipn_length_app {A} (a b : list A) : skipn (length a) (a ++ b) = b.
Proof. induction a; simpl; auto. Qed.

Lemma emitted_spec n st :
  TAC.code (snd (TAC.visit n st)) = TAC.code st ++ TAC.emitted n st.
Proof.
  unfold TAC.emitted. destruct (visit_appends n st) as [lines H].
  rewrite H. now rewrite skipn_length_app.
Qed.

Lemma emitted_intro n st lines :
  TAC.code (snd (TAC.visit n st)) = TAC.code st ++ lines ->
  TAC.emitted n st = lines.
Proof. unfold TAC.emitted. intros ->. apply skipn_length_app. Qed.

Lemma emitted_Null st : TAC.emitted Null st = [].
Proof. apply emitted_intro. simpl. now rewrite app_nil_r. Qed.

(** *** Decimal numbers *)

Lemma digits_of_uint d :
  forallb isDigit (lit (DecimalString.NilEmpty.string_of_uint d)) = true.
Proof. induction d; simpl; auto. Qed.

Lemma showNat_digits n :
  showNat n <> [] /\ forallb isDigit (showNat n) = true.
Proof.
  unfold showNat, DecimalString.NilZero.string_of_uint.
  destruct (Nat.to_uint n) eqn:E; try (split; [discriminate|]);
    try reflexivity; rewrite <- E at 1; apply digits_of_uint.
Qed.

Lemma forallb_rev {A} (f : A -> bool) (l : list A) :
  forallb f (rev l) = forallb f l.
Proof.
  induction l as [|x l IH]; [reflexivity|]. simpl.
  rewrite forallb_app, IH. simpl. rewrite andb_true_r. apply andb_comm.
Qed.

(** *** Label declarations and jumps *)

Lemma label_declaration k :
  TAC.isLabelDeclaration (label k ++ lit ":") = true.
Proof.
  destruct (showNat_digits k) as [Hne Hd].
  unfold label, TAC.isLabelDeclaration. simpl app. cbv iota beta.
  change (lit ":") with [58%N]. rewrite rev_app_distr.
  cbn [rev app]. rewrite forallb_rev, Hd.
  destruct (rev (showNat k)) as [|d ds] eqn:E; [|reflexivity].
  apply (f_equal (@rev jschar)) in E. rewrite rev_involutive in E.
  simpl in E. congruence.
Qed.

Lemma jump_to_label k : TAC.isJump (lit "goto " ++ label k) = true.
Proof.
  destruct (showNat_digits k) as [Hne Hd].
  unfold label, TAC.isJump. simpl. rewrite Hd.
  destruct (showNat k); [congruence | reflexivity].
Qed.

Lemma label_is_no_jump k : TAC.isJump (label k ++ lit ":") = false.
Proof. reflexivity. Qed.

Lemma jump_is_no_label k :
  TAC.isLabelDeclaration (lit "goto " ++ label k) = false.
Proof. reflexivity. Qed.

Lemma branch_is_neither v target :
  TAC.isLabelDeclaration (branch v target) = false /\
  TAC.isJump (branch v target) = false.
Proof.
  unfold branch, TAC.instruction. simpl.
  destruct (TAC.isTruthy (TAC.orNull v)); split; reflexivity.
Qed.

Lemma count_app p (a b : list jsstring) :
  TAC.count p (a ++ b) = TAC.count p a + TAC.count p b.
Proof. unfold TAC.count. now rewrite filter_app, length_app. Qed.

(** *** The lowering of an if statement *)

Lemma truthy_false n : truthy n = false -> n = Null.
Proof. destruct n; simpl; congruence. Qed.

Lemma code_emit op a1 a2 r st :
  TAC.code (TAC.emit op a1 a2 r st) =
  TAC.code st ++
  [TAC.instruction op (TAC.orNull a1) (TAC.orNull a2) (TAC.orNull r)].
Proof. reflexivity. Qed.

Lemma instruction_label l :
  TAC.instruction l TAC.VNull TAC.VNull TAC.VNull = l ++ lit ":".
Proof. reflexivity. Qed.

Lemma instruction_goto k :
  TAC.instruction (lit "goto") (TAC.VStr (label k)) TAC.VNull TAC.VNull =
  lit "goto " ++ label k.
Proof. reflexivity. Qed.

Lemma count_cons p x (l : list jsstring) :
  TAC.count p (x :: l) = (if p x then 1 else 0) + TAC.count p l.
Proof. unfold TAC.count. simpl. now destruct (p x). Qed.

Lemma count_nil p : TAC.count p [] = 0.
Proof. reflexivity. Qed.

(** The code after an if statement, instruction by instruction. *)
Lemma if_statement_code condition ifBody elseBody st :
  let k := elseLabelOf condition st in
  TAC.emitted (IfStatementNode condition ifBody elseBody) st =
  TAC.emitted condition st ++
  [branch (fst (TAC.visit condition st)) (label k)] ++
  TAC.emitted ifBody (beforeIfBody condition st) ++
  [lit "goto " ++ label (S k); label k ++ lit ":"] ++
  TAC.emitted elseBody (beforeElseBody condition ifBody st) ++
  [label (S k) ++ lit ":"].
Proof.
  intros k. apply emitted_intro.
  assert (Helse :
    TAC.code (if truthy elseBody
              then snd (TAC.visit elseBody (beforeElseBody condition ifBody st))
              else beforeElseBody condition ifBody st) =
    TAC.code (beforeElseBody condition ifBody st) ++
    TAC.emitted elseBody (beforeElseBody condition ifBody st)).
  { destruct (truthy elseBody) eqn:E; [apply emitted_spec|].
    apply truthy_false in E. subst elseBody.
    now rewrite emitted_Null, app_nil_r. }
  revert Helse. unfold beforeElseBody, beforeIfBody. fold k.
  unfold k, elseLabelOf. cbn [TAC.visit].
  pose proof (emitted_spec condition st) as Hc.
  destruct (TAC.visit condition st) as [cv st1]. cbn [fst snd] in *.
  unfold TAC.newLabel. cbn [fst snd TAC.labelCounter].
  fold (label (TAC.labelCounter st1)). fold (label (S (TAC.labelCounter st1))).
  intros Helse.
  set (st4 := TAC.emit (lit "if_false") cv _ TAC.VNull _) in *.
  pose proof (emitted_spec ifBody st4) as Ha.
  rewrite code_emit, Helse, !code_emit, Ha.
  unfold st4 at 1. rewrite code_emit. cbn [TAC.code TAC.orNull]. rewrite Hc.
  rewrite !instruction_label, instruction_goto.
  unfold branch. rewrite <- !app_assoc. reflexivity.
Qed.

(** C4 (amended): the instructions of an if statement are those of the
    condition, the conditional branch, those of the true branch, one
    unconditional jump to the end label placed directly after the true
    branch and directly before the else label declaration, those of the else
    branch (none when it is absent), and the end label declaration.  The
    statement itself so contributes exactly two label declarations and one
    unconditional jump; the others in its code are those of the statements
    nested in it. *)
Theorem if_statement_lowering (condition ifBody elseBody : node)
    (st : TAC.State) :
  let k := elseLabelOf condition st in
  let codeC := TAC.emitted condition st in
  let codeA := TAC.emitted ifBody (beforeIfBody condition st) in
  let codeB := TAC.emitted elseBody (beforeElseBody condition ifBody st) in
  let lines := TAC.emitted (IfStatementNode condition ifBody elseBody) st in
  lines =
    codeC ++ [branch (fst (TAC.visit condition st)) (label k)] ++
    codeA ++ [lit "goto " ++ label (S k); label k ++ lit ":"] ++
    codeB ++ [label (S k) ++ lit ":"] /\
  TAC.emitted Null (beforeElseBody condition ifBody st) = [] /\
  TAC.count TAC.isLabelDeclaration lines =
    2 + TAC.count TAC.isLabelDeclaration codeC +
    TAC.count TAC.isLabelDeclaration codeA +
    TAC.count TAC.isLabelDeclaration codeB /\
  TAC.count TAC.isJump lines =
    1 + TAC.count TAC.isJump codeC + TAC.count TAC.isJump codeA +
    TAC.count TAC.isJump codeB.
Proof.
  intros k codeC codeA codeB lines.
  assert (Hlines : lines =
    codeC ++ [branch (fst (TAC.visit condition st)) (label k)] ++
    codeA ++ [lit "goto " ++ label (S k); label k ++ lit ":"] ++
    codeB ++ [label (S k) ++ lit ":"])
    by apply if_statement_code.
  split; [exact Hlines|]. split; [apply emitted_Null|].
  destruct (branch_is_neither (fst (TAC.visit condition st)) (label k))
    as [Hbl Hbj].
  rewrite Hlines, !count_app, !count_cons, !count_nil.
  rewrite Hbl, Hbj, !label_declaration, !jump_to_label,
    !label_is_no_jump, !jump_is_no_label.
  split; lia.
Qed.

(** C4 as stated fails when a branch holds an if statement of its own: the
    instructions of the outer statement then contain four label
    declarations and two unconditional jumps. *)
Lemma nested_if_labels :
  TAC.emitted nested_if (TAC.mkState 0 0 []) =
  map lit ["if_false a"; "if_false b"; "goto L3"; "L2:"; "L3:"; "goto L1";
           "L0:"; "L1:"] /\
  TAC.count TAC.isLabelDeclaration
    (TAC.emitted nested_if (TAC.mkState 0 0 [])) = 4 /\
  TAC.count TAC.isJump (TAC.emitted nested_if (TAC.mkState 0 0 [])) = 2.
Proof. repeat split; vm_compute; reflexivity. Qed.

(** *** The lowering of a for loop *)

Lemma for_statement_code init condition increment body st :
  let k := TAC.labelCounter st in
  TAC.emitted (ForLoopNode init condition increment body) st =
  TAC.emitted init (beforeForInit st) ++
  [label k ++ lit ":"] ++
  TAC.emitted condition (beforeForCondition init st) ++
  [branch (fst (TAC.visit condition (beforeForCondition init st)))
          (label (S k))] ++
  TAC.emitted body (beforeForBody init condition st) ++
  TAC.emitted increment (beforeForIncrement init condition body st) ++
  [lit "goto " ++ label k; label (S k) ++ lit ":"].
Proof.
  intros k. apply emitted_intro.
  pose proof (emitted_spec init (beforeForInit st)) as Hi.
  pose proof (emitted_spec condition (beforeForCondition init st)) as Hc.
  pose proof (emitted_spec body (beforeForBody init condition st)) as Hb.
  pose proof (emitted_spec increment
                (beforeForIncrement init condition body st)) as Hu.
  revert Hi Hc Hb Hu.
  unfold beforeForIncrement, beforeForBody, beforeForCondition, beforeForInit.
  cbn [TAC.visit]. unfold TAC.newLabel.
  cbn [fst snd TAC.labelCounter]. fold k.
  fold (label k). fold (label (S k)).
  set (st2 := TAC.mkState _ (S (S k)) _).
  destruct (TAC.visit init st2) as [iv st3]. cbn [fst snd].
  set (st4 := TAC.emit (label k) _ _ _ st3).
  destruct (TAC.visit condition st4) as [cv st5]. cbn [fst snd].
  set (st6 := TAC.emit (lit "if_false") _ _ _ st5).
  destruct (TAC.visit body st6) as [bv st7]. cbn [fst snd].
  destruct (TAC.visit increment st7) as [uv st8]. cbn [fst snd].
  intros Hi Hc Hb Hu.
  rewrite !code_emit, Hu, Hb. unfold st6. rewrite code_emit, Hc.
  unfold st4. rewrite code_emit, Hi. unfold st2. cbn [TAC.code TAC.orNull].
  rewrite !instruction_label, instruction_goto.
  unfold branch. rewrite <- !app_assoc. reflexivity.
Qed.

Lemma branch_line v target :
  branch v target =
  lit "if_false" ++
  (if TAC.isTruthy (TAC.orNull v) then lit " " ++ TAC.render (TAC.orNull v)
   else lit ":").
Proof.
  unfold branch, TAC.instruction. cbn [TAC.isTruthy andb].
  destruct (TAC.isTruthy (TAC.orNull v)); reflexivity.
Qed.

(** X11: the instructions of a for loop are those of the initialisation,
    the declaration of the start label, those of the condition, the
    conditional branch, those of the body, those of the increment, the jump
    back to the start label and the declaration of the end label.  Both
    labels are allocated before anything is visited.  The conditional
    branch is the line [if_false] followed by the value of the condition:
    [emit] leaves out its second argument when it is given no result, so
    the branch does not name the label it was built with. *)
Theorem for_statement_lowering (init condition increment body : node)
    (st : TAC.State) (target : jsstring) :
  let k := TAC.labelCounter st in
  let conditionTemp := fst (TAC.visit condition (beforeForCondition init st)) in
  TAC.emitted (ForLoopNode init condition increment body) st =
    TAC.emitted init (beforeForInit st) ++
    [label k ++ lit ":"] ++
    TAC.emitted condition (beforeForCondition init st) ++
    [branch conditionTemp (label (S k))] ++
    TAC.emitted body (beforeForBody init condition st) ++
    TAC.emitted increment (beforeForIncrement init condition body st) ++
    [lit "goto " ++ label k; label (S k) ++ lit ":"] /\
  TAC.labelCounter (beforeForInit st) = S (S k) /\
  branch conditionTemp (label (S k)) = branch conditionTemp target.
Proof.
  intros k conditionTemp. split; [apply for_statement_code|].
  split; [reflexivity|]. now rewrite !branch_line.
Qed.
(** *** Labels are declared once *)

Lemma lit_injective (a b : string) : lit a = lit b -> a = b.
Proof.
  unfold lit. intros H.
  rewrite <- (string_of_list_ascii_of_string a),
          <- (string_of_list_ascii_of_string b).
  f_equal. revert H.
  generalize (list_ascii_of_string a) (list_ascii_of_string b).
  induction l as [|x l IH]; intros [|y l'] H; try discriminate; [reflexivity|].
  simpl in H. injection H as Hx Hl. f_equal; [|now apply IH].
  rewrite <- (ascii_N_embedding x), <- (ascii_N_embedding y). now rewrite Hx.
Qed.

Lemma to_uint_nonnil n : Nat.to_uint n <> Decimal.Nil.
Proof.
  rewrite <- (DecimalNat.Unsigned.of_to n) at 1.
  rewrite DecimalNat.Unsigned.to_of. apply DecimalFacts.unorm_nonnil.
Qed.

Lemma showNat_injective j k : showNat j = showNat k -> j = k.
Proof.
  unfold showNat. intros H. apply lit_injective in H.
  apply DecimalNat.Unsigned.to_uint_inj.
  pose proof (DecimalString.NilZero.usu _ (to_uint_nonnil j)) as Hj.
  pose proof (DecimalString.NilZero.usu _ (to_uint_nonnil k)) as Hk.
  rewrite H in Hj. rewrite Hj in Hk. now injection Hk.
Qed.

Lemma label_eqb j k :
  str_eqb (label j ++ lit ":") (label k ++ lit ":") = Nat.eqb j k.
Proof.
  destruct (Nat.eqb_spec j k) as [->|Hne]; [apply str_eqb_refl|].
  apply not_true_is_false. intros H. apply str_eqb_eq in H.
  apply app_inv_tail in H. unfold label in H. apply app_inv_head in H.
  now apply showNat_injective in H.
Qed.

(** A label declaration holds no space, and a jump no [=] and no [:]. *)
Lemma label_declaration_no_space s :
  TAC.isLabelDeclaration s = true -> ~ In 32%N s.
Proof.
  unfold TAC.isLabelDeclaration. destruct s as [|c r]; [discriminate|].
  intros H. apply andb_prop in H as [Hc H]. apply N.eqb_eq in Hc. subst c.
  destruct (rev r) as [|c' ds] eqn:E; [discriminate|].
  apply andb_prop in H as [H Hd]. apply andb_prop in H as [Hc' _].
  apply N.eqb_eq in Hc'. subst c'.
  apply (f_equal (@rev jschar)) in E. rewrite rev_involutive in E.
  subst r. cbn [rev]. intros [Hin|Hin]; [discriminate|].
  apply in_app_or in Hin as [Hin|[Hin|[]]]; [|discriminate].
  apply in_rev in Hin. rewrite forallb_forall in Hd.
  apply Hd in Hin. discriminate.
Qed.

Lemma jump_shape s :
  TAC.isJump s = true ->
  exists ds, s = lit "goto L" ++ ds /\ ds <> [] /\ forallb isDigit ds = true.
Proof.
  unfold TAC.isJump. intros H. apply andb_prop in H as [H Hd].
  apply andb_prop in H as [Hp Hne]. apply prefixb_app in Hp.
  exists (skipn 6 s). split; [exact Hp|]. split; [|exact Hd].
  destruct (skipn 6 s); [discriminate | discriminate].
Qed.

Lemma jump_no_punctuation s c :
  TAC.isJump s = true -> isDigit c = false ->
  In c s -> In c (lit "goto L").
Proof.
  intros H Hc Hin. apply jump_shape in H as (ds & -> & _ & Hd).
  apply in_app_or in Hin as [Hin|Hin]; [exact Hin|].
  rewrite forallb_forall in Hd. apply Hd in Hin. congruence.
Qed.

(** The three shapes of an instruction. *)
Lemma instruction_shape op a1 a2 r :
  (exists x y, TAC.instruction op a1 a2 r = x ++ lit " = " ++ y) \/
  (exists y, TAC.instruction op a1 a2 r = op ++ lit " " ++ y) \/
  TAC.instruction op a1 a2 r = op ++ lit ":".
Proof.
  unfold TAC.instruction.
  destruct (TAC.isTruthy r && TAC.isTruthy a2); [left; eauto|].
  destruct (TAC.isTruthy r && TAC.isTruthy a1); [left; eauto|].
  destruct (TAC.isTruthy a1); [right; left; eauto | right; right; reflexivity].
Qed.

Lemma jump_ends_with_digit x : TAC.isJump (x ++ lit ":") = false.
Proof.
  apply not_true_is_false. intros H.
  assert (Hin : In 58%N (lit "goto L")).
  { eapply jump_no_punctuation; [exact H | reflexivity |].
    apply in_or_app. right. now left. }
  simpl in Hin. repeat (destruct Hin as [Hin|Hin]; [discriminate|]).
  destruct Hin.
Qed.

Lemma quiet_instruction op a1 a2 r :
  quiet op -> plainLine (TAC.instruction op a1 a2 r).
Proof.
  intros [Hj Hl].
  destruct (instruction_shape op a1 a2 r) as [(x & y & ->)|[(y & ->)| ->]];
    split.
  - apply not_true_is_false. intros H.
    apply label_declaration_no_space in H. apply H.
    apply in_or_app. right. now left.
  - apply not_true_is_false. intros H.
    assert (Hin : In 61%N (lit "goto L")).
    { eapply jump_no_punctuation; [exact H | reflexivity |].
      apply in_or_app. right. right. now left. }
    simpl in Hin. repeat (destruct Hin as [Hin|Hin]; [discriminate|]).
    destruct Hin.
  - apply not_true_is_false. intros H.
    apply label_declaration_no_space in H. apply H.
    apply in_or_app. right. now left.
  - apply Hj.
  - exact Hl.
  - apply jump_ends_with_digit.
Qed.

Lemma quiet_known o :
  existsb (str_eqb o) binaryOperators = true -> quiet o.
Proof.
  intros H. apply existsb_exists in H as (x & Hin & Hx).
  apply str_eqb_eq in Hx. subst x.
  repeat (destruct Hin as [<-|Hin]; [split; reflexivity|]). destruct Hin.
Qed.

Lemma declarations_app k a b :
  declarations k (a ++ b) = declarations k a + declarations k b.
Proof. apply count_app. Qed.

Lemma declarations_plain k x : plainLine x -> declarations k [x] = 0.
Proof.
  intros [Hl _]. unfold declarations. rewrite count_cons, count_nil.
  destruct (str_eqb (label k ++ lit ":") x) eqn:E; [|reflexivity].
  apply str_eqb_eq in E. subst x. now rewrite label_declaration in Hl.
Qed.

Lemma declarations_label k j :
  declarations k [label j ++ lit ":"] = if Nat.eqb k j then 1 else 0.
Proof.
  unfold declarations. rewrite count_cons, count_nil, label_eqb.
  destruct (Nat.eqb k j); reflexivity.
Qed.

Lemma jump_is_plain_declaration k j :
  declarations k [lit "goto " ++ label j] = 0.
Proof.
  unfold declarations. rewrite count_cons, count_nil.
  destruct (str_eqb _ _) eqn:E; [|reflexivity].
  apply str_eqb_eq in E. discriminate E.
Qed.

Lemma jump_target_injective j k :
  lit "goto " ++ label j = lit "goto " ++ label k -> j = k.
Proof.
  intros H. apply app_inv_head in H. unfold label in H.
  apply app_inv_head in H. now apply showNat_injective.
Qed.

Ltac indicator :=
  unfold allocated;
  repeat match goal with
         | |- context [Nat.leb ?x ?y] => destruct (Nat.leb_spec x y)
         | |- context [Nat.ltb ?x ?y] => destruct (Nat.ltb_spec x y)
         | |- context [Nat.eqb ?x ?y] => destruct (Nat.eqb_spec x y)
         end;
  cbn [andb]; try lia.

Lemma wellLabelled_nil a : wellLabelled a a [].
Proof.
  split; [lia|]. split; [|split; intros line []].
  intros k. unfold declarations. rewrite count_nil. indicator.
Qed.

Lemma wellLabelled_plain a x : plainLine x -> wellLabelled a a [x].
Proof.
  intros Hx. split; [lia|]. split; [|split].
  - intros k. rewrite (declarations_plain _ _ Hx). indicator.
  - intros line [<-|[]] H. destruct Hx as [Hx _]. congruence.
  - intros line [<-|[]] H. destruct Hx as [_ Hx]. congruence.
Qed.

Lemma wellLabelled_app a b c l1 l2 :
  wellLabelled a b l1 -> wellLabelled b c l2 -> wellLabelled a c (l1 ++ l2).
Proof.
  intros (Hab & Hd1 & Hl1 & Hj1) (Hbc & Hd2 & Hl2 & Hj2).
  split; [lia|]. split; [|split].
  - intros k. rewrite declarations_app, Hd1, Hd2. indicator.
  - intros line Hin H. apply in_app_or in Hin as [Hin|Hin]; eauto.
  - intros line Hin H. apply in_app_or in Hin as [Hin|Hin].
    + destruct (Hj1 _ Hin H) as (k & Hk & ->). exists k. split; [lia|reflexivity].
    + destruct (Hj2 _ Hin H) as (k & Hk & ->). exists k. split; [lia|reflexivity].
Qed.

(** The labels of a sub-statement lie inside those of the statement. *)
Lemma wellLabelled_jumps a b a' b' lines line :
  wellLabelled a' b' lines -> a <= a' -> b' <= b ->
  In line lines -> TAC.isJump line = true ->
  exists k, a <= k < b /\ line = lit "goto " ++ label k.
Proof.
  intros (_ & _ & _ & Hj) Ha Hb Hin H.
  destruct (Hj _ Hin H) as (k & Hk & ->). exists k. split; [lia|reflexivity].
Qed.

Lemma wellLabelled_labels a b lines line :
  wellLabelled a b lines -> In line lines ->
  TAC.isLabelDeclaration line = true -> exists k, line = label k ++ lit ":".
Proof. intros (_ & _ & Hl & _). apply Hl. Qed.

Lemma wellLabelled_if a k m b codeC codeA codeB x :
  wellLabelled a k codeC -> wellLabelled (S (S k)) m codeA ->
  wellLabelled m b codeB -> plainLine x ->
  wellLabelled a b
    (codeC ++ [x] ++ codeA ++ [lit "goto " ++ label (S k); label k ++ lit ":"] ++
     codeB ++ [label (S k) ++ lit ":"]).
Proof.
  intros HC HA HB Hx.
  pose proof HC as (Hak & HdC & _). pose proof HA as (Hkm & HdA & _).
  pose proof HB as (Hmb & HdB & _).
  split; [lia|]. split; [|split].
  - intros j.
    change [lit "goto " ++ label (S k); label k ++ lit ":"]
      with ([lit "goto " ++ label (S k)] ++ [label k ++ lit ":"]).
    rewrite !declarations_app, HdC, HdA, HdB, (declarations_plain _ _ Hx),
      jump_is_plain_declaration, !declarations_label.
    indicator.
  - intros line Hin H. rewrite !in_app_iff in Hin. cbn [In] in Hin.
    destruct Hin as [Hin|[[<-|[]]|[Hin|[[<-|[<-|[]]]|[Hin|[<-|[]]]]]]];
      eauto using wellLabelled_labels.
    + destruct Hx as [Hx _]. congruence.
    + now rewrite jump_is_no_label in H.
  - intros line Hin H. rewrite !in_app_iff in Hin. cbn [In] in Hin.
    destruct Hin as [Hin|[[<-|[]]|[Hin|[[<-|[<-|[]]]|[Hin|[<-|[]]]]]]].
    + eapply wellLabelled_jumps; [exact HC | | | exact Hin | exact H]; lia.
    + destruct Hx as [_ Hx]. congruence.
    + eapply wellLabelled_jumps; [exact HA | | | exact Hin | exact H]; lia.
    + exists (S k). split; [lia | reflexivity].
    + now rewrite label_is_no_jump in H.
    + eapply wellLabelled_jumps; [exact HB | | | exact Hin | exact H]; lia.
    + now rewrite label_is_no_jump in H.
Qed.

Lemma wellLabelled_for a m1 m2 m3 b codeI codeC codeB codeU x :
  wellLabelled (S (S a)) m1 codeI -> wellLabelled m1 m2 codeC ->
  wellLabelled m2 m3 codeB -> wellLabelled m3 b codeU -> plainLine x ->
  wellLabelled a b
    (codeI ++ [label a ++ lit ":"] ++ codeC ++ [x] ++ codeB ++ codeU ++
     [lit "goto " ++ label a; label (S a) ++ lit ":"]).
Proof.
  intros HI HC HB HU Hx.
  pose proof HI as (H1 & HdI & _). pose proof HC as (H2 & HdC & _).
  pose proof HB as (H3 & HdB & _). pose proof HU as (H4 & HdU & _).
  split; [lia|]. split; [|split].
  - intros j.
    change [lit "goto " ++ label a; label (S a) ++ lit ":"]
      with ([lit "goto " ++ label a] ++ [label (S a) ++ lit ":"]).
    rewrite !declarations_app, HdI, HdC, HdB, HdU, (declarations_plain _ _ Hx),
      jump_is_plain_declaration, !declarations_label.
    indicator.
  - intros line Hin H. rewrite !in_app_iff in Hin. cbn [In] in Hin.
    destruct Hin as [Hin|[[<-|[]]|[Hin|[[<-|[]]|[Hin|[Hin|[<-|[<-|[]]]]]]]]];
      eauto using wellLabelled_labels.
    + destruct Hx as [Hx _]. congruence.
    + now rewrite jump_is_no_label in H.
  - intros line Hin H. rewrite !in_app_iff in Hin. cbn [In] in Hin.
    destruct Hin as [Hin|[[<-|[]]|[Hin|[[<-|[]]|[Hin|[Hin|[<-|[<-|[]]]]]]]]].
    + eapply wellLabelled_jumps; [exact HI | | | exact Hin | exact H]; lia.
    + now rewrite label_is_no_jump in H.
    + eapply wellLabelled_jumps; [exact HC | | | exact Hin | exact H]; lia.
    + destruct Hx as [_ Hx]. congruence.
    + eapply wellLabelled_jumps; [exact HB | | | exact Hin | exact H]; lia.
    + eapply wellLabelled_jumps; [exact HU | | | exact Hin | exact H]; lia.
    + exists a. split; [lia | reflexivity].
    + now rewrite label_is_no_jump in H.
Qed.
(** *** The lowering of a function call *)

Lemma emitParams_spec vs : forall st,
  TAC.emitParams vs st =
  TAC.mkState (TAC.tempCounter st) (TAC.labelCounter st)
    (TAC.code st ++ map paramLine vs).
Proof.
  induction vs as [|v vs IH]; intros st; cbn [TAC.emitParams map].
  - rewrite app_nil_r. now destruct st.
  - rewrite IH. unfold TAC.emit. cbn [TAC.tempCounter TAC.labelCounter TAC.code].
    now rewrite <- app_assoc.
Qed.

Lemma mapNode_code args st :
  TAC.code (snd (TAC.mapNode TAC.visit args st)) =
  TAC.code st ++ argumentCode args st.
Proof.
  unfold argumentCode.
  destruct (appends_mapNode args
              (proj2 (Forall_forall _ _) (fun n _ => visit_appends n)) st)
    as [lines H].
  rewrite H. now rewrite skipn_length_app.
Qed.

Lemma mapNode_length args : forall st,
  length (fst (TAC.mapNode TAC.visit args st)) = length args.
Proof.
  induction args as [|a args IH]; intros st; [reflexivity|].
  cbn [TAC.mapNode]. destruct (TAC.visit a st) as [v st1].
  specialize (IH st1). destruct (TAC.mapNode TAC.visit args st1) as [vs st2].
  simpl in *. now rewrite IH.
Qed.

Lemma callLine_plain temp fname n :
  plainLine (temp ++ lit " = " ++ fname ++ lit " call " ++ showNat n).
Proof.
  split; apply not_true_is_false; intros H.
  - apply label_declaration_no_space in H. apply H.
    apply in_or_app. right. now left.
  - assert (Hin : In 61%N (lit "goto L")).
    { eapply jump_no_punctuation; [exact H | reflexivity |].
      apply in_or_app. right. right. now left. }
    simpl in Hin. repeat (destruct Hin as [Hin|Hin]; [discriminate|]).
    destruct Hin.
Qed.

(** The code of a call, and the counter of labels after it. *)
Lemma function_call_code fname args st :
  exists x, plainLine x /\
    TAC.emitted (FunctionCallNode fname args) st =
      argumentCode args st ++ map paramLine (argumentValues args st) ++ [x] /\
    TAC.labelCounter (snd (TAC.visit (FunctionCallNode fname args) st)) =
    TAC.labelCounter (snd (TAC.mapNode TAC.visit args st)).
Proof.
  pose proof (mapNode_code args st) as Hc.
  unfold argumentValues.
  exists (TAC.instruction (lit "call") (TAC.VStr (value fname))
            (TAC.VStr (showNat (length (fst (TAC.mapNode TAC.visit args st)))))
            (TAC.VStr (lit "t" ++
               showNat (TAC.tempCounter (snd (TAC.mapNode TAC.visit args st)))))).
  split; [|split; [apply emitted_intro|]]; cbn [TAC.visit].
  2,3: destruct (TAC.mapNode TAC.visit args st) as [vs st1];
    cbn [fst snd] in *; rewrite emitParams_spec; unfold TAC.newTemp;
    cbn [fst snd TAC.tempCounter TAC.code TAC.emit TAC.labelCounter].
  2: { rewrite Hc, <- !app_assoc. reflexivity. }
  2: reflexivity.
  apply quiet_instruction. split; [intros ?|]; reflexivity.
Qed.

(** X12: a call emits the instructions of all its arguments first, then one
    [param] line for each argument value in order, then the call line, which
    [emit] writes with the operator between its operands: the new temporary,
    [=], the name of the function, [call] and the number of arguments.  The
    value of the call is that temporary. *)
Theorem function_call_lowering (fname : Token) (args : list node)
    (st : TAC.State) :
  let values := argumentValues args st in
  let temp :=
    lit "t" ++ showNat (TAC.tempCounter (snd (TAC.mapNode TAC.visit args st))) in
  TAC.emitted (FunctionCallNode fname args) st =
    argumentCode args st ++ map paramLine values ++
    [temp ++ lit " = " ++ value fname ++ lit " call " ++
     showNat (length args)] /\
  fst (TAC.visit (FunctionCallNode fname args) st) = TAC.VStr temp /\
  length values = length args.
Proof.
  intros values temp.
  pose proof (mapNode_code args st) as Hc.
  pose proof (mapNode_length args st) as Hl.
  unfold values, temp, argumentValues.
  split; [apply emitted_intro|split; [|exact Hl]]; cbn [TAC.visit];
    destruct (TAC.mapNode TAC.visit args st) as [vs st1];
    cbn [fst snd] in *; rewrite emitParams_spec; unfold TAC.newTemp;
    cbn [fst snd TAC.tempCounter TAC.code TAC.emit TAC.labelCounter];
    [|reflexivity].
  rewrite Hc, Hl, <- !app_assoc. do 2 f_equal.
  unfold TAC.instruction. cbn [TAC.orNull TAC.isTruthy TAC.render].
  destruct (showNat_digits (length args)) as [Hne _].
  rewrite (nonempty_true _ Hne). reflexivity.
Qed.
Lemma labelled_list ns :
  Forall labelled ns ->
  forall st, exists lines,
    TAC.code (TAC.forEachNode TAC.visit ns st) = TAC.code st ++ lines /\
    wellLabelled (TAC.labelCounter st)
      (TAC.labelCounter (TAC.forEachNode TAC.visit ns st)) lines.
Proof.
  induction 1 as [|n ns Hn _ IH]; intros st; cbn [TAC.forEachNode].
  - exists []. split; [now rewrite app_nil_r | apply wellLabelled_nil].
  - destruct (IH (snd (TAC.visit n st))) as (lines & Hc & Hw).
    exists (TAC.emitted n st ++ lines). split.
    + now rewrite Hc, emitted_spec, app_assoc.
    + eapply wellLabelled_app; [apply Hn | exact Hw].
Qed.

Lemma labelled_arguments ns :
  Forall labelled ns ->
  forall st,
    wellLabelled (TAC.labelCounter st)
      (TAC.labelCounter (snd (TAC.mapNode TAC.visit ns st)))
      (argumentCode ns st).
Proof.
  intros Hall st.
  assert (H : exists lines,
    TAC.code (snd (TAC.mapNode TAC.visit ns st)) = TAC.code st ++ lines /\
    wellLabelled (TAC.labelCounter st)
      (TAC.labelCounter (snd (TAC.mapNode TAC.visit ns st))) lines).
  { revert st. induction Hall as [|n ns Hn _ IH]; intros st; cbn [TAC.mapNode].
    - exists []. split; [now rewrite app_nil_r | apply wellLabelled_nil].
    - pose proof (emitted_spec n st) as Hc. specialize (Hn st).
      destruct (TAC.visit n st) as [v st1]. cbn [snd] in *.
      destruct (IH st1) as (lines & Hc1 & Hw).
      destruct (TAC.mapNode TAC.visit ns st1) as [vs st2]. cbn [snd] in *.
      exists (TAC.emitted n st ++ lines). split.
      + now rewrite Hc1, Hc, app_assoc.
      + eapply wellLabelled_app; eauto. }
  destruct H as (lines & Hc & Hw).
  unfold argumentCode. rewrite Hc, skipn_length_app. exact Hw.
Qed.

Ltac quiet_line :=
  apply quiet_instruction; split; [intros ?|]; reflexivity.

Lemma plain_param v : plainLine (paramLine v).
Proof. unfold paramLine. quiet_line. Qed.

Lemma wellLabelled_params a vs : wellLabelled a a (map paramLine vs).
Proof.
  induction vs as [|v vs IH]; [apply wellLabelled_nil|].
  change (map paramLine (v :: vs)) with ([paramLine v] ++ map paramLine vs).
  eapply wellLabelled_app; [apply wellLabelled_plain, plain_param | exact IH].
Qed.

Lemma forallb_Forall_labelled (ns : list node) :
  Forall (fun n => operatorsKnown n = true -> labelled n) ns ->
  forallb operatorsKnown ns = true -> Forall labelled ns.
Proof.
  induction 1 as [|n ns Hn _ IH]; [constructor|]. cbn [forallb].
  intros H. apply andb_prop in H as [H1 H2]. constructor; auto.
Qed.

Lemma beforeIfBody_labels c st :
  TAC.labelCounter (beforeIfBody c st) = S (S (elseLabelOf c st)).
Proof.
  unfold beforeIfBody, elseLabelOf. now destruct (TAC.visit c st).
Qed.

Lemma beforeElseBody_labels c a st :
  TAC.labelCounter (beforeElseBody c a st) =
  TAC.labelCounter (snd (TAC.visit a (beforeIfBody c st))).
Proof. reflexivity. Qed.

Lemma if_statement_labels c a b st :
  TAC.labelCounter (snd (TAC.visit (IfStatementNode c a b) st)) =
  TAC.labelCounter (snd (TAC.visit b (beforeElseBody c a st))).
Proof.
  cbn [TAC.visit]. unfold beforeElseBody, beforeIfBody, elseLabelOf.
  destruct (TAC.visit c st) as [cv s1]. unfold TAC.newLabel.
  cbn [fst snd TAC.labelCounter].
  fold (label (TAC.labelCounter s1)). fold (label (S (TAC.labelCounter s1))).
  destruct (truthy b) eqn:E; [reflexivity|].
  apply truthy_false in E. now subst b.
Qed.

Lemma beforeForBody_labels i c st :
  TAC.labelCounter (beforeForBody i c st) =
  TAC.labelCounter (snd (TAC.visit c (beforeForCondition i st))).
Proof.
  unfold beforeForBody. now destruct (TAC.visit c (beforeForCondition i st)).
Qed.

Lemma for_statement_labels i c u b st :
  TAC.labelCounter (snd (TAC.visit (ForLoopNode i c u b) st)) =
  TAC.labelCounter (snd (TAC.visit u (beforeForIncrement i c b st))).
Proof.
  cbn [TAC.visit].
  unfold beforeForIncrement, beforeForBody, beforeForCondition,
    beforeForInit, TAC.newLabel.
  cbn [fst snd TAC.labelCounter].
  fold (label (TAC.labelCounter st)). fold (label (S (TAC.labelCounter st))).
  destruct (TAC.visit i _) as [iv s3]. cbn [fst snd].
  destruct (TAC.visit c _) as [cv s5]. cbn [fst snd].
  destruct (TAC.visit b _) as [bv s7]. cbn [fst snd].
  now destruct (TAC.visit u _) as [uv s8].
Qed.

Lemma known_labelled n : operatorsKnown n = true -> labelled n.
Proof.
  induction n using node_induction; cbn [operatorsKnown]; intros Hk st.
  - (* null *)
    rewrite emitted_Null. apply wellLabelled_nil.
  - (* program *)
    destruct (labelled_list _ (forallb_Forall_labelled _ H Hk) st)
      as (lines & Hc & Hw).
    rewrite (emitted_intro (ProgramNode cs) st lines Hc). exact Hw.
  - (* function definition *)
    specialize (IHn Hk).
    set (st1 := TAC.emit (lit "func begin " ++ value nm) TAC.VNull TAC.VNull
                  TAC.VNull st).
    assert (Hc : TAC.emitted (FunctionDefinitionNode rt nm ps n) st =
      [TAC.instruction (lit "func begin " ++ value nm) TAC.VNull TAC.VNull TAC.VNull] ++
      TAC.emitted n st1 ++
      [TAC.instruction (lit "func end " ++ value nm) TAC.VNull TAC.VNull TAC.VNull]).
    { apply emitted_intro. cbn [TAC.visit snd]. fold st1.
      rewrite code_emit, emitted_spec. unfold st1. rewrite code_emit.
      cbn [TAC.orNull]. now rewrite <- !app_assoc. }
    rewrite Hc. cbn [TAC.visit snd]. fold st1.
    eapply wellLabelled_app; [apply wellLabelled_plain; quiet_line|].
    eapply wellLabelled_app; [apply (IHn st1)|].
    apply wellLabelled_plain. quiet_line.
  - (* block *)
    destruct (labelled_list _ (forallb_Forall_labelled _ H Hk) st)
      as (lines & Hc & Hw).
    rewrite (emitted_intro (BlockNode ss) st lines Hc). exact Hw.
  - (* variable declaration *)
    specialize (IHn Hk st). pose proof (emitted_spec n st) as Hn.
    assert (Hc : TAC.emitted (VariableDeclarationNode vt vn n) st =
      if truthy n then
        TAC.emitted n st ++
        [TAC.instruction (lit "=") (TAC.orNull (fst (TAC.visit n st)))
           TAC.VNull (TAC.VStr (value vn))]
      else []).
    { apply emitted_intro. cbn [TAC.visit].
      destruct (truthy n); [|now rewrite app_nil_r].
      destruct (TAC.visit n st) as [v st1]. cbn [fst snd] in *.
      rewrite code_emit, Hn. cbn [TAC.orNull]. now rewrite <- app_assoc. }
    rewrite Hc. cbn [TAC.visit].
    destruct (truthy n); [|apply wellLabelled_nil].
    destruct (TAC.visit n st) as [v st1]. cbn [fst snd] in *.
    eapply wellLabelled_app; [exact IHn|]. apply wellLabelled_plain. quiet_line.
  - (* assignment *)
    specialize (IHn Hk st). pose proof (emitted_spec n st) as Hn.
    assert (Hc : TAC.emitted (AssignmentNode l n) st =
      TAC.emitted n st ++
      [TAC.instruction (lit "=") (TAC.orNull (fst (TAC.visit n st)))
         TAC.VNull (TAC.VStr (value l))]).
    { apply emitted_intro. cbn [TAC.visit].
      destruct (TAC.visit n st) as [v st1]. cbn [fst snd] in *.
      rewrite code_emit, Hn. cbn [TAC.orNull]. now rewrite <- app_assoc. }
    rewrite Hc. cbn [TAC.visit].
    destruct (TAC.visit n st) as [v st1]. cbn [fst snd] in *.
    eapply wellLabelled_app; [exact IHn|]. apply wellLabelled_plain. quiet_line.
  - (* binary operation *)
    apply andb_prop in Hk as [Hk Hk2]. apply andb_prop in Hk as [Ho Hk1].
    specialize (IHn1 Hk1 st). pose proof (emitted_spec n1 st) as Hn1.
    set (st1 := snd (TAC.visit n1 st)) in *.
    specialize (IHn2 Hk2 st1). pose proof (emitted_spec n2 st1) as Hn2.
    assert (Hc :
      TAC.emitted (BinaryOpNode n1 o n2) st =
      TAC.emitted n1 st ++ TAC.emitted n2 st1 ++
      [TAC.instruction o (TAC.orNull (fst (TAC.visit n1 st)))
         (TAC.orNull (fst (TAC.visit n2 st1)))
         (TAC.VStr (lit "t" ++
            showNat (TAC.tempCounter (snd (TAC.visit n2 st1)))))]).
    { apply emitted_intro; cbn [TAC.visit].
      unfold st1 in *. destruct (TAC.visit n1 st) as [v1 s1].
      cbn [fst snd] in *. destruct (TAC.visit n2 s1) as [v2 s2].
      cbn [fst snd] in *. unfold TAC.newTemp. cbn [fst snd].
      rewrite code_emit. cbn [TAC.code TAC.orNull]. rewrite Hn2, Hn1.
      rewrite <- !app_assoc. reflexivity. }
    rewrite Hc. cbn [TAC.visit].
    unfold st1 in *. destruct (TAC.visit n1 st) as [v1 s1]. cbn [fst snd] in *.
    destruct (TAC.visit n2 s1) as [v2 s2]. cbn [fst snd] in *.
    unfold TAC.newTemp. cbn [fst snd TAC.emit TAC.labelCounter].
    eapply wellLabelled_app; [exact IHn1|].
    eapply wellLabelled_app; [exact IHn2|]. apply wellLabelled_plain.
    apply quiet_instruction. now apply quiet_known.
  - rewrite (emitted_intro _ _ []); [apply wellLabelled_nil|].
    simpl. now rewrite app_nil_r.
  - rewrite (emitted_intro _ _ []); [apply wellLabelled_nil|].
    simpl. now rewrite app_nil_r.
  - rewrite (emitted_intro _ _ []); [apply wellLabelled_nil|].
    simpl. now rewrite app_nil_r.
  - (* call *)
    pose proof (labelled_arguments _ (forallb_Forall_labelled _ H Hk) st) as Hw.
    destruct (function_call_code nm args st) as (x & Hx & Hc & Hl).
    rewrite Hc, Hl.
    eapply wellLabelled_app; [exact Hw|].
    eapply wellLabelled_app; [apply wellLabelled_params|].
    now apply wellLabelled_plain.
  - (* if *)
    apply andb_prop in Hk as [Hk Hk3]. apply andb_prop in Hk as [Hk1 Hk2].
    rewrite if_statement_code, if_statement_labels.
    pose proof (IHn1 Hk1 st) as H1.
    pose proof (IHn2 Hk2 (beforeIfBody n1 st)) as H2.
    pose proof (IHn3 Hk3 (beforeElseBody n1 n2 st)) as H3.
    rewrite beforeIfBody_labels, <- beforeElseBody_labels in H2.
    eapply wellLabelled_if; [exact H1 | exact H2 | exact H3 |].
    destruct (branch_is_neither (fst (TAC.visit n1 st))
                (label (elseLabelOf n1 st))). now split.
  - (* for *)
    apply andb_prop in Hk as [Hk Hk4]. apply andb_prop in Hk as [Hk Hk3].
    apply andb_prop in Hk as [Hk1 Hk2].
    rewrite for_statement_code, for_statement_labels.
    pose proof (IHn1 Hk1 (beforeForInit st)) as H1.
    pose proof (IHn2 Hk2 (beforeForCondition n1 st)) as H2.
    pose proof (IHn4 Hk4 (beforeForBody n1 n2 st)) as H4.
    pose proof (IHn3 Hk3 (beforeForIncrement n1 n2 n4 st)) as H3.
    rewrite beforeForBody_labels in H4.
    eapply wellLabelled_for; [exact H1 | exact H2 | exact H4 | exact H3 |].
    destruct (branch_is_neither
                (fst (TAC.visit n2 (beforeForCondition n1 st)))
                (label (S (TAC.labelCounter st)))). now split.
  - (* return *)
    specialize (IHn Hk st). pose proof (emitted_spec n st) as Hn.
    assert (Hc : exists x, plainLine x /\
      TAC.emitted (ReturnStatementNode n) st = TAC.emitted n st ++ [x] /\
      TAC.labelCounter (snd (TAC.visit (ReturnStatementNode n) st)) =
      TAC.labelCounter (snd (TAC.visit n st))).
    { cbn [TAC.visit]. destruct (truthy n) eqn:E.
      - destruct (TAC.visit n st) as [v st1] eqn:Ev. cbn [fst snd] in *.
        eexists. split; [|split; [apply emitted_intro|reflexivity]].
        2: { cbn [TAC.visit]. rewrite E, Ev. cbn [snd].
             rewrite code_emit, Hn. now rewrite <- app_assoc. }
        quiet_line.
      - apply truthy_false in E. subst n. rewrite emitted_Null.
        eexists. split; [|split; [apply emitted_intro|reflexivity]].
        2: { cbn [TAC.visit truthy snd]. now rewrite code_emit. }
        quiet_line. }
    destruct Hc as (x & Hx & Hc & Hl). rewrite Hc, Hl.
    eapply wellLabelled_app; [exact IHn|]. now apply wellLabelled_plain.
  - (* unary operation: no visit method *)
    rewrite (emitted_intro _ _ []); [apply wellLabelled_nil|].
    simpl. now rewrite app_nil_r.
Qed.

(** X13: in the code of every tree whose binary operators are those of the
    parser, each label the visit allocates is declared exactly once, no
    other line is a label declaration, and every unconditional jump goes to
    one of these labels; so the code [generate] returns has no label
    declared twice and no jump to a label that is not declared. *)
Theorem labels_declared_once (n : node) (st : TAC.State) :
  operatorsKnown n = true ->
  wellLabelled (TAC.labelCounter st)
    (TAC.labelCounter (snd (TAC.visit n st))) (TAC.emitted n st) /\
  wellLabelled 0
    (TAC.labelCounter (snd (TAC.visit n (TAC.mkState 0 0 []))))
    (TAC.generate n).
Proof.
  intros Hk. split; [now apply known_labelled|].
  exact (known_labelled n Hk (TAC.mkState 0 0 [])).
Qed.

Lemma labels_declared_once_witness :
  operatorsKnown loop_with_if = true /\
  wellLabelled 0 4 (TAC.generate loop_with_if).
Proof.
  split; [reflexivity|].
  exact (proj2 (labels_declared_once loop_with_if (TAC.mkState 0 0 []) eq_refl)).
Defined.

(** ** Semantic analyzer *)

Section SemanticProperties.

Import Semantic.

(** *** The list of tables *)

Lemma length_update i t ts : length (update i t ts) = length ts.
Proof.
  revert i; induction ts as [|x ts IH]; intros [|i]; simpl; auto.
Qed.

Lemma nth_error_update_same i t ts :
  i < length ts -> nth_error (update i t ts) i = Some t.
Proof.
  revert i; induction ts as [|x ts IH]; intros [|i] H; simpl in *;
    try lia; [reflexivity | apply IH; lia].
Qed.

Lemma nth_error_update_other i j t ts :
  i <> j -> nth_error (update i t ts) j = nth_error ts j.
Proof.
  revert i j; induction ts as [|x ts IH]; intros [|i] [|j] H; simpl;
    try reflexivity; try congruence.
  apply IH. congruence.
Qed.

(** *** Symbols *)

Lemma own_app syms more x :
  own (syms ++ more) x =
  match own syms x with Some s => Some s | None => own more x end.
Proof.
  induction syms as [|[k s] syms IH]; simpl; [now destruct (own more x)|].
  destruct (str_eqb k x); [reflexivity | exact IH].
Qed.

Lemma get_own syms x s : own syms x = Some s -> get syms x = Some (Own s).
Proof. unfold get. now intros ->. Qed.

Lemma get_None syms x :
  get syms x = None <-> own syms x = None /\ inherited x = false.
Proof.
  unfold get. destruct (own syms x), (inherited x); split;
    try discriminate; try tauto; intros [? ?]; discriminate.
Qed.

(** What [define] does to a table. *)
Lemma define_spec t x ty ps :
  let r := define t x ty ps in
  name (snd r) = name t /\ parent (snd r) = parent t /\
  get (symbols (snd r)) x <> None /\
  (forall y s, own (symbols t) y = Some s -> own (symbols (snd r)) y = Some s) /\
  (get (symbols t) x <> None -> r = (false, t)) /\
  (get (symbols t) x = None ->
   fst r = true /\ symbols (snd r) = symbols t ++ [(x, mkSymbol ty ps)] /\
   own (symbols (snd r)) x = Some (mkSymbol ty ps)).
Proof.
  unfold define. destruct (get (symbols t) x) as [p|] eqn:E; cbn [fst snd].
  - repeat split; try congruence; auto.
  - cbn [name parent symbols].
    apply get_None in E as [Eo Ei].
    assert (Hown : own (symbols t ++ [(x, mkSymbol ty ps)]) x =
                   Some (mkSymbol ty ps)).
    { rewrite own_app, Eo. simpl. now rewrite str_eqb_refl. }
    repeat split; try congruence; auto.
    + now rewrite (get_own _ _ _ Hown).
    + intros y s Hy. now rewrite own_app, Hy.
Qed.

(** *** Well-formed states *)

Lemma later_refl st : later st st.
Proof.
  split; [|exists []; now rewrite app_nil_r].
  intros i t H. exists t. auto.
Qed.

Lemma later_trans st1 st2 st3 : later st1 st2 -> later st2 st3 -> later st1 st3.
Proof.
  intros [H1 [n1 E1]] [H2 [n2 E2]]. split.
  - intros i t Ht. destruct (H1 i t Ht) as (t' & Ht' & Hn & Hp & Hs).
    destruct (H2 i t' Ht') as (t'' & Ht'' & Hn' & Hp' & Hs').
    exists t''. repeat split; try congruence. auto.
  - exists (n1 ++ n2). rewrite E2, E1. now rewrite app_assoc.
Qed.

Lemma later_length st st' :
  later st st' -> length (scopes st) <= length (scopes st').
Proof.
  intros [H _].
  destruct (Nat.le_gt_cases (length (scopes st)) (length (scopes st')))
    as [Hle|Hgt]; [exact Hle|].
  apply nth_error_Some in Hgt.
  destruct (nth_error (scopes st) (length (scopes st'))) as [t|] eqn:E;
    [|congruence].
  destruct (H _ _ E) as (t' & Ht' & _).
  assert (length (scopes st') < length (scopes st'))
    by (apply nth_error_Some; congruence).
  lia.
Qed.

(** *** The methods of the analyzer *)

Lemma defineIn_spec i x ty ps st t :
  nth_error (scopes st) i = Some t ->
  defineIn (Some i) x ty ps st =
  Ok (fst (define t x ty ps))
     (mkState (update i (snd (define t x ty ps)) (scopes st))
              (currentScope st) (errors st)).
Proof.
  intros H. unfold defineIn. rewrite H. now destruct (define t x ty ps).
Qed.

Lemma parents_before_update i t t' ts :
  nth_error ts i = Some t -> parent t' = parent t ->
  parents_before ts -> parents_before (update i t' ts).
Proof.
  intros Hi Hp Hwf j u Hj.
  destruct (Nat.eq_dec i j) as [<-|Hne].
  - rewrite nth_error_update_same in Hj
      by (apply nth_error_Some; congruence).
    injection Hj as <-. rewrite Hp. now apply Hwf.
  - rewrite nth_error_update_other in Hj by exact Hne. now apply Hwf.
Qed.

(** Replacing a table by one with more symbols. *)
Lemma update_later i t t' st :
  nth_error (scopes st) i = Some t ->
  name t' = name t -> parent t' = parent t ->
  (forall x s, own (symbols t) x = Some s -> own (symbols t') x = Some s) ->
  well_formed st ->
  let st' := mkState (update i t' (scopes st)) (currentScope st) (errors st) in
  well_formed st' /\ later st st' /\ currentScope st' = currentScope st.
Proof.
  intros Hi Hn Hp Hs (Hpb & (g & Hg & Hgp) & c & Hc & Hlt). cbv zeta.
  assert (Hil : i < length (scopes st)) by (apply nth_error_Some; congruence).
  split; [|split; [|reflexivity]].
  - split; [|split].
    + cbn [scopes]. eapply parents_before_update; eauto.
    + cbn [scopes]. destruct (Nat.eq_dec i 0) as [->|Hne].
      * exists t'. rewrite nth_error_update_same by exact Hil.
        split; [reflexivity|]. congruence.
      * exists g. now rewrite nth_error_update_other.
    + exists c. cbn [scopes currentScope]. now rewrite length_update.
  - split; [|exists []; cbn [errors]; now rewrite app_nil_r].
    cbn [scopes]. intros j u Hj.
    destruct (Nat.eq_dec i j) as [<-|Hne].
    + exists t'. rewrite nth_error_update_same by exact Hil.
      assert (u = t) by congruence. subst u. auto.
    + exists u. rewrite nth_error_update_other by exact Hne. auto.
Qed.

(** *** Lookup *)


Lemma reaches_global ts :
  parents_before ts -> forall i, i < length ts -> reaches ts i 0.
Proof.
  intros Hpb i. induction i as [i IH] using lt_wf_ind. intros Hi.
  destruct (nth_error ts i) as [t|] eqn:Ht;
    [|apply nth_error_None in Ht; lia].
  pose proof (Hpb _ _ Ht) as Hp.
  destruct (parent t) as [p|] eqn:Ep.
  - eapply reaches_parent; eauto. apply IH; lia.
  - subst i. eapply reaches_self; eauto.
Qed.

(** The walk of [lookup] ends within the fuel it is given. *)
Lemma lookupFrom_total ts x :
  parents_before ts ->
  forall fuel i, i < fuel -> exists r, lookupFrom fuel ts (Some i) x = Some r.
Proof.
  intros Hpb. induction fuel as [|fuel IH]; intros i Hi; [lia|].
  cbn [lookupFrom].
  destruct (nth_error ts i) as [t|] eqn:Ht; [|eauto].
  destruct (get (symbols t) x); [eauto|].
  pose proof (Hpb _ _ Ht) as Hp.
  destruct (parent t) as [p|]; [apply IH; lia|].
  destruct fuel; eexists; reflexivity.
Qed.



Lemma lookup_returns x st :
  well_formed st -> exists r, lookup x st = Ok r st.
Proof.
  intros (Hpb & _ & c & Hc & Hlt). unfold lookup. rewrite Hc.
  destruct (lookupFrom_total (scopes st) x Hpb (length (scopes st)) c Hlt)
    as [r Hr].
  rewrite Hr. eauto.
Qed.

(** *** Visits keep the cursor *)

Lemma balanced_ret : balanced (ret tt).
Proof.
  intros st H. exists st. split; [reflexivity|]. split; [exact H|].
  split; [reflexivity | apply later_refl].
Qed.

Lemma balanced_bind (m : A unit) (k : unit -> A unit) :
  balanced m -> balanced (k tt) -> balanced (bind m k).
Proof.
  intros Hm Hk st Hwf.
  destruct (Hm st Hwf) as (st1 & E1 & W1 & C1 & L1).
  destruct (Hk st1 W1) as (st2 & E2 & W2 & C2 & L2).
  exists st2. unfold bind. rewrite E1.
  split; [exact E2|]. split; [exact W2|].
  split; [congruence | eauto using later_trans].
Qed.

Lemma balanced_forEach {T} (f : T -> A unit) xs :
  Forall (fun x => balanced (f x)) xs -> balanced (forEach f xs).
Proof.
  induction 1 as [|x xs Hx _ IH]; cbn [forEach]; [apply balanced_ret|].
  now apply balanced_bind.
Qed.

Lemma balanced_error m t : balanced (error m t).
Proof.
  intros st (Hpb & Hg & Hc). eexists. split; [reflexivity|].
  split; [split; [exact Hpb | split; [exact Hg | exact Hc]]|].
  split; [reflexivity|]. split.
  - intros i u Hu. exists u. auto.
  - cbn [errors]. eauto.
Qed.

Lemma balanced_visitIdentifierNode t : balanced (visitIdentifierNode t).
Proof.
  intros st Hwf. unfold visitIdentifierNode.
  destruct (lookup_returns (value t) st Hwf) as [r Hr].
  rewrite (bind_eq _ _ _ _ _ Hr).
  destruct r; [now apply balanced_ret | now apply balanced_error].
Qed.

(** A definition in the scope [scope st] (the cursor or the global scope). *)
Lemma balanced_define (scope : State -> option nat) x ty ps (k : bool -> A unit) :
  (forall st, well_formed st -> exists i, scope st = Some i /\ i < length (scopes st)) ->
  (forall b, balanced (k b)) ->
  balanced (fun st => bind (defineIn (scope st) x ty ps) k st).
Proof.
  intros Hscope Hk st Hwf.
  destruct (Hscope st Hwf) as (i & Hi & Hlt).
  destruct (nth_error (scopes st) i) as [t|] eqn:Ht;
    [|apply nth_error_None in Ht; lia].
  rewrite Hi, (bind_eq _ _ _ _ _ (defineIn_spec i x ty ps st t Ht)).
  destruct (define_spec t x ty ps) as (Hn & Hp & _ & Hs & _).
  destruct (update_later i t (snd (define t x ty ps)) st Ht Hn Hp Hs Hwf)
    as (W1 & L1 & C1).
  destruct (Hk (fst (define t x ty ps)) _ W1) as (st2 & E2 & W2 & C2 & L2).
  exists st2. split; [exact E2|]. split; [exact W2|].
  split; [congruence | eauto using later_trans].
Qed.

Lemma balanced_declareParameter p : balanced (declareParameter p).
Proof.
  unfold declareParameter.
  apply (balanced_define currentScope (value (paramName p)) (paramType p) []
           (fun _ => ret tt)).
  - intros st (_ & _ & c & Hc & Hlt). eauto.
  - intros _. apply balanced_ret.
Qed.

Lemma enterScope_spec nm st :
  well_formed st ->
  let st1 := mkState (scopes st ++ [mkTable nm (currentScope st) []])
                     (Some (length (scopes st))) (errors st) in
  enterScope nm st = Ok tt st1 /\ well_formed st1 /\ later st st1.
Proof.
  intros (Hpb & (g & Hg & Hgp) & c & Hc & Hlt). cbv zeta.
  split; [reflexivity|]. split; [split; [|split]|].
  - intros i t Hi. cbn [scopes] in Hi.
    destruct (Nat.lt_ge_cases i (length (scopes st))) as [Hin|Hout].
    + rewrite nth_error_app1 in Hi by exact Hin. now apply Hpb.
    + rewrite nth_error_app2 in Hi by exact Hout.
      destruct (i - length (scopes st)) as [|k] eqn:Ek.
      * injection Hi as <-. cbn [parent]. rewrite Hc. lia.
      * destruct k; discriminate.
  - exists g. cbn [scopes]. rewrite nth_error_app1 by lia. auto.
  - eexists. split; [reflexivity|]. cbn [scopes]. rewrite length_app. simpl. lia.
  - split; [|exists []; cbn [errors]; now rewrite app_nil_r].
    intros i t Hi. exists t. cbn [scopes].
    rewrite nth_error_app1 by (apply nth_error_Some; congruence). auto.
Qed.

Lemma later_same st st' :
  scopes st' = scopes st -> errors st' = errors st -> later st st'.
Proof.
  intros Hs He. split; [|exists []; now rewrite He, app_nil_r].
  rewrite Hs. intros i t H. exists t. auto.
Qed.

Lemma inScope_returns ms :
  Forall balanced ms ->
  forall st k t c,
    well_formed st -> currentScope st = Some k ->
    nth_error (scopes st) k = Some t -> parent t = Some c ->
    exists st', inScope ms st = Ok tt st' /\ well_formed st' /\
      currentScope st' = Some c /\ later st st'.
Proof.
  induction 1 as [|m ms Hm _ IH]; intros st k t c Hwf Hk Ht Hp;
    cbn [inScope].
  - exists (mkState (scopes st) (Some c) (errors st)).
    unfold exitScope. rewrite Hk, Ht, Hp.
    split; [reflexivity|]. destruct Hwf as (Hpb & Hg & _).
    split; [|split; [reflexivity | now apply later_same]].
    split; [exact Hpb|]. split; [exact Hg|]. exists c.
    split; [reflexivity|]. cbn [scopes].
    pose proof (Hpb _ _ Ht) as Hlt. rewrite Hp in Hlt.
    assert (k < length (scopes st)) by (apply nth_error_Some; congruence).
    lia.
  - destruct (Hm st Hwf) as (st1 & E1 & W1 & C1 & L1).
    destruct (proj1 L1 _ _ Ht) as (t' & Ht' & _ & Hp' & _).
    destruct (IH st1 k t' c W1) as (st2 & E2 & W2 & C2 & L2);
      try congruence.
    exists st2. rewrite (bind_eq _ _ _ _ _ E1).
    split; [exact E2|]. split; [exact W2|].
    split; [exact C2 | eauto using later_trans].
Qed.

(** Methods run between [enterScope] and [exitScope]. *)
Lemma balanced_scoped nm ms :
  Forall balanced ms ->
  balanced (bind (enterScope nm) (fun _ => inScope ms)).
Proof.
  intros Hms st Hwf.
  destruct (enterScope_spec nm st Hwf) as (E1 & W1 & L1).
  set (st1 := mkState _ _ _) in *.
  destruct Hwf as (Hpb & Hg & c & Hc & Hlt).
  assert (Hnew : nth_error (scopes st1) (length (scopes st)) =
                 Some (mkTable nm (Some c) [])).
  { unfold st1. cbn [scopes]. rewrite nth_error_app2 by lia.
    rewrite Nat.sub_diag, Hc. reflexivity. }
  destruct (inScope_returns ms Hms st1 _ _ c W1 eq_refl Hnew eq_refl)
    as (st2 & E2 & W2 & C2 & L2).
  exists st2. rewrite (bind_eq _ _ _ _ _ E1).
  split; [exact E2|]. split; [exact W2|].
  split; [congruence | eauto using later_trans].
Qed.

(** Every visit returns with the cursor where it was. *)
Lemma visit_balanced n : balanced (visit n).
Proof.
  induction n using node_induction; cbn [visit].
  - apply balanced_ret.
  - now apply balanced_forEach.
  - (* FunctionDefinitionNode *)
    apply (balanced_define (fun _ => Some globalScope)).
    + intros st (_ & (g & Hg & _) & _). exists 0. split; [reflexivity|].
      apply nth_error_Some. unfold globalScope in *. congruence.
    + intros b. apply balanced_bind.
      * destruct b; [apply balanced_ret | apply balanced_error].
      * apply (balanced_scoped _ [forEach declareParameter ps; visit n]).
        repeat constructor; [|exact IHn].
        apply balanced_forEach. apply Forall_forall. intros p _.
        apply balanced_declareParameter.
  - apply (balanced_scoped _ [forEach visit ss]).
    repeat constructor. now apply balanced_forEach.
  - (* VariableDeclarationNode *)
    apply (balanced_define currentScope).
    + intros st (_ & _ & c & Hc & Hlt). eauto.
    + intros b. apply balanced_bind; [|exact IHn].
      destruct b; [apply balanced_ret | apply balanced_error].
  - apply balanced_bind; [apply balanced_visitIdentifierNode | exact IHn].
  - now apply balanced_bind.
  - apply balanced_ret.
  - apply balanced_visitIdentifierNode.
  - apply balanced_ret.
  - (* FunctionCallNode *)
    intros st Hwf.
    destruct (lookup_returns (value nm) st Hwf) as [r Hr].
    rewrite (bind_eq _ _ _ _ _ Hr).
    match goal with
    | |- exists st', ?m st = _ /\ _ =>
        assert (Hb : balanced m); [|exact (Hb st Hwf)]
    end.
    apply balanced_bind.
    + destruct r as [[s|]|]; try apply balanced_error.
      destruct (str_eqb _ _); [apply balanced_ret | apply balanced_error].
    + apply balanced_bind; [apply balanced_visitIdentifierNode|].
      now apply balanced_forEach.
  - apply balanced_bind; [exact IHn1|]. now apply balanced_bind.
  - apply (balanced_scoped _ [visit n1; visit n2; visit n3; visit n4]).
    repeat constructor; assumption.
  - exact IHn.
  - exact IHn.
Qed.

Lemma initial_well_formed : well_formed initial.
Proof.
  split; [|split].
  - intros [|[|i]] t H; simpl in H; try discriminate.
    injection H as <-. reflexivity.
  - eexists. split; reflexivity.
  - exists 0. split; [reflexivity | simpl; lia].
Qed.

(** C10: every visit returns with the cursor where it was when the visit
    began, so that [analyze] returns, for every tree, with the cursor at the
    global scope; the global scope is the first table of the list, the only
    one without a parent, and the chain of parents of every table of the
    list ends in it. *)
Theorem scopes_balanced :
  (forall n st,
     well_formed st ->
     exists st', visit n st = Ok tt st' /\
       currentScope st' = currentScope st /\ well_formed st') /\
  (forall ast,
     exists st,
       analyze ast = Ok tt st /\
       currentScope st = Some globalScope /\
       (exists g, nth_error (scopes st) globalScope = Some g /\
          name g = lit "global" /\ parent g = None) /\
       (forall i, i < length (scopes st) -> reaches (scopes st) i globalScope) /\
       (forall i t, nth_error (scopes st) i = Some t -> parent t = None ->
          i = globalScope)).
Proof.
  split.
  - intros n st Hwf.
    destruct (visit_balanced n st Hwf) as (st' & E & W & C & _). eauto.
  - intros ast. unfold analyze.
    destruct (visit_balanced ast initial initial_well_formed)
      as (st & E & W & C & L).
    exists st. split; [exact E|]. split; [exact C|].
    destruct W as (Hpb & _ & _). split; [|split].
    + destruct (proj1 L 0 _ eq_refl) as (g & Hg & Hn & Hp & _).
      exists g. auto.
    + now apply reaches_global.
    + intros i t Ht Hp. specialize (Hpb _ _ Ht). now rewrite Hp in Hpb.
Qed.

Lemma scopes_balanced_witness :
  well_formed initial /\
  exists st',
    visit (BlockNode [ForLoopNode Null Null Null (BlockNode [])]) initial =
      Ok tt st' /\
    currentScope st' = currentScope initial /\ well_formed st'.
Proof.
  assert (H : well_formed initial).
  { split; [|split].
    - intros [|[|i]] t Ht; simpl in Ht; try discriminate.
      injection Ht as <-. reflexivity.
    - eexists. split; reflexivity.
    - exists 0. split; [reflexivity | simpl; lia]. }
  split; [exact H|]. apply (proj1 scopes_balanced). exact H.
Defined.

(** *** Function definitions *)

Lemma update_same i t ts : nth_error ts i = Some t -> update i t ts = ts.
Proof.
  revert i; induction ts as [|x ts IH]; intros [|i] H; simpl in *;
    try discriminate; [congruence | f_equal; auto].
Qed.

Lemma update_update i t t' ts : update i t' (update i t ts) = update i t' ts.
Proof.
  revert i; induction ts as [|x ts IH]; intros [|i]; simpl; auto.
  f_equal. apply IH.
Qed.

Lemma get_monotone syms syms' :
  (forall y s, own syms y = Some s -> own syms' y = Some s) ->
  forall y, get syms y <> None -> get syms' y <> None.
Proof.
  intros H y. unfold get. destruct (own syms y) as [s|] eqn:E.
  - now rewrite (H _ _ E).
  - destruct (own syms' y); [discriminate | auto].
Qed.

Lemma declareParameter_spec p st k f :
  currentScope st = Some k -> nth_error (scopes st) k = Some f ->
  declareParameter p st =
  Ok tt (mkState
           (update k (snd (define f (value (paramName p)) (paramType p) []))
                   (scopes st))
           (Some k) (errors st)).
Proof.
  intros Hk Hf. unfold declareParameter, getCurrentScope, bind.
  rewrite Hk, (defineIn_spec _ _ _ _ _ _ Hf), Hk. reflexivity.
Qed.

(** The parameters are declared in the table under the cursor, one after
    the other; names and parents stay. *)
Lemma declareParameters_spec ps : forall st k f,
  currentScope st = Some k -> nth_error (scopes st) k = Some f ->
  exists f',
    forEach declareParameter ps st =
      Ok tt (mkState (update k f' (scopes st)) (Some k) (errors st)) /\
    name f' = name f /\ parent f' = parent f /\
    (forall x, get (symbols f) x <> None -> get (symbols f') x <> None) /\
    (forall p, In p ps -> get (symbols f') (value (paramName p)) <> None).
Proof.
  induction ps as [|p ps IH]; intros st k f Hk Hf.
  - exists f. rewrite (update_same _ _ _ Hf). destruct st as [ts cur es].
    cbn in *. subst cur. do 3 (split; [reflexivity|]).
    split; [auto | intros p []].
  - cbn [forEach].
    rewrite (bind_eq _ _ _ _ _ (declareParameter_spec p st k f Hk Hf)).
    destruct (define_spec f (value (paramName p)) (paramType p) [])
      as (Hn & Hp & Hx & Hs & _).
    set (f1 := snd (define f _ _ _)) in *.
    assert (Hlt : k < length (scopes st))
      by (apply nth_error_Some; congruence).
    destruct (IH (mkState (update k f1 (scopes st)) (Some k) (errors st))
                k f1 eq_refl (nth_error_update_same _ _ _ Hlt))
      as (f' & E & Hn' & Hp' & Hm' & Hps').
    exists f'. rewrite E. cbn [scopes errors]. rewrite update_update.
    split; [reflexivity|]. split; [congruence|]. split; [congruence|].
    split.
    + intros x Hgx. apply Hm'. revert Hgx. now apply get_monotone.
    + intros q [<- | Hq]; [apply Hm'; exact Hx | now apply Hps'].
Qed.

Lemma enterScope_eq nm st :
  enterScope nm st =
  Ok tt (mkState (scopes st ++ [mkTable nm (currentScope st) []])
                 (Some (length (scopes st))) (errors st)).
Proof. reflexivity. Qed.

(** A function definition puts its name into the global scope, whatever
    scope the cursor is in: when the global scope has a symbol of that name
    the one error is recorded and the symbols stay, otherwise the function
    symbol is added; no other table changes.  The visit then goes on in a
    new table, named after the function, whose parent is the scope the
    cursor was in, and in which every parameter is declared; what remains is
    the visit of the body and the [exitScope]. *)
Theorem function_definition_scope (rt : jsstring) (nm : Token)
    (ps : list Param) (body : node) (st : State) (c : nat) (g : SymbolTable) :
  well_formed st ->
  currentScope st = Some c ->
  nth_error (scopes st) globalScope = Some g ->
  exists st3 g3 f,
    visit (FunctionDefinitionNode rt nm ps body) st =
      bind (visit body) (fun _ => exitScope) st3 /\
    nth_error (scopes st3) globalScope = Some g3 /\
    get (symbols g3) (value nm) <> None /\
    (get (symbols g) (value nm) = None ->
       symbols g3 = symbols g ++ [(value nm, mkSymbol (lit "function") ps)] /\
       errors st3 = errors st) /\
    (get (symbols g) (value nm) <> None ->
       symbols g3 = symbols g /\
       errors st3 = errors st ++ [alreadyDefined nm]) /\
    (forall i t, i <> globalScope -> nth_error (scopes st) i = Some t ->
       nth_error (scopes st3) i = Some t) /\
    length (scopes st3) = S (length (scopes st)) /\
    currentScope st3 = Some (length (scopes st)) /\
    nth_error (scopes st3) (length (scopes st)) = Some f /\
    name f = value nm /\ parent f = Some c /\
    (forall p, In p ps -> get (symbols f) (value (paramName p)) <> None).
Proof.
  intros Hwf Hc Hg. unfold globalScope in *.
  assert (Hlen : 0 < length (scopes st)) by (apply nth_error_Some; congruence).
  cbn [visit]. unfold globalScope.
  rewrite (bind_eq _ _ _ _ _ (defineIn_spec 0 _ _ _ _ _ Hg)).
  destruct (define_spec g (value nm) (lit "function") ps)
    as (Hn & Hp & Hx & Hs & Hold & Hnew).
  set (r := define g (value nm) (lit "function") ps) in *.
  set (scopes1 := update 0 (snd r) (scopes st)).
  set (errors1 := if fst r then errors st else errors st ++ [alreadyDefined nm]).
  assert (E2 : (if fst r then ret tt
                else error (lit "Function " ++ quoted (value nm) ++
                            lit " already defined.") nm)
                 (mkState scopes1 (currentScope st) (errors st)) =
               Ok tt (mkState scopes1 (currentScope st) errors1)).
  { unfold errors1. destruct (fst r); reflexivity. }
  rewrite (bind_eq _ _ _ _ _ E2).
  rewrite (bind_eq _ _ _ _ _ (enterScope_eq _ _)).
  cbn [scopes currentScope errors].
  assert (Hl1 : length scopes1 = length (scopes st)) by apply length_update.
  set (new := mkTable (value nm) (currentScope st) []).
  assert (Hnth : nth_error (scopes1 ++ [new]) (length scopes1) = Some new).
  { rewrite nth_error_app2 by lia. now rewrite Nat.sub_diag. }
  destruct (declareParameters_spec ps
              (mkState (scopes1 ++ [new]) (Some (length scopes1)) errors1)
              (length scopes1) new eq_refl Hnth)
    as (f & E3 & Hfn & Hfp & _ & Hps).
  rewrite (bind_eq _ _ _ _ _ E3). cbn [scopes errors].
  eexists. exists (snd r), f. split; [reflexivity|]. cbn [scopes errors currentScope].
  assert (H0 : nth_error (update (length scopes1) f (scopes1 ++ [new])) 0 =
               Some (snd r)).
  { rewrite nth_error_update_other by lia. rewrite nth_error_app1 by lia.
    unfold scopes1. now apply nth_error_update_same. }
  split; [exact H0|]. split; [exact Hx|]. split; [|split; [|split]].
  - intros Hnone. destruct (Hnew Hnone) as (Hb & Hsym & _).
    split; [exact Hsym|]. unfold errors1. now rewrite Hb.
  - intros Hsome. specialize (Hold Hsome). unfold errors1. rewrite Hold.
    split; reflexivity.
  - intros i t Hi Ht.
    assert (i < length (scopes st)) by (apply nth_error_Some; congruence).
    rewrite nth_error_update_other by lia. rewrite nth_error_app1 by lia.
    unfold scopes1. rewrite nth_error_update_other by auto. exact Ht.
  - split; [now rewrite length_update, length_app, Hl1, Nat.add_comm|].
    split; [now rewrite Hl1|]. rewrite <- Hl1.
    split; [apply nth_error_update_same; rewrite length_app; simpl; lia|].
    split; [exact Hfn|]. split; [rewrite Hfp; unfold new; cbn [parent]; exact Hc|].
    exact Hps.
Qed.

(** Inside the body of a function [f(int a)], a definition of [g(int b)]. *)
Lemma function_definition_scope_witness :
  exists st3 g3 f,
    visit (FunctionDefinitionNode (lit "int") (ident "g" 1)
             [mkParam (lit "int") (ident "b" 2)] (BlockNode []))
          (mkState
             [mkTable (lit "global") None
                [(lit "printf", mkSymbol (lit "function") [])];
              mkTable (lit "f") (Some 0) [(lit "a", mkSymbol (lit "int") [])]]
             (Some 1) []) =
      bind (visit (BlockNode [])) (fun _ => exitScope) st3 /\
    nth_error (scopes st3) globalScope = Some g3 /\
    get (symbols g3) (lit "g") <> None /\
    currentScope st3 = Some 2 /\
    nth_error (scopes st3) 2 = Some f /\
    name f = lit "g" /\ parent f = Some 1.
Proof.
  destruct (function_definition_scope (lit "int") (ident "g" 1)
              [mkParam (lit "int") (ident "b" 2)] (BlockNode [])
              (mkState
                 [mkTable (lit "global") None
                    [(lit "printf", mkSymbol (lit "function") [])];
                  mkTable (lit "f") (Some 0)
                    [(lit "a", mkSymbol (lit "int") [])]]
                 (Some 1) [])
              1
              (mkTable (lit "global") None
                 [(lit "printf", mkSymbol (lit "function") [])]))
    as (st3 & g3 & f & H1 & H2 & H3 & _ & _ & _ & _ & H4 & H5 & H6 & H7 & _).
  - split; [|split].
    + intros [|[|[|i]]] t Ht; simpl in Ht; try discriminate;
        injection Ht as <-; simpl; lia.
    + eexists. split; reflexivity.
    + exists 1. split; [reflexivity | simpl; lia].
  - reflexivity.
  - reflexivity.
  - exists st3, g3, f. repeat split; assumption.
Defined.

Lemma get_ordinary syms x :
  inherited x = false ->
  (get syms x = None <-> own syms x = None).
Proof.
  intros Hi. rewrite get_None. tauto.
Qed.

(** For names that objects do not inherit, a function definition stores
    the function in the global scope unless the global scope holds a symbol
    of that name, in which case the one error is recorded; the parameters
    are stored in the new table. *)
Lemma function_definition_ordinary (rt : jsstring) (nm : Token)
    (ps : list Param) (body : node) (st : State) (c : nat) (g : SymbolTable) :
  well_formed st ->
  currentScope st = Some c ->
  nth_error (scopes st) globalScope = Some g ->
  inherited (value nm) = false ->
  (forall p, In p ps -> inherited (value (paramName p)) = false) ->
  exists st3 g3 f,
    visit (FunctionDefinitionNode rt nm ps body) st =
      bind (visit body) (fun _ => exitScope) st3 /\
    nth_error (scopes st3) globalScope = Some g3 /\
    own (symbols g3) (value nm) <> None /\
    (own (symbols g) (value nm) = None ->
       symbols g3 = symbols g ++ [(value nm, mkSymbol (lit "function") ps)] /\
       errors st3 = errors st) /\
    (own (symbols g) (value nm) <> None ->
       symbols g3 = symbols g /\
       errors st3 = errors st ++ [alreadyDefined nm]) /\
    (forall i t, i <> globalScope -> nth_error (scopes st) i = Some t ->
       nth_error (scopes st3) i = Some t) /\
    currentScope st3 = Some (length (scopes st)) /\
    nth_error (scopes st3) (length (scopes st)) = Some f /\
    name f = value nm /\ parent f = Some c /\
    (forall p, In p ps -> own (symbols f) (value (paramName p)) <> None).
Proof.
  intros Hwf Hc Hg Hnm Hps.
  destruct (function_definition_scope rt nm ps body st c g Hwf Hc Hg)
    as (st3 & g3 & f & Hv & Hg3 & Hx & Hnew & Hold & Hother & _ & Hcur & Hf &
        Hname & Hparent & Hparams).
  exists st3, g3, f. split; [exact Hv|]. split; [exact Hg3|].
  split; [now rewrite <- (get_ordinary _ _ Hnm)|].
  split; [intros H; apply Hnew; now apply get_ordinary|].
  split; [intros H; apply Hold; now rewrite (get_ordinary _ _ Hnm)|].
  split; [exact Hother|]. split; [exact Hcur|]. split; [exact Hf|].
  split; [exact Hname|]. split; [exact Hparent|].
  intros p Hp. rewrite <- (get_ordinary _ _ (Hps p Hp)). now apply Hparams.
Qed.

(** C5 (the code fails it): in [int toString(int valueOf) { }] the function
    is not defined in the global scope and the parameter is not declared in
    the scope of the function: [define] finds both names among the members
    the symbols object inherits, stores nothing, and the analyzer records
    that the function is already defined although the global scope holds no
    such symbol. *)
Theorem inherited_function_name_not_defined :
  Lexer.tokenize (lit "int toString(int valueOf) { }") =
    Lexer.Tokens defines_toString /\
  Parser.parse defines_toString = Parser.Parsed defines_toString_ast [] /\
  errorsOf (analyze defines_toString_ast) =
    Some [mkError
            (lit "Semantic Error: Function 'toString' already defined.")
            (Some 1%Z)] /\
  scopesOf (analyze defines_toString_ast) =
    Some [mkTable (lit "global") None
            [(lit "printf", mkSymbol (lit "function") [])];
          mkTable (lit "toString") (Some 0) [];
          mkTable (lit "block") (Some 1) []].
Proof. repeat split; vm_compute; reflexivity. Qed.

(** *** Variable declarations *)

(** A declaration without initializer, in the table [t] under the cursor. *)
Lemma declaration_spec vt v st c t :
  currentScope st = Some c -> nth_error (scopes st) c = Some t ->
  visit (VariableDeclarationNode vt v Null) st =
  Ok tt (mkState
           (update c (snd (define t (value v) (lit "variable") [])) (scopes st))
           (Some c)
           (if fst (define t (value v) (lit "variable") [])
            then errors st else errors st ++ [alreadyDeclared v])).
Proof.
  intros Hc Ht. cbn [visit]. unfold bind at 1, getCurrentScope.
  rewrite Hc, (bind_eq _ _ _ _ _ (defineIn_spec c _ _ _ _ _ Ht)), Hc.
  destruct (fst (define t (value v) (lit "variable") [])); reflexivity.
Qed.

(** For a name that objects do not inherit: the first declaration in a
    scope records nothing, a second one in the same scope records the one
    error, and one in a new nested scope records nothing. *)
Lemma redeclaration vt v st c t :
  currentScope st = Some c -> nth_error (scopes st) c = Some t ->
  inherited (value v) = false -> own (symbols t) (value v) = None ->
  let d := VariableDeclarationNode vt v Null in
  (exists st1, visit d st = Ok tt st1 /\ errors st1 = errors st) /\
  (exists st2, bind (visit d) (fun _ => visit d) st = Ok tt st2 /\
     errors st2 = errors st ++ [alreadyDeclared v]) /\
  (exists st3,
     bind (visit d) (fun _ => bind (enterScope (lit "block")) (fun _ => visit d))
       st = Ok tt st3 /\
     errors st3 = errors st).
Proof.
  intros Hc Ht Hinh Hown. cbv zeta.
  assert (Hlt : c < length (scopes st)) by (apply nth_error_Some; congruence).
  pose proof (declaration_spec vt v st c t Hc Ht) as E1.
  destruct (define_spec t (value v) (lit "variable") [])
    as (_ & _ & Hx & _ & Hold & Hnew).
  destruct Hnew as (Hb & _ & _); [now apply get_None|].
  rewrite Hb in E1.
  set (t1 := snd (define t (value v) (lit "variable") [])) in *.
  set (st1 := mkState (update c t1 (scopes st)) (Some c) (errors st)) in *.
  split; [exists st1; split; [exact E1 | reflexivity]|]. split.
  - rewrite (bind_eq _ _ _ _ _ E1).
    assert (Ht1 : nth_error (scopes st1) c = Some t1)
      by now apply nth_error_update_same.
    rewrite (declaration_spec vt v st1 c t1 eq_refl Ht1).
    destruct (define_spec t1 (value v) (lit "variable") [])
      as (_ & _ & _ & _ & Hold1 & _).
    rewrite (Hold1 Hx). cbn [fst snd]. eexists. split; reflexivity.
  - rewrite (bind_eq _ _ _ _ _ E1), (bind_eq _ _ _ _ _ (enterScope_eq _ _)).
    set (k := length (scopes st1)).
    set (new := mkTable (lit "block") (currentScope st1) []).
    assert (Hk : nth_error (scopes st1 ++ [new]) k = Some new).
    { unfold k. rewrite nth_error_app2 by lia. now rewrite Nat.sub_diag. }
    rewrite (declaration_spec vt v
               (mkState (scopes st1 ++ [new]) (Some k) (errors st1))
               k new eq_refl Hk).
    assert (Hfresh : get (symbols new) (value v) = None)
      by (apply get_None; split; [reflexivity | exact Hinh]).
    unfold define. rewrite Hfresh. cbn [fst snd]. eexists. split; reflexivity.
Qed.

(** C7 (the code fails it): the one declaration of [toString] in
    [int main() { int toString; }] is reported as a redeclaration, the name
    being found among the members the symbols object inherits. *)
Theorem inherited_name_already_declared :
  Lexer.tokenize (lit "int main() { int toString; }") =
    Lexer.Tokens declares_toString /\
  Parser.parse declares_toString = Parser.Parsed declares_toString_ast [] /\
  errorsOf (analyze declares_toString_ast) =
    Some [mkError
            (lit "Semantic Error: Variable 'toString' already declared.")
            (Some 1%Z)].
Proof. repeat split; vm_compute; reflexivity. Qed.

(** *** Scoping isolation *)







(** *** Calls *)

Lemma lookup_withErrors x st new :
  lookup x (withErrors st new) =
  match lookup x st with
  | Ok r _ => Ok r (withErrors st new)
  | TypeError => TypeError
  | OutOfFuel => OutOfFuel
  end.
Proof.
  unfold lookup, withErrors. cbn [currentScope scopes].
  destruct (currentScope st); [|reflexivity].
  now destruct (lookupFrom _ _ _ _).
Qed.

Lemma withErrors_nil st : withErrors st [] = st.
Proof. unfold withErrors. rewrite app_nil_r. now destruct st. Qed.

Lemma error_withErrors m t st :
  error m t st =
  Ok tt (withErrors st [mkError (lit "Semantic Error: " ++ m)
                                (Some (tokenLine t))]).
Proof. reflexivity. Qed.

Lemma withErrors_app st a b :
  withErrors (withErrors st a) b = withErrors st (a ++ b).
Proof. unfold withErrors. cbn. now rewrite app_assoc. Qed.

Lemma lookup_nearest x st c t s :
  currentScope st = Some c -> nth_error (scopes st) c = Some t ->
  own (symbols t) x = Some s -> lookup x st = Ok (Some (Own s)) st.
Proof.
  intros Hc Ht Hs. unfold lookup. rewrite Hc.
  destruct (length (scopes st)); cbn [lookupFrom]; rewrite Ht;
    now rewrite (get_own _ _ _ Hs).
Qed.

(** X14: a call first looks the name up from the current scope; the symbol
    of the nearest table wins.  A name that is not found records two errors,
    that the function is not defined and (by the visit of the name that
    follows) that the variable is undeclared; a name found with a type other
    than function, or found only as an inherited member, records that it is
    not a function; no other check is made (the number of arguments is not
    compared), and the arguments are visited afterwards. *)
Theorem function_call_check (f : Token) (args : list node) (st : State) :
  well_formed st ->
  exists found,
    lookup (value f) st = Ok found st /\
    visit (FunctionCallNode f args) st =
      forEach visit args (withErrors st (callErrors found f)) /\
    (forall c t s,
       currentScope st = Some c -> nth_error (scopes st) c = Some t ->
       own (symbols t) (value f) = Some s -> found = Some (Own s)).
Proof.
  intros Hwf. destruct (lookup_returns (value f) st Hwf) as [found Hf].
  exists found. split; [exact Hf|]. split.
  - cbn [visit]. rewrite (bind_eq _ _ _ _ _ Hf).
    assert (Hid : forall new,
      visitIdentifierNode f (withErrors st new) =
      Ok tt (withErrors st (new ++ match found with
                                   | None => [undeclared f]
                                   | Some _ => []
                                   end))).
    { intros new. unfold visitIdentifierNode.
      assert (Hl : lookup (value f) (withErrors st new) =
                   Ok found (withErrors st new))
        by (now rewrite lookup_withErrors, Hf).
      rewrite (bind_eq _ _ _ _ _ Hl).
      destruct found; [now rewrite app_nil_r|].
      now rewrite error_withErrors, withErrors_app. }
    assert (Hstep : forall (m : A unit) new,
      m st = Ok tt (withErrors st new) ->
      bind m (fun _ => bind (visitIdentifierNode f)
                         (fun _ => forEach visit args)) st =
      forEach visit args
        (withErrors st (new ++ match found with
                               | None => [undeclared f]
                               | Some _ => []
                               end))).
    { intros m new Hm. rewrite (bind_eq _ _ _ _ _ Hm).
      now rewrite (bind_eq _ _ _ _ _ (Hid new)). }
    destruct found as [[s|]|]; cbn [callErrors].
    + destruct (str_eqb (symType s) (lit "function")).
      * rewrite (Hstep _ []); [reflexivity|].
        now rewrite withErrors_nil.
      * erewrite Hstep; [|apply error_withErrors]. reflexivity.
    + erewrite Hstep; [|apply error_withErrors]. reflexivity.
    + erewrite Hstep; [|apply error_withErrors]. reflexivity.
  - intros c t s Hc Ht Hs.
    rewrite (lookup_nearest _ _ _ _ _ Hc Ht Hs) in Hf. now injection Hf.
Qed.

Lemma function_call_check_witness :
  well_formed initial /\
  exists found,
    lookup (lit "foo") initial = Ok found initial /\
    visit (FunctionCallNode (ident "foo" 7) []) initial =
      forEach visit []
        (withErrors initial (callErrors found (ident "foo" 7))).
Proof.
  split; [exact initial_well_formed|].
  destruct (function_call_check (ident "foo" 7) [] initial initial_well_formed)
    as (found & H1 & H2 & _).
  exists found. split; assumption.
Defined.

(** *** The tables of a visit *)

Lemma map_name_update i t t' ts :
  nth_error ts i = Some t -> name t' = name t ->
  map name (update i t' ts) = map name ts.
Proof.
  revert i. induction ts as [|x ts IH]; intros [|i] H Hn; simpl in *;
    try discriminate.
  - injection H as ->. now rewrite Hn.
  - f_equal. now apply IH.
Qed.

Lemma defineIn_names sc x ty ps st b st' :
  defineIn sc x ty ps st = Ok b st' -> tableNames st' = tableNames st.
Proof.
  unfold defineIn, tableNames. destruct sc as [i|]; [|discriminate].
  destruct (nth_error (scopes st) i) as [t|] eqn:Ht; [|discriminate].
  pose proof (define_spec t x ty ps) as (Hn & _).
  destruct (define t x ty ps) as [ok t']. intros [= _ <-]. cbn [scopes snd] in *.
  now apply map_name_update with t.
Qed.

Lemma error_names m t st st' :
  error m t st = Ok tt st' -> tableNames st' = tableNames st.
Proof. now intros [= <-]. Qed.

Lemma lookup_unchanged x st r st' : lookup x st = Ok r st' -> st' = st.
Proof.
  unfold lookup. destruct (currentScope st); [|discriminate].
  destruct (lookupFrom _ _ _ _); [|discriminate]. now intros [= _ <-].
Qed.

Lemma visitIdentifierNode_names t st st' :
  visitIdentifierNode t st = Ok tt st' -> tableNames st' = tableNames st.
Proof.
  unfold visitIdentifierNode. intros H. invert_binds H.
  apply lookup_unchanged in E. subst.
  destruct a; [now injection H as <- | now apply error_names in H].
Qed.

Lemma enterScope_names nm st st' :
  enterScope nm st = Ok tt st' -> tableNames st' = tableNames st ++ [nm].
Proof. intros [= <-]. unfold tableNames. cbn [scopes]. now rewrite map_app. Qed.

Lemma exitScope_names st st' :
  exitScope st = Ok tt st' -> tableNames st' = tableNames st.
Proof.
  unfold exitScope. destruct (currentScope st); [|discriminate].
  destruct (nth_error _ _); [|discriminate]. now intros [= <-].
Qed.

Lemma forEach_names {T} (f : T -> A unit) (names : T -> list jsstring) xs :
  Forall (fun x => forall st st', f x st = Ok tt st' ->
                   tableNames st' = tableNames st ++ names x) xs ->
  forall st st', forEach f xs st = Ok tt st' ->
    tableNames st' = tableNames st ++ flat_map names xs.
Proof.
  induction 1 as [|x xs Hx _ IH]; intros st st' H; cbn [forEach flat_map] in *.
  - injection H as <-. now rewrite app_nil_r.
  - invert_binds H. destruct a. apply Hx in E. apply IH in H.
    now rewrite H, E, app_assoc.
Qed.

Lemma declareParameters_names ps : forall st st',
  forEach declareParameter ps st = Ok tt st' -> tableNames st' = tableNames st.
Proof.
  intros st st' H.
  rewrite (forEach_names declareParameter (fun _ => []) ps) with (st := st)
    (st' := st'); [| |exact H].
  - clear. induction ps; simpl; [now rewrite app_nil_r | assumption].
  - apply Forall_forall. intros p _ s s' Hp. rewrite app_nil_r.
    unfold declareParameter in Hp. invert_binds Hp.
    injection Hp as <-. apply defineIn_names in E0.
    injection E as <- <-. exact E0.
Qed.

Ltac units :=
  repeat match goal with u : unit |- _ => destruct u end.

Ltac names_step :=
  match goal with
  | E : enterScope _ _ = Ok _ _ |- _ => apply enterScope_names in E
  | E : exitScope _ = Ok _ _ |- _ => apply exitScope_names in E
  | E : defineIn _ _ _ _ _ = Ok _ _ |- _ => apply defineIn_names in E
  | E : error _ _ _ = Ok _ _ |- _ => apply error_names in E
  | E : visitIdentifierNode _ _ = Ok _ _ |- _ =>
      apply visitIdentifierNode_names in E
  | E : forEach declareParameter _ _ = Ok _ _ |- _ =>
      apply declareParameters_names in E
  | E : ret _ _ = Ok _ _ |- _ => injection E as <- <-
  | E : getCurrentScope _ = Ok _ _ |- _ => injection E as <- <-
  | IH : forall st st', visit ?n st = Ok tt st' -> _,
    E : visit ?n _ = Ok _ _ |- _ => apply IH in E
  end.

Lemma visit_names n : forall st st',
  visit n st = Ok tt st' -> tableNames st' = tableNames st ++ scopeNames n.
Proof.
  induction n using node_induction; intros st st' Hv;
    cbn [visit scopeNames] in *.
  - injection Hv as <-. now rewrite app_nil_r.
  - eapply forEach_names; eauto.
  - invert_binds Hv. units.
    assert (Hb : tableNames st1 = tableNames st0).
    { destruct a; [now injection E0 as <- | now apply error_names in E0]. }
    repeat names_step.
    rewrite Hv, E3, E2, E1, Hb, E. now rewrite <- app_assoc.
  - invert_binds Hv. units. apply enterScope_names in E.
    eapply forEach_names in E0; [|exact H]. apply exitScope_names in Hv.
    rewrite Hv, E0, E. now rewrite <- app_assoc.
  - invert_binds Hv. units.
    assert (Hb : tableNames st2 = tableNames st1).
    { destruct a0; [now injection E1 as <- | now apply error_names in E1]. }
    repeat names_step. now rewrite Hv, Hb, E0.
  - invert_binds Hv. units. repeat names_step. now rewrite Hv, E.
  - invert_binds Hv. units. repeat names_step. now rewrite Hv, E, app_assoc.
  - injection Hv as <-. now rewrite app_nil_r.
  - apply visitIdentifierNode_names in Hv. now rewrite app_nil_r.
  - injection Hv as <-. now rewrite app_nil_r.
  - invert_binds Hv. units. apply lookup_unchanged in E. subst st0.
    assert (Hb : tableNames st1 = tableNames st).
    { destruct a as [[s|]|]; try (now apply error_names in E0).
      destruct (str_eqb _ _); [now injection E0 as <- | now apply error_names in E0]. }
    apply visitIdentifierNode_names in E1.
    eapply forEach_names in Hv; [|exact H]. now rewrite Hv, E1, Hb.
  - invert_binds Hv. units. repeat names_step.
    now rewrite Hv, E0, E, <- !app_assoc.
  - invert_binds Hv. units. repeat names_step.
    rewrite Hv, E3, E2, E1, E0, E. now rewrite <- !app_assoc.
  - now apply IHn.
  - now apply IHn.
Qed.

(** X15: the analyzer keeps every table it creates, in the order of
    creation: a visit appends one table for each function definition (named
    after the function), each block (named block) and each for loop (named
    for-loop) of the tree, in the order in which they are visited, and
    changes no name; so [analyze] returns the global table followed by those
    of the tree. *)
Theorem tables_in_visiting_order (n : node) (st : State) :
  well_formed st ->
  (exists st', visit n st = Ok tt st' /\
     tableNames st' = tableNames st ++ scopeNames n) /\
  exists st', analyze n = Ok tt st' /\
     tableNames st' = lit "global" :: scopeNames n.
Proof.
  intros Hwf. split.
  - destruct (visit_balanced n st Hwf) as (st' & E & _).
    exists st'. split; [exact E | now apply visit_names].
  - destruct (visit_balanced n initial initial_well_formed) as (st' & E & _).
    exists st'. split; [exact E|]. now apply visit_names in E.
Qed.

Lemma tables_in_visiting_order_witness :
  well_formed initial /\
  exists st', analyze function_with_loop = Ok tt st' /\
    tableNames st' = map lit ["global"; "f"; "block"; "for-loop"; "block"]%string.
Proof.
  split; [exact initial_well_formed|].
  exact (proj2 (tables_in_visiting_order function_with_loop initial
                  initial_well_formed)).
Defined.

(** *** Symbols stay *)

(** X16: analysis never removes or replaces a symbol and never drops an
    error: after a visit every table that existed is still at its place
    with its name and parent, every symbol it held is still bound to the
    same value (a later definition of the same name changes nothing), and
    the errors recorded before are a prefix of the errors after.  In
    particular the built-in [printf] is a function symbol of the global
    table in whatever [analyze] returns. *)
Theorem symbols_persist (n : node) (st : State) :
  well_formed st ->
  (exists st', visit n st = Ok tt st' /\ later st st') /\
  exists st' g, analyze n = Ok tt st' /\
    nth_error (scopes st') globalScope = Some g /\
    own (symbols g) (lit "printf") = Some printfSymbol.
Proof.
  intros Hwf. split.
  - destruct (visit_balanced n st Hwf) as (st' & E & _ & _ & L). eauto.
  - destruct (visit_balanced n initial initial_well_formed)
      as (st' & E & _ & _ & L).
    destruct (proj1 L 0 _ eq_refl) as (g & Hg & _ & _ & Hs).
    exists st', g. split; [exact E|]. split; [exact Hg|].
    apply Hs. reflexivity.
Qed.

Lemma symbols_persist_witness :
  well_formed initial /\
  exists st' g, analyze function_with_loop = Ok tt st' /\
    nth_error (scopes st') globalScope = Some g /\
    own (symbols g) (lit "printf") = Some printfSymbol.
Proof.
  split; [exact initial_well_formed|].
  exact (proj2 (symbols_persist function_with_loop initial initial_well_formed)).
Defined.

End SemanticProperties.

(** ** Utility *)

Lemma replacement_cases c :
  Utility.special c = true ->
  (c = 38%N /\ Utility.replacement c = lit "&amp;") \/
  (c = 60%N /\ Utility.replacement c = lit "&lt;") \/
  (c = 62%N /\ Utility.replacement c = lit "&gt;") \/
  (c = 34%N /\ Utility.replacement c = lit "&quot;") \/
  (c = 39%N /\ Utility.replacement c = lit "&#039;").
Proof.
  unfold Utility.special. intros H. apply one_of_In in H.
  destruct H as [<-|[<-|[<-|[<-|[<-|[]]]]]]; tauto.
Qed.

Lemma replacement_entity c :
  Utility.special c = true ->
  exists tl, Utility.replacement c = 38%N :: tl /\
    In (Utility.replacement c) entityTexts /\
    forallb (fun x => negb (Utility.special x)) tl = true.
Proof.
  intros H.
  destruct (replacement_cases c H) as [[-> ->]|[[-> ->]|[[-> ->]|[[-> ->]|[-> ->]]]]];
    eexists; (split; [reflexivity|]); (split; [|reflexivity]);
    unfold entityTexts; simpl; tauto.
Qed.

Lemma special_cases c :
  Utility.special c = (N.eqb c 38 || markup c).
Proof.
  unfold Utility.special, markup, one_of. cbn [existsb].
  now rewrite (N.eqb_sym c 38).
Qed.

(** One step of the replacement: what the output begins with. *)
Lemma replaceSpecial_cons c r :
  Utility.replaceSpecial (c :: r) =
  (if Utility.special c then Utility.replacement c else [c]) ++
  Utility.replaceSpecial r.
Proof. reflexivity. Qed.

Lemma escape_no_markup s :
  forallb (fun c => negb (markup c)) (Utility.replaceSpecial s) = true.
Proof.
  induction s as [|c r IH]; [reflexivity|].
  rewrite replaceSpecial_cons, forallb_app, IH, andb_true_r.
  destruct (Utility.special c) eqn:E.
  - destruct (replacement_cases c E) as [[_ ->]|[[_ ->]|[[_ ->]|[[_ ->]|[_ ->]]]]];
      reflexivity.
  - rewrite special_cases in E. apply orb_false_elim in E as [_ E].
    cbn [forallb]. now rewrite E.
Qed.

Lemma escape_ampersands s : ampersandsBeginEntities (Utility.replaceSpecial s).
Proof.
  induction s as [|c r IH]; intros pre post H.
  - destruct pre; discriminate.
  - rewrite replaceSpecial_cons in H.
    destruct (Utility.special c) eqn:E.
    + destruct (replacement_entity c E) as (tl & Htl & Hin & Hplain).
      destruct pre as [|p pre].
      * (* the ampersand is the one that begins the entity *)
        exists (Utility.replacement c). split; [exact Hin|].
        cbn [app] in H. rewrite <- H.
        generalize (Utility.replacement c) (Utility.replaceSpecial r).
        intros a b. induction a as [|x a IHa]; [reflexivity|].
        simpl. now rewrite N.eqb_refl.
      * (* it is further on: not inside the entity, which holds one *)
        rewrite Htl in H. cbn [app] in H. injection H as _ H.
        clear Htl Hin. revert pre H.
        induction tl as [|x tl IHtl]; intros pre H.
        -- cbn [app] in H. eapply IH. exact H.
        -- cbn [forallb] in Hplain. apply andb_prop in Hplain as [Hx Hplain].
           destruct pre as [|p' pre]; cbn [app] in H.
           ++ injection H as -> _. discriminate Hx.
           ++ injection H as _ H. eapply IHtl; eauto.
    + destruct pre as [|p pre]; cbn [app] in H.
      * injection H as -> _. discriminate E.
      * injection H as _ H. eapply IH. exact H.
Qed.

(** X17: the text [escapeHtml] returns holds none of the characters [<],
    [>], double quote and single quote, and every ampersand in it begins one
    of the five entities the function writes; for a value that is not a
    string it returns the empty string. *)
Theorem escapeHtml_output (v : Utility.Value) :
  forallb (fun c => negb (markup c)) (Utility.escapeHtml v) = true /\
  ampersandsBeginEntities (Utility.escapeHtml v) /\
  Utility.escapeHtml Utility.NotString = [].
Proof.
  destruct v as [s|]; cbn [Utility.escapeHtml].
  - split; [apply escape_no_markup|]. split; [apply escape_ampersands|reflexivity].
  - split; [reflexivity|]. split; [|reflexivity].
    intros pre post H. destruct pre; discriminate.
Qed.

Lemma entity_prefix_free c1 c2 r1 r2 :
  Utility.special c1 = true -> Utility.special c2 = true ->
  Utility.replacement c1 ++ r1 = Utility.replacement c2 ++ r2 ->
  c1 = c2 /\ r1 = r2.
Proof.
  intros H1 H2.
  destruct (replacement_cases c1 H1) as [[-> ->]|[[-> ->]|[[-> ->]|[[-> ->]|[-> ->]]]]];
  destruct (replacement_cases c2 H2) as [[-> ->]|[[-> ->]|[[-> ->]|[[-> ->]|[-> ->]]]]];
    cbn [lit map list_ascii_of_string N_of_ascii app];
    intros H; first [discriminate H | injection H as H; now split].
Qed.

Lemma replaceSpecial_injective s1 : forall s2,
  Utility.replaceSpecial s1 = Utility.replaceSpecial s2 -> s1 = s2.
Proof.
  induction s1 as [|c1 r1 IH]; intros [|c2 r2] H.
  - reflexivity.
  - rewrite replaceSpecial_cons in H. cbn [Utility.replaceSpecial] in H.
    destruct (Utility.special c2) eqn:E2; [|discriminate].
    destruct (replacement_entity c2 E2) as (tl & Htl & _).
    rewrite Htl in H. discriminate H.
  - rewrite replaceSpecial_cons in H. cbn [Utility.replaceSpecial] in H.
    destruct (Utility.special c1) eqn:E1; [|discriminate].
    destruct (replacement_entity c1 E1) as (tl & Htl & _).
    rewrite Htl in H. discriminate H.
  - rewrite !replaceSpecial_cons in H.
    destruct (Utility.special c1) eqn:E1, (Utility.special c2) eqn:E2.
    + apply entity_prefix_free in H as [-> H]; [|assumption..].
      f_equal. now apply IH.
    + destruct (replacement_entity c1 E1) as (tl & Htl & _).
      rewrite Htl in H. injection H as <- _. discriminate E2.
    + destruct (replacement_entity c2 E2) as (tl & Htl & _).
      rewrite Htl in H. injection H as -> _. discriminate E1.
    + injection H as -> H. f_equal. now apply IH.
Qed.

(** X18: escaping loses nothing: two strings with the same escaped text are
    the same string. *)
Theorem escapeHtml_injective (s1 s2 : jsstring) :
  Utility.escapeHtml (Utility.Str s1) = Utility.escapeHtml (Utility.Str s2) <->
  s1 = s2.
Proof.
  split; [apply replaceSpecial_injective | now intros ->].
Qed.

Lemma replaceSpecial_length s : length s <= length (Utility.replaceSpecial s).
Proof.
  induction s as [|c r IH]; [reflexivity|].
  rewrite replaceSpecial_cons, length_app.
  destruct (Utility.special c) eqn:E; [|simpl; lia].
  destruct (replacement_entity c E) as (tl & -> & _). simpl. lia.
Qed.

(** X19: a string is returned unchanged exactly when it holds none of the
    five characters; escaping distributes over concatenation, so a text may
    be escaped piece by piece. *)
Theorem escapeHtml_plain (a b : jsstring) :
  (Utility.escapeHtml (Utility.Str a) = a <-> plain a = true) /\
  Utility.escapeHtml (Utility.Str (a ++ b)) =
  Utility.escapeHtml (Utility.Str a) ++ Utility.escapeHtml (Utility.Str b).
Proof.
  cbn [Utility.escapeHtml]. split.
  - induction a as [|c r IH]; [now split|].
    rewrite replaceSpecial_cons. unfold plain in *. cbn [forallb].
    destruct (Utility.special c) eqn:E; cbn [negb andb app].
    + split; [|discriminate]. intros H. exfalso.
      destruct (replacement_entity c E) as (tl & Htl & Hin & _).
      apply (f_equal (@length jschar)) in H. rename H into Hlen.
      rewrite length_app in Hlen. pose proof (replaceSpecial_length r).
      assert (2 <= length (Utility.replacement c)).
      { destruct (replacement_cases c E)
          as [[_ ->]|[[_ ->]|[[_ ->]|[[_ ->]|[_ ->]]]]]; simpl; lia. }
      simpl in Hlen. lia.
    + rewrite <- IH. split; [now intros [= ->] | now intros ->].
  - induction a as [|c r IH]; [reflexivity|].
    cbn [app]. rewrite !replaceSpecial_cons, IH. now rewrite app_assoc.
Qed.


(** ** The parser of parser.js *)

Lemma alike_refl {T} (p : Parser.P T) : alike p p.
Proof. intros st. reflexivity. Qed.

Lemma alike_bind {T U} (p p' : Parser.P T) (f f' : T -> Parser.P U) :
  alike p p' -> (forall a, alike (f a) (f' a)) ->
  alike (bind p f) (bind p' f').
Proof.
  intros Hp Hf st. unfold bind. rewrite Hp.
  destruct (p' st); [apply Hf | reflexivity | reflexivity].
Qed.

Ltac alike_step :=
  first [ apply alike_refl
        | apply alike_bind; [|intros ?] ].

Section IncrementBranch.

Variable tokens : list Token.

Hypothesis no_increment : noIncrement tokens.

Lemma no_increment_value (i : nat) :
  Parser.valueIs "++" (nth_error tokens i) || Parser.valueIs "--" (nth_error tokens i) =
  false.
Proof.
  destruct (nth_error tokens i) as [t|] eqn:E; [|reflexivity].
  apply nth_error_In in E. unfold noIncrement in no_increment.
  rewrite Forall_forall in no_increment.
  destruct (no_increment t E) as [Hp Hm]. unfold Parser.valueIs.
  apply orb_false_intro; apply not_true_is_false; intros H;
    apply str_eqb_eq in H; contradiction.
Qed.

Lemma alike_nextToken {T} (f g : option Token -> Parser.P T) :
  (forall i, alike (f (nth_error tokens i)) (g (nth_error tokens i))) ->
  alike (bind (Parser.nextToken tokens) f) (bind (Parser.nextToken tokens) g).
Proof. intros H st. unfold bind, Parser.nextToken. apply H. Qed.

Lemma parseStatement_alike fuel (parseBlock parseBlock' : Parser.P node) :
  alike parseBlock parseBlock' ->
  alike (ParserJs.parseStatement tokens fuel parseBlock)
        (Parser.parseStatement tokens fuel parseBlock').
Proof.
  intros Hb. unfold ParserJs.parseStatement, Parser.parseStatement.
  apply alike_bind; [apply alike_refl|]. intros t.
  destruct t as [tk|]; [|apply alike_refl].
  destruct (Parser.typeIs KEYWORD (Some tk) && Parser.valueIs "int" (Some tk));
    [apply alike_refl|].
  destruct (Parser.typeIs KEYWORD (Some tk) && Parser.valueIs "if" (Some tk)).
  { unfold Parser.parseIfStatement.
    do 4 (apply alike_bind; [apply alike_refl|]; intros ?).
    apply alike_bind; [exact Hb|]; intros ib.
    apply alike_bind; [apply alike_refl|]; intros cur.
    apply alike_bind; [|intros ?; apply alike_refl].
    destruct (Parser.valueIs "else" cur); [|apply alike_refl].
    apply alike_bind; [apply alike_refl|]. intros _. exact Hb. }
  destruct (Parser.typeIs KEYWORD (Some tk) && Parser.valueIs "for" (Some tk)).
  { unfold Parser.parseForLoop.
    do 7 (apply alike_bind; [apply alike_refl|]; intros ?).
    apply alike_bind; [exact Hb|]. intros ?. apply alike_refl. }
  destruct (Parser.typeIs KEYWORD (Some tk) && Parser.valueIs "return" (Some tk));
    [apply alike_refl|].
  apply alike_nextToken. intros i.
  rewrite no_increment_value, !andb_false_r. apply alike_refl.
Qed.

Lemma blockLoop_alike (parseStatement parseStatement' : Parser.P node) :
  alike parseStatement parseStatement' ->
  forall fuel stmts,
    alike (Parser.blockLoop tokens parseStatement fuel stmts)
          (Parser.blockLoop tokens parseStatement' fuel stmts).
Proof.
  intros Hs. induction fuel as [|fuel IH]; intros stmts;
    cbn [Parser.blockLoop]; apply alike_bind; try apply alike_refl;
    intros cur; destruct cur; try apply alike_refl;
    destruct (negb _); try apply alike_refl.
  apply alike_bind; [exact Hs|]. intros s.
  destruct (truthy s); [apply IH|].
  repeat alike_step. apply IH.
Qed.

Lemma parseBlock_alike fuel depth :
  alike (ParserJs.parseBlock tokens fuel depth)
        (Parser.parseBlock tokens fuel depth).
Proof.
  induction depth as [|depth IH];
    cbn [ParserJs.parseBlock Parser.parseBlock]; [apply alike_refl|].
  apply alike_bind; [apply alike_refl|]. intros _.
  apply alike_bind; [|intros ?; apply alike_refl].
  apply blockLoop_alike. now apply parseStatement_alike.
Qed.

Lemma parseFunctionDefinition_alike fuel :
  alike (ParserJs.parseFunctionDefinition tokens fuel)
        (Parser.parseFunctionDefinition tokens fuel).
Proof.
  unfold ParserJs.parseFunctionDefinition, Parser.parseFunctionDefinition.
  apply alike_bind; [apply alike_refl|]. intros ty.
  apply alike_bind; [apply alike_refl|]. intros name.
  destruct ty, name; try apply alike_refl.
  repeat (apply alike_bind; [apply alike_refl|]; intros ?).
  apply alike_bind; [apply parseBlock_alike|]. intros ?. apply alike_refl.
Qed.

Lemma parseLoop_alike fuel loops : forall functions,
  alike (ParserJs.parseLoop tokens fuel loops functions)
        (Parser.parseLoop tokens fuel loops functions).
Proof.
  induction loops as [|loops IH]; intros functions;
    cbn [ParserJs.parseLoop Parser.parseLoop];
    (apply alike_bind; [apply alike_refl|]); intros cur;
    destruct cur; try apply alike_refl.
  apply alike_bind; [apply parseFunctionDefinition_alike|]. intros func.
  destruct (truthy func); [apply IH|].
  apply alike_bind; [apply alike_refl|]. intros errs.
  destruct (0 <? length errs)%nat; [apply alike_refl | apply IH].
Qed.

Lemma parse_alike : ParserJs.parse tokens = Parser.parse tokens.
Proof.
  unfold ParserJs.parse, Parser.parse. now rewrite parseLoop_alike.
Qed.

End IncrementBranch.

(** X20: the branch of [parseStatement] of [parser.js] for the statements
    [i++;] and [i--;] is never taken on the tokens of a source text, because
    the lexer has no such token: on the tokens of every source the parser of
    [parser.js] returns what the parser of [main.js] returns, and [i++;] is
    an invalid statement for both. *)
Theorem increment_branch_unreachable (code : jsstring) :
  exists ts,
    Lexer.tokenize code = Lexer.Tokens ts /\
    ParserJs.parse ts = Parser.parse ts.
Proof.
  destruct (tokenize_matched code) as (ts & Hts & Hall).
  exists ts. split; [exact Hts|]. apply parse_alike.
  revert Hall. apply Forall_impl. intros t (c & r & _ & Hm).
  eapply firstMatch_no_increment. exact Hm.
Qed.

(** ** The analysis of a source text *)

(** *** Comments *)

Lemma removeAll_skip rx s : forall n,
  Main.removeAll rx n s = Main.removeAll rx 0 (skipn n s).
Proof.
  induction s as [|c r IH]; intros [|n]; try reflexivity.
  cbn [Main.removeAll skipn]. apply IH.
Qed.

Lemma removeAll_step rx c r :
  Main.removeAll rx 0 (c :: r) =
  match rx (c :: r) with
  | Some (S n) => Main.removeAll rx 0 (skipn n r)
  | _ => c :: Main.removeAll rx 0 r
  end.
Proof.
  cbn [Main.removeAll]. destruct (rx (c :: r)) as [[|n]|]; try reflexivity.
  apply removeAll_skip.
Qed.

(** A line comment is left out up to the end of its line. *)
Lemma stripLineComments_comment r :
  Main.stripLineComments (lit "//" ++ r) =
  Main.stripLineComments (dropWhile Main.notLineTerminator r).
Proof.
  unfold Main.stripLineComments.
  change (lit "//" ++ r) with (47%N :: 47%N :: r).
  rewrite removeAll_step. unfold Main.matchLineComment.
  change (prefixb (lit "//") (47%N :: 47%N :: r)) with true.
  cbn [skipn Nat.add]. now rewrite skipn_takeWhile.
Qed.

Lemma stripLineComments_other c r :
  prefixb (lit "//") (c :: r) = false ->
  Main.stripLineComments (c :: r) = c :: Main.stripLineComments r.
Proof.
  intros H. unfold Main.stripLineComments. rewrite removeAll_step.
  unfold Main.matchLineComment. now rewrite H.
Qed.

Lemma prefixb_head_differs x p c r :
  N.eqb x c = false -> prefixb (x :: p) (c :: r) = false.
Proof. intros H. cbn [prefixb]. now rewrite H. Qed.

Lemma prefix_slashes s :
  prefixb (lit "//") s = true -> exists r, s = lit "//" ++ r.
Proof. intros H. apply prefixb_app in H. eauto. Qed.

Lemma dropWhile_line r :
  match dropWhile Main.notLineTerminator r with
  | [] => True
  | c :: _ => isLineTerminator c = true
  end.
Proof.
  destruct (dropWhile _ r) as [|c r'] eqn:E; [exact I|].
  apply dropWhile_head in E. unfold Main.notLineTerminator in E.
  now apply negb_false_iff in E.
Qed.

(** What the text without line comments begins with. *)
Lemma stripLineComments_head n : forall s t,
  length s <= n ->
  Main.stripLineComments s = 47%N :: t ->
  exists r, s = 47%N :: r /\ prefixb (lit "//") s = false.
Proof.
  induction n as [|n IH]; intros s t Hlen H.
  - destruct s; [discriminate H | simpl in Hlen; lia].
  - destruct s as [|c r]; [discriminate H|].
    destruct (prefixb (lit "//") (c :: r)) eqn:Hp.
    + exfalso. destruct (prefix_slashes _ Hp) as [r' Hr]. rewrite Hr in H.
      rewrite stripLineComments_comment in H.
      pose proof (dropWhile_line r') as Hd.
      destruct (dropWhile Main.notLineTerminator r') as [|c' r''] eqn:E;
        [discriminate H|].
      rewrite stripLineComments_other in H.
      * injection H as -> _. discriminate Hd.
      * apply (prefixb_head_differs 47%N [47%N]).
        destruct (N.eqb_spec 47 c'); [subst; discriminate Hd|reflexivity].
    + rewrite (stripLineComments_other _ _ Hp) in H. injection H as -> _.
      eauto.
Qed.

Lemma stripLineComments_clean n : forall s,
  length s <= n -> occurs (lit "//") (Main.stripLineComments s) = false.
Proof.
  induction n as [|n IH]; intros s Hlen.
  - destruct s; [reflexivity | simpl in Hlen; lia].
  - destruct s as [|c r]; [reflexivity|].
    destruct (prefixb (lit "//") (c :: r)) eqn:Hp.
    + destruct (prefix_slashes _ Hp) as [r' Hr]. rewrite Hr.
      rewrite stripLineComments_comment. apply IH.
      pose proof (length_dropWhile Main.notLineTerminator r').
      rewrite Hr in Hlen. simpl in Hlen. lia.
    + rewrite (stripLineComments_other _ _ Hp). cbn [occurs].
      rewrite IH by (simpl in Hlen; lia). rewrite orb_false_r.
      change (lit "//") with [47%N; 47%N].
      destruct (Main.stripLineComments r) as [|h t] eqn:E;
        [cbn [prefixb]; now rewrite andb_false_r|].
      cbn [prefixb].
      destruct (N.eqb_spec 47 c) as [<-|]; [|reflexivity].
      destruct (N.eqb_spec 47 h) as [<-|]; [|reflexivity]. exfalso.
      destruct (stripLineComments_head n r t) as (r0 & -> & _);
        [simpl in Hlen; lia | exact E |]. discriminate Hp.
Qed.

Lemma filter_dropWhile_neg (p : jschar -> bool) (s : jsstring) :
  filter p (dropWhile (fun c => negb (p c)) s) = filter p s.
Proof.
  induction s as [|c r IH]; [reflexivity|]. simpl.
  destruct (p c) eqn:E; simpl; [now rewrite E | exact IH].
Qed.

Lemma stripLineComments_lines n : forall s,
  length s <= n ->
  lineTerminators (Main.stripLineComments s) = lineTerminators s.
Proof.
  unfold lineTerminators.
  induction n as [|n IH]; intros s Hlen.
  - destruct s; [reflexivity | simpl in Hlen; lia].
  - destruct s as [|c r]; [reflexivity|].
    destruct (prefixb (lit "//") (c :: r)) eqn:Hp.
    + destruct (prefix_slashes _ Hp) as [r' Hr]. rewrite Hr.
      rewrite stripLineComments_comment, IH.
      * unfold Main.notLineTerminator. now rewrite filter_dropWhile_neg.
      * pose proof (length_dropWhile Main.notLineTerminator r').
        rewrite Hr in Hlen. simpl in Hlen. lia.
    + rewrite (stripLineComments_other _ _ Hp). cbn [filter].
      rewrite IH by (simpl in Hlen; lia). reflexivity.
Qed.

(** X21: the preprocessed text holds no [//] any more, and the removal of
    the line comments leaves every line terminator where it was: each
    comment ends before the end of its line, so the lines of the text keep
    their numbers. *)
Theorem line_comments_removed (input : jsstring) :
  occurs (lit "//") (Main.preprocess input) = false /\
  lineTerminators (Main.stripLineComments input) = lineTerminators input.
Proof.
  split.
  - unfold Main.preprocess. eapply stripLineComments_clean. reflexivity.
  - eapply stripLineComments_lines. reflexivity.
Qed.

(** *** Block comments *)








(** *** The analysis as a whole *)

Lemma analyze_returns ast : exists st, Semantic.analyze ast = Ok tt st.
Proof.
  destruct (visit_balanced ast Semantic.initial initial_well_formed)
    as (st & H & _).
  exists st. exact H.
Qed.

Lemma tokenize_returns code : exists ts, Lexer.tokenize code = Lexer.Tokens ts.
Proof.
  destruct (tokenize_matched code) as (ts & H & _). now exists ts.
Qed.

Lemma parse_truthy tokens ast errs :
  Parser.parse tokens = Parser.Parsed ast errs -> truthy ast = true.
Proof.
  unfold Parser.parse. destruct (Parser.parseLoop _ _ _ _ _);
    try discriminate.
  now intros [= <- _].
Qed.

Lemma length_zero {T} (l : list T) : (length l =? 0)%nat = true <-> l = [].
Proof.
  destruct l; simpl; split; intros H; try reflexivity; discriminate H.
Qed.

Lemma displayResults_cases tokens tacLines scopes errors :
  Main.displayResults tokens tacLines scopes errors =
  match errors with
  | [] => Main.Results tokens tacLines scopes
  | _ :: _ => Main.ErrorPanel errors
  end.
Proof. now destruct errors. Qed.

(** X23: the analysis always ends with a screen.  The lexer never throws,
    and the analyzer and the generator throw only when they exhaust the call
    stack: the critical error is shown exactly when the parser throws its
    TypeError or one of the calls of the parser, the analyzer and the
    generator exhausts the stack, and it then holds that TypeError or the
    RangeError. *)
Theorem critical_error_causes (engine : Main.Engine) (input : jsstring) :
  exists ts screen,
    Lexer.tokenize (Main.preprocess input) = Lexer.Tokens ts /\
    Main.runAnalysis engine input = Some screen /\
    (screen = Main.CriticalError Main.RangeErrorException <->
     stackExhausted engine ts) /\
    (screen = Main.CriticalError Main.TypeErrorException <->
     Main.parseOverflows engine ts = false /\
     Parser.parse ts = Parser.Thrown) /\
    (forall near, screen <> Main.CriticalError (Main.LexerException near)).
Proof.
  destruct (tokenize_returns (Main.preprocess input)) as (ts & Hts).
  exists ts. unfold Main.runAnalysis, stackExhausted. cbv zeta. rewrite Hts.
  destruct (Main.parseOverflows engine ts) eqn:Hpo.
  { eexists. split; [reflexivity|]. split; [reflexivity|].
    split; [split; auto|]. split; [|discriminate].
    split; [discriminate | intros [H _]; discriminate H]. }
  pose proof (parse_never_diverges ts) as Hnd.
  destruct (Parser.parse ts) as [ast errs| |] eqn:Hp; [| |congruence].
  2: { eexists. split; [reflexivity|]. split; [reflexivity|].
       split; [|split; [split; auto|discriminate]].
       split; [discriminate|].
       intros [H|(ast & H & _)]; discriminate H. }
  rewrite (parse_truthy _ _ _ Hp), andb_true_r.
  destruct errs as [|e errs]; cbn [length Nat.eqb map app].
  2: { rewrite displayResults_cases. eexists. split; [reflexivity|].
       split; [reflexivity|]. cbn [map app].
       split; [|split; [|discriminate]].
       - split; [discriminate|].
         intros [H|(ast' & H & _)]; [discriminate H | congruence].
       - split; [discriminate | intros [_ H]; discriminate H]. }
  destruct (analyze_returns ast) as (st & Hst).
  destruct (Main.analyzeOverflows engine ast) eqn:Hao.
  { eexists. split; [reflexivity|]. split; [reflexivity|].
    split; [|split; [|discriminate]].
    - split; [intros _|reflexivity]. right. exists ast. auto.
    - split; [discriminate | intros [_ H]; discriminate H]. }
  rewrite Hst.
  destruct (Semantic.errors st) as [|se ses] eqn:Hse;
    cbn [length Nat.eqb map app].
  2: { rewrite displayResults_cases. eexists. split; [reflexivity|].
       split; [reflexivity|]. cbn [map app].
       split; [|split; [|discriminate]].
       - split; [discriminate|].
         intros [H|(ast' & H & [H'|[(st' & Hst' & Hno) _]])];
           [discriminate H | congruence | congruence].
       - split; [discriminate | intros [_ H]; discriminate H]. }
  destruct (Main.generateOverflows engine ast) eqn:Hgo.
  { eexists. split; [reflexivity|]. split; [reflexivity|].
    split; [|split; [|discriminate]].
    - split; [intros _|reflexivity]. right. exists ast. split; [reflexivity|].
      right. split; [|exact Hgo]. exists st. auto.
    - split; [discriminate | intros [_ H]; discriminate H]. }
  rewrite displayResults_cases. eexists. split; [reflexivity|].
  split; [reflexivity|]. split; [|split; [|discriminate]].
  - split; [discriminate|].
    intros [H|(ast' & H & [H'|[_ H']])]; [discriminate H | congruence ..].
  - split; [discriminate | intros [_ H]; discriminate H].
Qed.



(** X25: the code of every tree [parse] returns, with or without syntax
    errors, has each of its labels declared exactly once and no jump to a
    label that is not declared: the parser builds binary operations from the
    twelve operators of its expression levels only. *)
Theorem parsed_code_labels (tokens : list Token) (ast : node)
    (errs : list Parser.SyntaxError) :
  Parser.parse tokens = Parser.Parsed ast errs ->
  wellLabelled 0
    (TAC.labelCounter (snd (TAC.visit ast (TAC.mkState 0 0 []))))
    (TAC.generate ast).
Proof.
  intros Hp. refine (known_labelled ast _ (TAC.mkState 0 0 [])).
  unfold Parser.parse in Hp.
  pose proof (sound_parseLoop tokens (S (length tokens)) (S (length tokens)) []
                (Parser.mkState 0 []) (Parser.mkState 0 [])
                (consumed_refl tokens _) eq_refl) as Hs.
  destruct (Parser.parseLoop _ _ _ _ _) as [fs st'| |] eqn:E; try discriminate.
  injection Hp as <- _. destruct (Hs _ _ E) as (_ & Hk & _). exact Hk.
Qed.

Lemma parsed_code_labels_witness :
  exists ast errs,
    Parser.parse
      (tokensOf
         (lit "int f() { for (int i = 0; i < 3; i = i + 1) { if (i) { g(i); } } }"))
      = Parser.Parsed ast errs /\
    wellLabelled 0
      (TAC.labelCounter (snd (TAC.visit ast (TAC.mkState 0 0 []))))
      (TAC.generate ast).
Proof.
  assert (exists ast errs,
    Parser.parse
      (tokensOf
         (lit "int f() { for (int i = 0; i < 3; i = i + 1) { if (i) { g(i); } } }"))
      = Parser.Parsed ast errs) as (ast & errs & H)
    by (vm_compute; do 2 eexists; reflexivity).
  exists ast, errs. split; [exact H|].
  exact (parsed_code_labels _ ast errs H).
Defined.


(** ** Parser: expressions written by the grammar *)

Lemma bind_runs {S A B} (m : M S A) (k : A -> M S B) st :
  bind m k st <> OutOfFuel -> m st <> OutOfFuel.
Proof. unfold bind. destruct (m st); congruence. Qed.

Lemma written_nonempty k e ts : written k e ts -> ts <> [].
Proof.
  induction 1; try discriminate; auto.
  destruct tl; discriminate.
Qed.

(** *** Tokens that end an operand *)

Lemma levelOp_none k : levelOp k None = false.
Proof. do 6 (destruct k as [|k]; [reflexivity|]). reflexivity. Qed.

Lemma levelOp_high k t : 5 < k -> levelOp k t = false.
Proof.
  intros H. do 6 (destruct k as [|k]; [lia|]). reflexivity.
Qed.

Lemma stops_below t : stops t = true -> forall k, below k t.
Proof.
  unfold stops. intros H k. apply andb_prop in H as [Hp Hl].
  split; [now apply negb_true_iff|]. intros j _.
  cbn [forallb] in Hl.
  repeat (apply andb_prop in Hl as [?%negb_true_iff Hl]).
  do 6 (destruct j as [|j]; [reflexivity || assumption|]). reflexivity.
Qed.

Lemma below_stops t : below 6 t -> stops t = true.
Proof.
  intros [Hp Hl]. unfold stops. rewrite Hp. cbn [negb andb forallb].
  rewrite !Hl by lia. reflexivity.
Qed.

Lemma below_step k t : below (S k) t -> below k t /\ levelOp k t = false.
Proof.
  intros [Hp Hl]. split; [split; [exact Hp|]|]; auto.
Qed.

Lemma below_le k j t : below k t -> j <= k -> below j t.
Proof. intros [Hp Hl] Hj. split; [exact Hp|]. intros i Hi. apply Hl. lia. Qed.

Ltac token_value t H :=
  destruct t as [ty v l c]; cbn [value type] in *; subst v.

Lemma close_stops rp : value rp = lit ")" -> stops (Some rp) = true.
Proof.
  destruct rp as [ty v l c]. cbn [value]. intros ->.
  destruct ty; reflexivity.
Qed.

Lemma comma_stops c : value c = lit "," -> stops (Some c) = true.
Proof.
  destruct c as [ty v l c]. cbn [value]. intros ->.
  destruct ty; reflexivity.
Qed.

Lemma one_of_values (vs : list string) t :
  existsb (fun s => Parser.valueIs s (Some t)) vs = true ->
  exists s, In s vs /\ value t = lit s.
Proof.
  rewrite existsb_exists. intros (s & Hin & Hs). exists s. split; [exact Hin|].
  now apply str_eqb_eq.
Qed.

(** The operators of a level are no operators of the levels below. *)
Lemma operator_below k o :
  levelOp (S k) (Some o) = true -> below (S k) (Some o).
Proof.
  intros H. destruct o as [ty v l c].
  destruct k as [|[|[|[|[|k]]]]]; [| | | | |discriminate H].
  1-3: cbn [levelOp] in H; unfold Parser.operatorIn in H;
       apply andb_prop in H as [Hty H]; destruct ty; try discriminate Hty;
       apply one_of_values in H as (s & Hin & Hv); cbn [value] in Hv;
       subst v; cbn [In] in Hin.
  4-5: cbn [levelOp] in H; unfold Parser.valueIs in H; cbn [value] in H;
       apply str_eqb_eq in H; subst v.
  all: repeat match goal with
         | H : _ \/ _ |- _ => destruct H as [H|H]
         | H : False |- _ => destruct H
         | H : _ = ?s |- _ => subst s
         end.
  all: split; [try (destruct ty); reflexivity|].
  all: intros j Hj;
       destruct j as [|[|[|[|[|j]]]]]; try lia;
       try (destruct ty); reflexivity.
Qed.

(** *** Steps of the methods *)

Lemma TokenType_eqb_refl ty : TokenType_eqb ty ty = true.
Proof. now destruct ty. Qed.

Lemma leads_eq {T} (p : Parser.P T) st X : p st = X -> leads p st X.
Proof. intros H _. exact H. Qed.

Lemma leads_bind {T U} (m : Parser.P T) (k : T -> Parser.P U) st a st1 X :
  leads m st (Ok a st1) -> leads (k a) st1 X -> leads (bind m k) st X.
Proof.
  intros Hm Hk Hn. pose proof (Hm (bind_runs _ _ _ Hn)) as E.
  rewrite (bind_eq _ _ _ _ _ E) in *. now apply Hk.
Qed.

Lemma leads_step {T U} (m : Parser.P T) (k : T -> Parser.P U) st a st1 X :
  m st = Ok a st1 -> leads (k a) st1 X -> leads (bind m k) st X.
Proof. intros Hm. apply leads_bind. now apply leads_eq. Qed.

Lemma after_after st a b : after (after st a) b = after st (a + b).
Proof. unfold after. cbn [Parser.pos Parser.errors]. f_equal. lia. Qed.

Lemma after_zero st : after st 0 = st.
Proof. destruct st. unfold after. cbn. f_equal. lia. Qed.

Section Grammar.

Variable tokens : list Token.

Lemma currentToken_at st r :
  skipn (Parser.pos st) tokens = r ->
  Parser.currentToken tokens st = Ok (hd_error r) st.
Proof.
  intros <-. unfold Parser.currentToken. now rewrite hd_error_skipn.
Qed.

Lemma nextToken_at st t r :
  skipn (Parser.pos st) tokens = t :: r ->
  Parser.nextToken tokens st = Ok (hd_error r) st.
Proof.
  intros H. unfold Parser.nextToken. rewrite <- hd_error_skipn.
  rewrite Nat.add_comm, <- skipn_skipn, H. reflexivity.
Qed.

Lemma advance_at st : Parser.advance st = Ok tt (after st 1).
Proof. unfold Parser.advance, after. now rewrite Nat.add_1_r. Qed.

Lemma skipn_after st a r :
  skipn (Parser.pos st) tokens = a ++ r ->
  skipn (Parser.pos (after st (length a))) tokens = r.
Proof.
  intros H. cbn [after Parser.pos].
  rewrite Nat.add_comm, <- skipn_skipn, H.
  rewrite skipn_app, Nat.sub_diag, skipn_all. reflexivity.
Qed.

Lemma skipn_next st t r :
  skipn (Parser.pos st) tokens = t :: r ->
  skipn (Parser.pos (after st 1)) tokens = r.
Proof. intros H. exact (skipn_after st [t] r H). Qed.

Lemma expect_at st t r ty (v : option string) :
  skipn (Parser.pos st) tokens = t :: r ->
  type t = ty ->
  match v with Some s => value t = lit s | None => True end ->
  Parser.expect tokens ty v st = Ok (Some t) (after st 1).
Proof.
  intros H Hty Hv. unfold Parser.expect.
  rewrite (bind_eq _ _ _ _ _ (currentToken_at st _ H)). cbn [hd_error].
  unfold Parser.typeIs. rewrite Hty, TokenType_eqb_refl. cbn [andb].
  destruct v as [s|].
  - unfold Parser.valueIs. rewrite Hv, str_eqb_refl.
    now rewrite (bind_eq _ _ _ _ _ (advance_at st)).
  - now rewrite (bind_eq _ _ _ _ _ (advance_at st)).
Qed.

Lemma binaryLoop_stop isOp operand fuel n st r :
  skipn (Parser.pos st) tokens = r -> isOp (hd_error r) = false ->
  Parser.binaryLoop tokens isOp operand fuel n st = Ok n st.
Proof.
  intros H Hop.
  destruct fuel; cbn [Parser.binaryLoop];
    rewrite (bind_eq _ _ _ _ _ (currentToken_at st _ H));
    destruct (hd_error r); try rewrite Hop; reflexivity.
Qed.

Lemma binaryLoop_zero isOp operand n st o r :
  skipn (Parser.pos st) tokens = o :: r -> isOp (Some o) = true ->
  Parser.binaryLoop tokens isOp operand 0 n st = OutOfFuel.
Proof.
  intros H Hop. cbn [Parser.binaryLoop].
  rewrite (bind_eq _ _ _ _ _ (currentToken_at st _ H)). cbn [hd_error].
  now rewrite Hop.
Qed.

Lemma binaryLoop_step isOp operand fuel n st o r :
  skipn (Parser.pos st) tokens = o :: r -> isOp (Some o) = true ->
  Parser.binaryLoop tokens isOp operand (S fuel) n st =
  bind operand
    (fun x => Parser.binaryLoop tokens isOp operand fuel
                (BinaryOpNode n (value o) x)) (after st 1).
Proof.
  intros H Hop. cbn [Parser.binaryLoop].
  rewrite (bind_eq _ _ _ _ _ (currentToken_at st _ H)). cbn [hd_error].
  rewrite Hop. now rewrite (bind_eq _ _ _ _ _ (advance_at st)).
Qed.

Lemma argumentLoop_stop sub fuel args st r :
  skipn (Parser.pos st) tokens = r ->
  Parser.valueIs "," (hd_error r) = false ->
  Parser.argumentLoop tokens sub fuel args st = Ok args st.
Proof.
  intros H Hc.
  destruct fuel; cbn [Parser.argumentLoop];
    rewrite (bind_eq _ _ _ _ _ (currentToken_at st _ H)), Hc; reflexivity.
Qed.

Lemma argumentLoop_zero sub args st c r :
  skipn (Parser.pos st) tokens = c :: r -> value c = lit "," ->
  Parser.argumentLoop tokens sub 0 args st = OutOfFuel.
Proof.
  intros H Hc. cbn [Parser.argumentLoop].
  rewrite (bind_eq _ _ _ _ _ (currentToken_at st _ H)). cbn [hd_error].
  unfold Parser.valueIs. now rewrite Hc, str_eqb_refl.
Qed.

Lemma argumentLoop_step sub fuel args st c r :
  skipn (Parser.pos st) tokens = c :: r -> value c = lit "," ->
  Parser.argumentLoop tokens sub (S fuel) args st =
  bind sub (fun a => Parser.argumentLoop tokens sub fuel (args ++ [a]))
    (after st 1).
Proof.
  intros H Hc. cbn [Parser.argumentLoop].
  rewrite (bind_eq _ _ _ _ _ (currentToken_at st _ H)). cbn [hd_error].
  unfold Parser.valueIs. rewrite Hc, str_eqb_refl.
  now rewrite (bind_eq _ _ _ _ _ (advance_at st)).
Qed.

(** *** The levels *)

Ltac lead :=
  match goal with
  | |- ?p ?st <> OutOfFuel -> ?p ?st = ?X => change (leads p st X)
  end.

Lemma level_closed k e ts :
  parsedAt tokens k e ts ->
  forall fuel depth st rest,
    skipn (Parser.pos st) tokens = ts ++ rest ->
    below (S k) (hd_error rest) ->
    leads (levelParser tokens fuel depth k) st (Ok e (after st (length ts))).
Proof.
  intros H fuel depth st rest Hs Hb Hn. apply below_step in Hb as [Hb Hop].
  specialize (H fuel depth st rest Hs Hb Hn). destruct k as [|j]; [exact H|].
  destruct H as [f H]. rewrite H.
  eapply binaryLoop_stop; [apply (skipn_after _ _ _ Hs) | exact Hop].
Qed.

Lemma expression_closed e ts :
  parsedAt tokens 5 e ts ->
  forall fuel depth st rest,
    skipn (Parser.pos st) tokens = ts ++ rest ->
    below 6 (hd_error rest) ->
    leads (Parser.parseExpression tokens fuel depth) st
      (Ok e (after st (length ts))).
Proof.
  intros H fuel depth st rest Hs Hb.
  destruct depth as [|d]; [intros Hn; now contradiction Hn|].
  exact (level_closed 5 e ts H fuel d st rest Hs Hb).
Qed.

Lemma arguments_closed args ts :
  parsedArgs tokens args ts ->
  forall fuel depth st rp rest,
    skipn (Parser.pos st) tokens = ts ++ rp :: rest ->
    value rp = lit ")" ->
    leads (Parser.parseArguments tokens
             (Parser.parseExpression tokens fuel depth) fuel) st
      (Ok args (after st (length ts))).
Proof.
  intros H fuel depth st rp rest Hs Hv Hn.
  specialize (H fuel depth st (rp :: rest) Hs
                (stops_below _ (close_stops _ Hv) 6) Hn).
  destruct args as [|a args].
  - apply H. cbn [hd_error]. unfold Parser.valueIs.
    now rewrite Hv, str_eqb_refl.
  - destruct H as [f H]. rewrite H.
    eapply argumentLoop_stop; [apply (skipn_after _ _ _ Hs)|].
    cbn [hd_error]. unfold Parser.valueIs. now rewrite Hv.
Qed.

Lemma parsed_number tk :
  type tk = INT_LIT \/ type tk = FLOAT_LIT ->
  parsedAt tokens 0 (NumberNode tk) [tk].
Proof.
  intros Hty fuel depth st rest Hs Hb _. cbn [levelParser app length] in *.
  unfold Parser.parsePrimary.
  rewrite (bind_eq _ _ _ _ _ (currentToken_at st _ Hs)). cbn [hd_error].
  rewrite (bind_eq _ _ _ _ _ (nextToken_at st _ _ Hs)).
  unfold Parser.typeIs.
  destruct Hty as [-> | ->]; cbn [TokenType_eqb andb orb];
    now rewrite (bind_eq _ _ _ _ _ (advance_at st)).
Qed.

Lemma parsed_string tk :
  type tk = STRING_LIT -> parsedAt tokens 0 (StringLiteralNode tk) [tk].
Proof.
  intros Hty fuel depth st rest Hs Hb _. cbn [levelParser app length] in *.
  unfold Parser.parsePrimary.
  rewrite (bind_eq _ _ _ _ _ (currentToken_at st _ Hs)). cbn [hd_error].
  rewrite (bind_eq _ _ _ _ _ (nextToken_at st _ _ Hs)).
  unfold Parser.typeIs. rewrite Hty. cbn [TokenType_eqb andb orb].
  now rewrite (bind_eq _ _ _ _ _ (advance_at st)).
Qed.

Lemma parsed_identifier tk :
  type tk = IDENTIFIER -> parsedAt tokens 0 (IdentifierNode tk) [tk].
Proof.
  intros Hty fuel depth st rest Hs [Hb _] _. cbn [levelParser app length] in *.
  unfold Parser.parsePrimary.
  rewrite (bind_eq _ _ _ _ _ (currentToken_at st _ Hs)). cbn [hd_error].
  rewrite (bind_eq _ _ _ _ _ (nextToken_at st _ _ Hs)). rewrite Hb.
  unfold Parser.typeIs. rewrite Hty. cbn [TokenType_eqb andb orb].
  now rewrite (bind_eq _ _ _ _ _ (advance_at st)).
Qed.

Lemma parsed_parentheses lp e ts rp :
  type lp = SEPARATOR -> value lp = lit "(" ->
  parsedAt tokens 5 e ts ->
  type rp = SEPARATOR -> value rp = lit ")" ->
  parsedAt tokens 0 e (lp :: ts ++ [rp]).
Proof.
  intros Hty Hv He Hrty Hrv fuel depth st rest Hs Hb.
  cbn [levelParser]. unfold Parser.parsePrimary.
  cbn [app] in Hs. rewrite <- app_assoc in Hs. cbn [app] in Hs.
  rewrite (bind_eq _ _ _ _ _ (currentToken_at st _ Hs)). cbn [hd_error].
  rewrite (bind_eq _ _ _ _ _ (nextToken_at st _ _ Hs)).
  unfold Parser.typeIs. rewrite Hty. cbn [TokenType_eqb andb orb].
  unfold Parser.valueIs at 1 2. rewrite Hv, str_eqb_refl.
  lead. apply (leads_step _ _ _ _ _ _ (advance_at st)).
  pose proof (skipn_next _ _ _ Hs) as H1.
  eapply leads_bind.
  { apply (expression_closed e ts He fuel depth _ _ H1).
    apply stops_below. now apply close_stops. }
  pose proof (skipn_after _ _ _ H1) as H2.
  eapply leads_step; [now apply (expect_at _ _ _ _ (Some ")"%string) H2)|].
  apply leads_eq. unfold ret. f_equal. rewrite !after_after. f_equal.
  cbn [length]. rewrite length_app. cbn [length]. lia.
Qed.

Lemma parsed_call name lp args ts rp :
  type name = IDENTIFIER ->
  type lp = SEPARATOR -> value lp = lit "(" ->
  parsedArgs tokens args ts ->
  type rp = SEPARATOR -> value rp = lit ")" ->
  parsedAt tokens 0 (FunctionCallNode name args) (name :: lp :: ts ++ [rp]).
Proof.
  intros Hn Hty Hv Ha Hrty Hrv fuel depth st rest Hs Hb.
  cbn [levelParser]. unfold Parser.parsePrimary.
  cbn [app] in Hs. rewrite <- app_assoc in Hs. cbn [app] in Hs.
  rewrite (bind_eq _ _ _ _ _ (currentToken_at st _ Hs)). cbn [hd_error].
  rewrite (bind_eq _ _ _ _ _ (nextToken_at st _ _ Hs)). cbn [hd_error].
  unfold Parser.typeIs. rewrite Hn. cbn [TokenType_eqb andb orb].
  unfold Parser.valueIs at 1 2. rewrite Hv, str_eqb_refl.
  unfold Parser.parseFunctionCallExpression.
  lead.
  eapply leads_step; [now apply (expect_at _ _ _ _ None Hs)|].
  pose proof (skipn_next _ _ _ Hs) as H1.
  eapply leads_step; [now apply (expect_at _ _ _ _ (Some "("%string) H1)|].
  pose proof (skipn_next _ _ _ H1) as H2.
  eapply leads_bind; [exact (arguments_closed args ts Ha fuel depth _ _ _ H2 Hrv)|].
  pose proof (skipn_after _ _ _ H2) as H3.
  eapply leads_step; [now apply (expect_at _ _ _ _ (Some ")"%string) H3)|].
  apply leads_eq. cbn [Parser.newIdentifier]. unfold bind, ret. f_equal.
  rewrite !after_after. f_equal.
  cbn [length]. rewrite length_app. cbn [length]. lia.
Qed.

Lemma parsed_level k e ts : parsedAt tokens k e ts -> parsedAt tokens (S k) e ts.
Proof.
  intros H fuel depth st rest Hs Hb Hn. exists fuel.
  pose proof (level_closed k e ts H fuel depth st rest Hs Hb
                (bind_runs _ _ _ Hn)) as E.
  cbn [levelParser]. now rewrite (bind_eq _ _ _ _ _ E).
Qed.

Lemma parsed_binary k l o r tl tr :
  parsedAt tokens (S k) l tl ->
  levelOp (S k) (Some o) = true ->
  parsedAt tokens k r tr ->
  parsedAt tokens (S k) (BinaryOpNode l (value o) r) (tl ++ o :: tr).
Proof.
  intros Hl Hop Hr fuel depth st rest Hs Hb Hn.
  rewrite <- app_assoc in Hs. cbn [app] in Hs.
  destruct (Hl fuel depth st _ Hs (operator_below k o Hop) Hn) as [f1 E1].
  pose proof (skipn_after _ _ _ Hs) as H1.
  rewrite E1 in Hn.
  destruct f1 as [|f];
    [exfalso; apply Hn; exact (binaryLoop_zero _ _ _ _ _ _ H1 Hop)|].
  exists f. rewrite E1.
  rewrite (binaryLoop_step _ _ _ _ _ _ _ H1 Hop) in Hn |- *.
  pose proof (level_closed k r tr Hr fuel depth _ rest (skipn_next _ _ _ H1)
                Hb (bind_runs _ _ _ Hn)) as E2.
  rewrite (bind_eq _ _ _ _ _ E2). f_equal.
  rewrite !after_after. f_equal. rewrite length_app. cbn [length]. lia.
Qed.

Lemma parsed_no_arguments : parsedArgs tokens [] [].
Proof.
  intros fuel depth st rest Hs Hb _ Hv. cbn [app length] in *.
  unfold Parser.parseArguments.
  rewrite (bind_eq _ _ _ _ _ (currentToken_at st _ Hs)), Hv.
  cbn [negb]. now rewrite after_zero.
Qed.

Lemma parsed_first_argument e ts :
  written 5 e ts -> parsedAt tokens 5 e ts ->
  Parser.valueIs ")" (hd_error ts) = false ->
  parsedArgs tokens [e] ts.
Proof.
  intros Hw He Hv fuel depth st rest Hs Hb Hn. exists fuel.
  revert Hn. unfold Parser.parseArguments.
  rewrite (bind_eq _ _ _ _ _ (currentToken_at st _ Hs)).
  apply written_nonempty in Hw. destruct ts as [|t ts]; [contradiction|].
  cbn [app hd_error] in *. rewrite Hv. cbn [negb].
  lead. eapply leads_bind; [exact (expression_closed e _ He fuel depth st rest Hs Hb)|].
  now apply leads_eq.
Qed.

Lemma parsed_next_argument args ts c e te :
  parsedArgs tokens args ts -> args <> [] ->
  value c = lit "," ->
  parsedAt tokens 5 e te ->
  parsedArgs tokens (args ++ [e]) (ts ++ c :: te).
Proof.
  intros Ha Hne Hc He fuel depth st rest Hs Hb Hn.
  rewrite <- app_assoc in Hs. cbn [app] in Hs.
  specialize (Ha fuel depth st _ Hs (stops_below _ (comma_stops _ Hc) 6) Hn).
  destruct args as [|a0 args0]; [contradiction|].
  destruct Ha as [f1 E1]. cbn [app].
  pose proof (skipn_after _ _ _ Hs) as H1.
  rewrite E1 in Hn.
  destruct f1 as [|f];
    [exfalso; apply Hn; exact (argumentLoop_zero _ _ _ _ _ H1 Hc)|].
  exists f. rewrite E1.
  rewrite (argumentLoop_step _ _ _ _ _ _ H1 Hc) in Hn |- *.
  pose proof (expression_closed e te He fuel depth _ rest
                (skipn_next _ _ _ H1) Hb (bind_runs _ _ _ Hn)) as E2.
  rewrite (bind_eq _ _ _ _ _ E2). cbn [app]. f_equal.
  rewrite !after_after. f_equal. rewrite length_app. cbn [length]. lia.
Qed.

Ltac grammar_cases :=
  intros;
  first [ now apply parsed_number | now apply parsed_string
        | now apply parsed_identifier | now apply parsed_parentheses
        | now apply parsed_call | now apply parsed_level
        | now apply parsed_binary | now apply parsed_no_arguments
        | now apply parsed_first_argument | now apply parsed_next_argument ].

Lemma written_parsed k e ts : written k e ts -> parsedAt tokens k e ts.
Proof.
  revert k e ts.
  apply (written_mutual (parsedAt tokens) (parsedArgs tokens)); grammar_cases.
Qed.

Lemma arguments_parsed args ts :
  writtenArgs args ts -> parsedArgs tokens args ts.
Proof.
  revert args ts.
  apply (writtenArgs_mutual (parsedAt tokens) (parsedArgs tokens));
    grammar_cases.
Qed.

End Grammar.


(** X26: [parseExpression] follows the grammar of the five binary levels:
    on the tokens of an expression written by the grammar, followed by a
    token that is no binary operator and no opening parenthesis or by the end
    of the tokens, it returns the tree of the expression, with the operators
    of a level nested to the left and those of the tighter levels below
    them, stops behind the last token of the expression and records no
    error. *)
Theorem expression_parsed (pre ts rest : list Token) (e : node) (fuel : nat)
    (errs : list Parser.SyntaxError) :
  written 5 e ts ->
  stops (hd_error rest) = true ->
  length (pre ++ ts ++ rest) < fuel ->
  Parser.parseExpression (pre ++ ts ++ rest) fuel fuel
    (Parser.mkState (length pre) errs) =
  Ok e (Parser.mkState (length pre + length ts) errs).
Proof.
  intros Hw Hstop Hfuel.
  apply (expression_closed _ e ts (written_parsed _ 5 e ts Hw) fuel fuel
           (Parser.mkState (length pre) errs) rest).
  - cbn [Parser.pos]. rewrite skipn_app, skipn_all, Nat.sub_diag. reflexivity.
  - now apply stops_below.
  - pose proof (expression_runs (pre ++ ts ++ rest) fuel
                  (Parser.mkState (length pre) errs) Hfuel) as H.
    unfold runs in H. intros E. rewrite E in H. apply H.
    cbn [Parser.pos]. rewrite length_app. lia.
Qed.

Lemma expression_parsed_witness :
  written 5
    (BinaryOpNode
       (BinaryOpNode (IdentifierNode (mkToken IDENTIFIER (lit "a") 1 1))
          (lit "-")
          (BinaryOpNode (IdentifierNode (mkToken IDENTIFIER (lit "b") 1 5))
             (lit "*") (NumberNode (mkToken INT_LIT (lit "2") 1 9))))
       (lit "-") (IdentifierNode (mkToken IDENTIFIER (lit "c") 1 13)))
    (tokensOf (lit "a - b * 2 - c")) /\
  stops (hd_error (tokensOf (lit ";"))) = true /\
  length ([] ++ tokensOf (lit "a - b * 2 - c") ++ tokensOf (lit ";")) < 9 /\
  Parser.parseExpression
    ([] ++ tokensOf (lit "a - b * 2 - c") ++ tokensOf (lit ";")) 9 9
    (Parser.mkState (length (@nil Token)) []) =
  Ok (BinaryOpNode
       (BinaryOpNode (IdentifierNode (mkToken IDENTIFIER (lit "a") 1 1))
          (lit "-")
          (BinaryOpNode (IdentifierNode (mkToken IDENTIFIER (lit "b") 1 5))
             (lit "*") (NumberNode (mkToken INT_LIT (lit "2") 1 9))))
       (lit "-") (IdentifierNode (mkToken IDENTIFIER (lit "c") 1 13)))
     (Parser.mkState
        (length (@nil Token) + length (tokensOf (lit "a - b * 2 - c"))) []).
Proof.
  assert (Hw : written 5
    (BinaryOpNode
       (BinaryOpNode (IdentifierNode (mkToken IDENTIFIER (lit "a") 1 1))
          (lit "-")
          (BinaryOpNode (IdentifierNode (mkToken IDENTIFIER (lit "b") 1 5))
             (lit "*") (NumberNode (mkToken INT_LIT (lit "2") 1 9))))
       (lit "-") (IdentifierNode (mkToken IDENTIFIER (lit "c") 1 13)))
    (tokensOf (lit "a - b * 2 - c"))).
  { do 3 apply written_level.
    apply (written_binary 1 _ (mkToken OPERATOR (lit "-") 1 11) _
             [mkToken IDENTIFIER (lit "a") 1 1;
              mkToken OPERATOR (lit "-") 1 3;
              mkToken IDENTIFIER (lit "b") 1 5;
              mkToken OPERATOR (lit "*") 1 7;
              mkToken INT_LIT (lit "2") 1 9]
             [mkToken IDENTIFIER (lit "c") 1 13]); [|reflexivity|].
    - apply (written_binary 1 _ (mkToken OPERATOR (lit "-") 1 3) _
               [mkToken IDENTIFIER (lit "a") 1 1]
               [mkToken IDENTIFIER (lit "b") 1 5;
                mkToken OPERATOR (lit "*") 1 7;
                mkToken INT_LIT (lit "2") 1 9]); [|reflexivity|].
      + do 2 apply written_level. now apply written_identifier.
      + apply (written_binary 0 _ (mkToken OPERATOR (lit "*") 1 7) _
                 [mkToken IDENTIFIER (lit "b") 1 5]
                 [mkToken INT_LIT (lit "2") 1 9]); [|reflexivity|].
        * apply written_level. now apply written_identifier.
        * apply written_number. now left.
    - apply written_level. now apply written_identifier. }
  split; [exact Hw|]. split; [reflexivity|].
  assert (Hf : length ([] ++ tokensOf (lit "a - b * 2 - c") ++
                       tokensOf (lit ";")) < 9) by (vm_compute; lia).
  split; [exact Hf|].
  exact (expression_parsed [] _ (tokensOf (lit ";")) _ 9 [] Hw eq_refl Hf).
Defined.


(** ** Parser: programs written by the grammar *)

Lemma typeIs_of t ty :
  type t = ty -> forall ty', Parser.typeIs ty' (Some t) = TokenType_eqb ty ty'.
Proof. intros <- ty'. reflexivity. Qed.

Lemma valueIs_of t (v : string) :
  value t = lit v ->
  forall v' : string, Parser.valueIs v' (Some t) = str_eqb (lit v) (lit v').
Proof. intros H v'. unfold Parser.valueIs. now rewrite H. Qed.

Lemma semicolon_stops t : value t = lit ";" -> stops (Some t) = true.
Proof.
  destruct t as [ty v l c]. cbn [value]. intros ->. destruct ty; reflexivity.
Qed.

Ltac facts :=
  unfold tokenIs, plainName in *;
  repeat match goal with H : _ /\ _ |- _ => destruct H end.

Ltac normal Hs :=
  repeat first [ rewrite <- app_assoc in Hs | progress cbn [app] in Hs ].

Ltac evaluate :=
  repeat match goal with
    | |- context [str_eqb (lit ?a) (lit ?b)] =>
        let r := eval vm_compute in (str_eqb (lit a) (lit b)) in
        change (str_eqb (lit a) (lit b)) with r
    | |- context [TokenType_eqb ?a ?b] =>
        let r := eval vm_compute in (TokenType_eqb a b) in
        match r with true => idtac | false => idtac end;
        change (TokenType_eqb a b) with r
    end;
  cbn [andb orb negb].

Ltac checks :=
  repeat match goal with
    | H : type ?t = ?ty |- context [Parser.typeIs _ (Some ?t)] =>
        rewrite !(typeIs_of t ty H)
    | H : value ?t = lit ?v |- context [Parser.valueIs _ (Some ?t)] =>
        rewrite !(valueIs_of t v H)
    end;
  evaluate.

Ltac lengths :=
  repeat first [ rewrite length_app | progress cbn [length] ]; lia.

Ltac finished :=
  apply leads_eq; unfold ret; f_equal; rewrite ?after_after; f_equal; lengths.

Section Statements.

Variable tokens : list Token.

Ltac see Hs :=
  eapply leads_step; [exact (currentToken_at tokens _ _ Hs)|];
  cbn beta; cbn [hd_error].

Ltac see_next Hs :=
  eapply leads_step; [exact (nextToken_at tokens _ _ _ Hs)|];
  cbn beta; cbn [hd_error].

Ltac eat v Hs :=
  eapply leads_step; [now apply (expect_at tokens _ _ _ _ v Hs)|];
  apply skipn_next in Hs; cbn beta iota.

Ltac move_on Hs :=
  eapply leads_step; [apply advance_at|]; apply skipn_next in Hs; cbn beta.

Ltac ends :=
  apply stops_below;
  first [ now apply semicolon_stops | now apply close_stops
        | now apply comma_stops ].

Ltac expression He Hs :=
  eapply leads_bind;
  [ eapply (expression_closed tokens _ _ (written_parsed tokens _ _ _ He));
    [ exact Hs | ends ]
  | ];
  apply skipn_after in Hs; cbn beta.

Lemma declaration_parsed d ts :
  writtenDeclaration d ts ->
  forall fuel st rest,
    skipn (Parser.pos st) tokens = ts ++ rest ->
    leads (Parser.parseVariableDeclaration tokens fuel) st
      (Ok d (after st (length ts))).
Proof.
  intros [kw name semi Hk Hn Hsemi | kw name eq e te semi Hk Hn He Hw Hsemi]
    fuel st rest Hs; facts; normal Hs; unfold Parser.parseVariableDeclaration.
  - eat (@None string) Hs. eat (@None string) Hs. see Hs. checks.
    eapply leads_step; [reflexivity|]. eat (Some ";"%string) Hs. finished.
  - eat (@None string) Hs. eat (@None string) Hs. see Hs. checks.
    eapply leads_bind.
    { move_on Hs. eapply (expression_closed tokens _ _
                            (written_parsed tokens _ _ _ Hw)); [exact Hs|].
      ends. }
    apply skipn_next, skipn_after in Hs. cbn beta.
    eat (Some ";"%string) Hs. finished.
Qed.

Lemma assignment_parsed a ts :
  writtenAssignment a ts ->
  forall fuel st (noSemicolon : bool) semi rest,
    skipn (Parser.pos st) tokens = ts ++ semi :: rest ->
    (if noSemicolon then value semi = lit ")" else tokenIs SEPARATOR ";" semi) ->
    leads (Parser.parseAssignment tokens fuel noSemicolon) st
      (Ok a (if noSemicolon then after st (length ts)
             else after (after st (length ts)) 1)).
Proof.
  intros [name eq e te Hn Heq Hw] fuel st noSemicolon semi rest Hs Hsemi;
    facts; normal Hs; unfold Parser.parseAssignment.
  eat (@None string) Hs. eapply leads_step; [reflexivity|].
  eat (Some "="%string) Hs.
  destruct noSemicolon; facts.
  - expression Hw Hs. cbn [negb]. eapply leads_step; [reflexivity|]. finished.
  - expression Hw Hs. cbn [negb].
    eapply leads_bind.
    { eapply leads_step;
        [now apply (expect_at tokens _ _ _ _ (Some ";"%string) Hs)|].
      now apply leads_eq. }
    finished.
Qed.

Lemma statement_first s ts :
  writtenStatement s ts ->
  exists t r, ts = t :: r /\ Parser.valueIs "}" (Some t) = false /\
              Parser.valueIs "else" (Some t) = false.
Proof.
  intros H; destruct H; facts; eexists; eexists;
    (split; [reflexivity|]); split; try assumption; checks; reflexivity.
Qed.

Lemma parsed_statement_declaration d kw ts :
  writtenDeclaration d (kw :: ts) -> value kw = lit "int" ->
  parsedStatement tokens d (kw :: ts).
Proof.
  intros Hd Hv fuel depth st rest Hs _.
  assert (Hk : type kw = KEYWORD) by (inversion Hd; assumption).
  unfold Parser.parseStatement.
  pose proof Hs as Hs'. normal Hs'. see Hs'. checks.
  exact (declaration_parsed _ _ Hd fuel st rest Hs).
Qed.

Lemma parsed_statement_assignment a name ts semi :
  writtenAssignment a (name :: ts) -> plainName name ->
  tokenIs SEPARATOR ";" semi ->
  parsedStatement tokens a (name :: ts ++ [semi]).
Proof.
  intros Ha Hp Hsemi fuel depth st rest Hs _.
  assert (Hn : type name = IDENTIFIER) by (inversion Ha; assumption).
  assert (exists eq r, ts = eq :: r /\ value eq = lit "=") as (eq & r & -> & Heq)
    by (inversion Ha; facts; eauto).
  unfold Parser.parseStatement.
  pose proof Hs as Hs'. normal Hs'. see Hs'. checks. see_next Hs'. checks.
  change (name :: (eq :: r) ++ [semi]) with ((name :: eq :: r) ++ [semi]) in *.
  rewrite <- app_assoc in Hs.
  pose proof (assignment_parsed _ _ Ha fuel st false semi rest Hs Hsemi) as H.
  intros Hr. rewrite (H Hr). f_equal. rewrite after_after. f_equal. lengths.
Qed.

Lemma parsed_statement_call name lp args ts rp semi :
  type name = IDENTIFIER \/ tokenIs KEYWORD "printf" name ->
  plainName name ->
  tokenIs SEPARATOR "(" lp ->
  parsedArgs tokens args ts ->
  tokenIs SEPARATOR ")" rp ->
  tokenIs SEPARATOR ";" semi ->
  parsedStatement tokens (FunctionCallNode name args)
    (name :: lp :: ts ++ [rp; semi]).
Proof.
  intros Hn Hp Hlp Ha Hrp Hsemi fuel depth st rest Hs _.
  facts. normal Hs. unfold Parser.parseStatement. see Hs.
  destruct Hn as [Hn|Hn]; facts; checks; see_next Hs; checks;
    unfold Parser.parseFunctionCallStatement; see Hs; checks;
    move_on Hs; eat (Some "("%string) Hs;
    (eapply leads_bind;
     [eapply (arguments_closed tokens args ts Ha); [exact Hs | assumption]|]);
    apply skipn_after in Hs; cbn beta;
    eat (Some ")"%string) Hs; eat (Some ";"%string) Hs; finished.
Qed.

Lemma parsed_statement_return kw semi :
  tokenIs KEYWORD "return" kw -> tokenIs SEPARATOR ";" semi ->
  parsedStatement tokens (ReturnStatementNode Null) [kw; semi].
Proof.
  intros Hk Hsemi fuel depth st rest Hs _.
  facts. normal Hs. unfold Parser.parseStatement. see Hs. checks.
  unfold Parser.parseReturnStatement.
  eat (Some "return"%string) Hs. see Hs. checks.
  eapply leads_step; [reflexivity|].
  eat (Some ";"%string) Hs. finished.
Qed.

Lemma parsed_statement_return_value kw e ts semi :
  tokenIs KEYWORD "return" kw ->
  written 5 e ts ->
  Parser.valueIs ";" (hd_error ts) = false ->
  tokenIs SEPARATOR ";" semi ->
  parsedStatement tokens (ReturnStatementNode e) (kw :: ts ++ [semi]).
Proof.
  intros Hk He Hne Hsemi fuel depth st rest Hs _.
  facts. normal Hs. unfold Parser.parseStatement. see Hs. checks.
  unfold Parser.parseReturnStatement.
  eat (Some "return"%string) Hs. see Hs.
  pose proof (written_nonempty _ _ _ He) as Hts.
  destruct ts as [|t ts]; [contradiction|]. cbn [app hd_error] in *.
  rewrite Hne. cbn [negb].
  change (t :: ts ++ semi :: rest) with ((t :: ts) ++ semi :: rest) in Hs.
  expression He Hs.
  eat (Some ";"%string) Hs. finished.
Qed.

Lemma parsed_statement_if kw lp c tc rp b tb :
  tokenIs KEYWORD "if" kw ->
  tokenIs SEPARATOR "(" lp ->
  written 5 c tc ->
  tokenIs SEPARATOR ")" rp ->
  parsedBlock tokens b tb ->
  parsedStatement tokens (IfStatementNode c b Null)
    (kw :: lp :: tc ++ rp :: tb).
Proof.
  intros Hk Hlp Hc Hrp Hb fuel depth st rest Hs Helse.
  facts. normal Hs. unfold Parser.parseStatement. see Hs. checks.
  unfold Parser.parseIfStatement.
  eat (Some "if"%string) Hs. eat (Some "("%string) Hs.
  expression Hc Hs. eat (Some ")"%string) Hs.
  eapply leads_bind; [exact (Hb fuel depth _ _ Hs)|].
  apply skipn_after in Hs. cbn beta.
  see Hs. rewrite Helse.
  eapply leads_step; [reflexivity|]. finished.
Qed.

Lemma parsed_statement_if_else kw lp c tc rp b tb el b' tb' :
  tokenIs KEYWORD "if" kw ->
  tokenIs SEPARATOR "(" lp ->
  written 5 c tc ->
  tokenIs SEPARATOR ")" rp ->
  parsedBlock tokens b tb ->
  value el = lit "else" ->
  parsedBlock tokens b' tb' ->
  parsedStatement tokens (IfStatementNode c b b')
    (kw :: lp :: tc ++ rp :: tb ++ el :: tb').
Proof.
  intros Hk Hlp Hc Hrp Hb Hel Hb' fuel depth st rest Hs _.
  facts. normal Hs. unfold Parser.parseStatement. see Hs. checks.
  unfold Parser.parseIfStatement.
  eat (Some "if"%string) Hs. eat (Some "("%string) Hs.
  expression Hc Hs. eat (Some ")"%string) Hs.
  eapply leads_bind; [exact (Hb fuel depth _ _ Hs)|].
  apply skipn_after in Hs. cbn beta.
  see Hs. checks.
  eapply leads_bind.
  { move_on Hs. exact (Hb' fuel depth _ _ Hs). }
  finished.
Qed.

Lemma parsed_statement_for kw lp d td c tc semi a ta rp b tb :
  tokenIs KEYWORD "for" kw ->
  tokenIs SEPARATOR "(" lp ->
  writtenDeclaration d td ->
  written 5 c tc ->
  tokenIs SEPARATOR ";" semi ->
  writtenAssignment a ta ->
  tokenIs SEPARATOR ")" rp ->
  parsedBlock tokens b tb ->
  parsedStatement tokens (ForLoopNode d c a b)
    (kw :: lp :: td ++ tc ++ semi :: ta ++ rp :: tb).
Proof.
  intros Hk Hlp Hd Hc Hsemi Ha Hrp Hb fuel depth st rest Hs _.
  facts. normal Hs. unfold Parser.parseStatement. see Hs. checks.
  unfold Parser.parseForLoop.
  eat (Some "for"%string) Hs. eat (Some "("%string) Hs.
  eapply leads_bind; [exact (declaration_parsed _ _ Hd fuel _ _ Hs)|].
  apply skipn_after in Hs. cbn beta.
  expression Hc Hs. eat (Some ";"%string) Hs.
  eapply leads_bind;
    [eapply (assignment_parsed _ _ Ha fuel _ true); [exact Hs | assumption]|].
  apply skipn_after in Hs. cbn beta.
  eat (Some ")"%string) Hs.
  eapply leads_bind; [exact (Hb fuel depth _ _ Hs)|].
  finished.
Qed.

Lemma parsed_block lb ss ts rb :
  tokenIs SEPARATOR "{" lb ->
  parsedStatements tokens ss ts ->
  tokenIs SEPARATOR "}" rb ->
  parsedBlock tokens (BlockNode ss) (lb :: ts ++ [rb]).
Proof.
  intros Hlb Hss Hrb fuel depth st rest Hs. facts. normal Hs.
  destruct depth as [|depth]; [intros Hn; now contradiction Hn|].
  cbn [Parser.parseBlock].
  eat (Some "{"%string) Hs.
  eapply leads_bind;
    [eapply (Hss fuel depth fuel []); [exact Hs | assumption]|].
  apply skipn_after in Hs. cbn beta.
  eat (Some "}"%string) Hs. finished.
Qed.

Lemma parsed_no_statements : parsedStatements tokens [] [].
Proof.
  intros fuel depth loops acc st rb rest Hs Hrb. cbn [app length] in *.
  rewrite app_nil_r, after_zero.
  destruct loops; cbn [Parser.blockLoop]; see Hs; checks; now apply leads_eq.
Qed.

Lemma statements_first ss ts rb rest :
  writtenStatements ss ts -> value rb = lit "}" ->
  Parser.valueIs "else" (hd_error (ts ++ rb :: rest)) = false.
Proof.
  intros [|s t ss' ts' Hs _] Hrb.
  - cbn [app hd_error]. checks. reflexivity.
  - destruct (statement_first _ _ Hs) as (t0 & r & -> & _ & Helse).
    exact Helse.
Qed.

Lemma statement_truthy s ts : writtenStatement s ts -> truthy s = true.
Proof.
  intros H; destruct H; try reflexivity;
    match goal with
    | H : writtenDeclaration _ _ |- _ => now destruct H
    | H : writtenAssignment _ _ |- _ => now destruct H
    end.
Qed.

Lemma parsed_more_statements s t ss ts :
  writtenStatement s t -> parsedStatement tokens s t ->
  writtenStatements ss ts -> parsedStatements tokens ss ts ->
  parsedStatements tokens (s :: ss) (t ++ ts).
Proof.
  intros Hw Hs Hws Hss fuel depth loops acc st rb rest Hsk Hrb.
  destruct (statement_first _ _ Hw) as (t0 & r & -> & Hclose & Helse).
  pose proof (statement_truthy _ _ Hw) as Htruthy.
  normal Hsk.
  destruct loops as [|loops]; cbn [Parser.blockLoop]; see Hsk; rewrite Hclose;
    cbn [negb]; [intros Hn; now contradiction Hn|].
  change (t0 :: r ++ ts ++ rb :: rest)
    with ((t0 :: r) ++ ts ++ rb :: rest) in Hsk.
  eapply leads_bind.
  { apply (Hs fuel depth st _ Hsk). eapply statements_first; eassumption. }
  apply skipn_after in Hsk. cbn beta. rewrite Htruthy.
  intros Hn.
  rewrite (Hss fuel depth loops (acc ++ [s]) _ rb rest Hsk Hrb Hn).
  rewrite <- app_assoc. cbn [app]. f_equal. rewrite after_after. f_equal.
  lengths.
Qed.

Ltac statement_cases :=
  intros;
  first [ now apply parsed_statement_declaration
        | now apply parsed_statement_assignment
        | apply parsed_statement_call; try assumption;
          now apply arguments_parsed
        | now apply parsed_statement_return
        | now apply parsed_statement_return_value
        | now apply parsed_statement_if
        | now apply parsed_statement_if_else
        | now apply parsed_statement_for
        | now apply parsed_block
        | now apply parsed_no_statements
        | now apply parsed_more_statements ].

Lemma block_parsed b ts : writtenBlock b ts -> parsedBlock tokens b ts.
Proof.
  revert b ts.
  apply (writtenBlock_mutual (parsedStatement tokens) (parsedBlock tokens)
           (parsedStatements tokens)); statement_cases.
Qed.

Lemma parameters_parsed ps ts :
  writtenParameters ps ts ->
  forall fuel acc st rp rest,
    skipn (Parser.pos st) tokens = ts ++ rp :: rest ->
    value rp = lit ")" ->
    leads (Parser.parameterLoop tokens fuel acc) st
      (Ok (acc ++ ps) (after st (length ts))).
Proof.
  induction 1 as [kw name Hk Hn | kw name c ps ts Hk Hn Hc _ IH];
    intros fuel acc st rp rest Hs Hrp; normal Hs.
  - destruct fuel; cbn [Parser.parameterLoop];
      eat (@None string) Hs; eat (@None string) Hs; cbv zeta;
      see Hs; checks; finished.
  - destruct fuel as [|fuel]; cbn [Parser.parameterLoop];
      eat (@None string) Hs; eat (@None string) Hs; cbv zeta;
      see Hs; checks; [intros Hd; now contradiction Hd|].
    move_on Hs. intros Hd.
    rewrite (IH fuel _ _ rp rest Hs Hrp Hd).
    rewrite <- app_assoc. cbn [app]. f_equal. rewrite !after_after.
    f_equal; lengths.
Qed.

Lemma function_parsed f ts :
  writtenFunction f ts ->
  forall fuel st rest,
    skipn (Parser.pos st) tokens = ts ++ rest ->
    leads (Parser.parseFunctionDefinition tokens fuel) st
      (Ok f (after st (length ts))).
Proof.
  intros [kw name lp rp b tb Hk Hn Hlp Hrp Hb
         | kw name lp ps tp rp b tb Hk Hn Hlp Hps Hne Hrp Hb]
    fuel st rest Hs; facts; normal Hs;
    unfold Parser.parseFunctionDefinition;
    eat (@None string) Hs; eat (@None string) Hs; eat (Some "("%string) Hs;
    see Hs.
  - checks. eapply leads_step; [reflexivity|].
    eat (Some ")"%string) Hs.
    eapply leads_bind; [exact (block_parsed _ _ Hb fuel fuel _ _ Hs)|].
    finished.
  - assert (exists t r, tp = t :: r) as (t & r & ->)
      by (destruct Hps; eauto).
    cbn [app hd_error] in *. rewrite Hne. cbn [negb].
    change (t :: r ++ rp :: tb ++ rest)
      with ((t :: r) ++ rp :: tb ++ rest) in Hs.
    eapply leads_bind;
      [eapply (parameters_parsed _ _ Hps fuel []); [exact Hs | assumption]|].
    apply skipn_after in Hs. cbn beta. cbn [app].
    eat (Some ")"%string) Hs.
    eapply leads_bind; [exact (block_parsed _ _ Hb fuel fuel _ _ Hs)|].
    finished.
Qed.

Lemma function_first f ts :
  writtenFunction f ts -> truthy f = true /\ exists t r, ts = t :: r.
Proof. intros H; destruct H; split; eauto. Qed.

Lemma functions_parsed fs ts :
  writtenProgram fs ts ->
  forall fuel loops acc st,
    skipn (Parser.pos st) tokens = ts ->
    leads (Parser.parseLoop tokens fuel loops acc) st
      (Ok (acc ++ fs) (after st (length ts))).
Proof.
  induction 1 as [|f t fs ts Hf _ IH]; intros fuel loops acc st Hs.
  - rewrite app_nil_r, after_zero.
    destruct loops; cbn [Parser.parseLoop]; see Hs; now apply leads_eq.
  - destruct (function_first _ _ Hf) as (Htruthy & t0 & r & ->).
    pose proof Hs as Hs'. cbn [app] in Hs'.
    destruct loops as [|loops]; cbn [Parser.parseLoop]; see Hs';
      [intros Hd; now contradiction Hd|].
    eapply leads_bind; [exact (function_parsed _ _ Hf fuel st ts Hs)|].
    apply skipn_after in Hs. cbn beta. rewrite Htruthy.
    intros Hd. rewrite (IH fuel loops _ _ Hs Hd).
    rewrite <- app_assoc. cbn [app]. f_equal. rewrite after_after. f_equal.
    lengths.
Qed.

End Statements.

(** X27: [parse] accepts the programs of the grammar: on the tokens of a
    sequence of function definitions whose statements are declarations,
    assignments, calls, returns, conditionals and loops written by the
    grammar, it returns the tree of the program and no syntax error. *)
Theorem program_parsed (fs : list node) (ts : list Token) :
  writtenProgram fs ts ->
  Parser.parse ts = Parser.Parsed (ProgramNode fs) [].
Proof.
  intros H. pose proof (parse_never_diverges ts) as Hd.
  unfold Parser.parse in *. cbv zeta in *.
  pose proof (functions_parsed ts fs ts H (S (length ts)) (S (length ts)) []
                (Parser.mkState 0 []) eq_refl) as Hl.
  unfold leads in Hl.
  destruct (Parser.parseLoop _ _ _ _ _) as [fs' st'| |] eqn:E.
  - specialize (Hl ltac:(discriminate)). injection Hl as -> ->. reflexivity.
  - specialize (Hl ltac:(discriminate)). discriminate Hl.
  - congruence.
Qed.

Lemma program_parsed_witness :
  writtenProgram
    [FunctionDefinitionNode (lit "int") (mkToken IDENTIFIER (lit "f") 1 5)
       [mkParam (lit "int") (mkToken IDENTIFIER (lit "n") 1 11)]
       (BlockNode
          [ReturnStatementNode
             (BinaryOpNode
                (IdentifierNode (mkToken IDENTIFIER (lit "n") 1 23))
                (lit "*")
                (NumberNode (mkToken INT_LIT (lit "2") 1 27)))])]
    (tokensOf (lit "int f(int n) { return n * 2; }")) /\
  Parser.parse (tokensOf (lit "int f(int n) { return n * 2; }")) =
  Parser.Parsed
    (ProgramNode
       [FunctionDefinitionNode (lit "int") (mkToken IDENTIFIER (lit "f") 1 5)
          [mkParam (lit "int") (mkToken IDENTIFIER (lit "n") 1 11)]
          (BlockNode
             [ReturnStatementNode
                (BinaryOpNode
                   (IdentifierNode (mkToken IDENTIFIER (lit "n") 1 23))
                   (lit "*")
                   (NumberNode (mkToken INT_LIT (lit "2") 1 27)))])])
    [].
Proof.
  assert (H : writtenProgram
    [FunctionDefinitionNode (lit "int") (mkToken IDENTIFIER (lit "f") 1 5)
       [mkParam (lit "int") (mkToken IDENTIFIER (lit "n") 1 11)]
       (BlockNode
          [ReturnStatementNode
             (BinaryOpNode
                (IdentifierNode (mkToken IDENTIFIER (lit "n") 1 23))
                (lit "*")
                (NumberNode (mkToken INT_LIT (lit "2") 1 27)))])]
    (tokensOf (lit "int f(int n) { return n * 2; }"))).
  { change (tokensOf (lit "int f(int n) { return n * 2; }")) with
      ((mkToken KEYWORD (lit "int") 1 1 :: mkToken IDENTIFIER (lit "f") 1 5 ::
        mkToken SEPARATOR (lit "(") 1 6 ::
        [mkToken KEYWORD (lit "int") 1 7; mkToken IDENTIFIER (lit "n") 1 11] ++
        mkToken SEPARATOR (lit ")") 1 12 ::
        (mkToken SEPARATOR (lit "{") 1 14 ::
         ((mkToken KEYWORD (lit "return") 1 16 ::
           ([mkToken IDENTIFIER (lit "n") 1 23] ++
            mkToken OPERATOR (lit "*") 1 25 ::
            [mkToken INT_LIT (lit "2") 1 27]) ++
           [mkToken SEPARATOR (lit ";") 1 28]) ++ []) ++
         [mkToken SEPARATOR (lit "}") 1 30])) ++ []).
    apply program_cons; [|apply program_nil].
    apply (function_parameters (mkToken KEYWORD (lit "int") 1 1));
      try reflexivity; try (split; reflexivity).
    - now apply (parameters_one (mkToken KEYWORD (lit "int") 1 7)).
    - apply block_intro; try (split; reflexivity).
      apply statements_cons; [|apply statements_nil].
      apply statement_return_value; try reflexivity;
        try (split; reflexivity).
      do 4 apply written_level.
      apply (written_binary 0 _ (mkToken OPERATOR (lit "*") 1 25));
        [|reflexivity|].
      + apply written_level. now apply written_identifier.
      + apply written_number. now left. }
  split; [exact H|]. exact (program_parsed _ _ H).
Defined.
